(** * Query operators of a6/Operators.cpp: TableIterator, IndexScan, Select,
    Project, NestedLoopsJoin, Sort and Unique.

    Every operator is a C++ object with member fields and the four virtual
    methods of [Iterator]: [n_columns], [open], [next], [close].  An object
    is a value of the inductive type [Iterator] whose constructors carry the
    member fields of the seven classes; a method takes the object and gives
    back the object after the call.  [while] loops iterate under a bound,
    [Row::at] outside a row is a [Fault], and every [Row::reclaim] of a
    non-null row is written to a log. *)

From Stdlib Require Import String Ascii List ZArith Lia Bool Arith.
From Stdlib Require Import Permutation Sorted OrdersEx RelationClasses.
Import ListNotations.

Open Scope string_scope.
Open Scope list_scope.
Open Scope nat_scope.

Set Implicit Arguments.

(** ** Rows *)

(** Row.h is not part of the sources at hand.  A row is used here through
    [size()], [at(i)], [append(v)] and [Row::reclaim]; a column value through
    [==], [>=], [<=] and [compare], as a [std::string] offers them. *)
Definition Row : Type := list string.

(** ** Results of a call *)

(** A call finishes with a value and the rows it handed to [Row::reclaim],
    throws, or exceeds the iteration bound it was run under. *)
Inductive outcome (A : Type) : Type :=
| Done (a : A) (reclaimed : list Row)
| Fault
| OutOfFuel.

Arguments Done {A} a reclaimed.
Arguments Fault {A}.
Arguments OutOfFuel {A}.

Definition ret {A : Type} (a : A) : outcome A := Done a [].

Definition bind {A B : Type} (m : outcome A) (k : A -> outcome B) : outcome B :=
  match m with
  | Done a g =>
      match k a with
      | Done b g' => Done b (g ++ g')
      | Fault => Fault
      | OutOfFuel => OutOfFuel
      end
  | Fault => Fault
  | OutOfFuel => OutOfFuel
  end.

Notation "x <- m ;; k" := (bind m (fun x => k))
  (at level 61, m at next level, right associativity).
Notation "' pat <- m ;; k" := (bind m (fun x => match x with pat => k end))
  (at level 61, pat pattern, m at next level, right associativity).

(** [row->at(i)]: the value of column [i]; a position outside the row throws. *)
Definition Row_at (row : Row) (i : nat) : outcome string :=
  match nth_error row i with
  | Some v => ret v
  | None => Fault
  end.

(** [Row::reclaim(row)]: nothing happens for [NULL]; a row is released. *)
Definition Row_reclaim (row : option Row) : outcome unit :=
  match row with
  | Some r => Done tt [r]
  | None => ret tt
  end.

(** Comparison of column values, byte by byte as [std::string] does. *)
Definition string_compare (a b : string) : comparison := String_as_OT.compare a b.

Definition string_geb (a b : string) : bool :=
  match string_compare a b with Lt => false | _ => true end.

Definition string_leb (a b : string) : bool :=
  match string_compare a b with Gt => false | _ => true end.

(** ** unsigned *)

Definition to_unsigned (z : Z) : Z := z mod 2 ^ 32.

(** ** Collaborators: Table, Index, ColumnSelector, RowCompare *)

(** Table.h is not part of the sources: a table is its column names and its
    rows in iteration order.  A position in [rows()] is a [nat]; [begin()]
    is [0] and [end()] is the number of rows. *)
Record Table : Type := { columns : list string; rows : list Row }.

(** Index.h is not part of the sources: an index is the width of the rows it
    stores and its (key row, data row) entries in iteration order. *)
Record Index : Type := { Index_n_columns : Z; entries : list (Row * Row) }.

Definition Index_empty (index : Index) : bool :=
  match entries index with [] => true | _ :: _ => false end.

(** Modelled from the spec: ColumnSelector.h is missing.  A selector holds the
    source row width and the ordered list of selected column positions;
    [selected(i)] is the [i]-th of them, and asking beyond the list throws. *)
Record ColumnSelector : Type := { cs_n_columns : Z; cs_columns : list nat }.

Definition n_selected (cs : ColumnSelector) : Z := Z.of_nat (length (cs_columns cs)).

Definition selected (cs : ColumnSelector) (i : nat) : outcome nat :=
  match nth_error (cs_columns cs) i with
  | Some c => ret c
  | None => Fault
  end.

(** Modelled from the spec: the constructor of ColumnSelector is missing.
    Every requested position must be below the source width, else the
    construction fails. *)
Definition new_ColumnSelector (n_columns : Z) (columns : list nat) : outcome ColumnSelector :=
  if forallb (fun c => Z.of_nat c <? n_columns)%Z columns
  then ret {| cs_n_columns := n_columns; cs_columns := columns |}
  else Fault.

(** Modelled from the spec: RowCompare.h is missing.  The comparator compares
    the key columns in the listed order, the first unequal column decides, and
    rows equal on every listed column are tied.  The spec leaves a key position
    outside a row open; it reads as the empty value here. *)
Definition key_column (row : Row) (c : nat) : string := nth c row "".

Fixpoint RowCompare (sort_columns : list nat) (a b : Row) : bool :=
  match sort_columns with
  | [] => false
  | c :: more =>
      match string_compare (key_column a c) (key_column b c) with
      | Lt => true
      | Gt => false
      | Eq => RowCompare more a b
      end
  end.

(** ** std::sort *)

(** What [std::sort] requires of its comparator. *)
Definition strict_weak_order {A : Type} (comp : A -> A -> bool) : Prop :=
  (forall a b, comp a b = true -> comp b a = false) /\
  (forall a b c, comp a b = false -> comp b c = false -> comp a c = false).

(** Nondecreasing under [comp]: no later element is below an earlier one. *)
Definition nondecreasing {A : Type} (comp : A -> A -> bool) (l : list A) : Prop :=
  StronglySorted (fun a b => comp b a = false) l.

(** [std::sort] is a library routine: it rearranges the range into
    nondecreasing order, and says nothing on the order of tied elements. *)
Class StdSort : Type := {
  std_sort : (Row -> Row -> bool) -> list Row -> list Row;
  std_sort_permutation :
    forall comp l, strict_weak_order comp -> Permutation l (std_sort comp l);
  std_sort_nondecreasing :
    forall comp l, strict_weak_order comp -> nondecreasing comp (std_sort comp l)
}.

(** ** The operators as objects *)

(** A cursor into a container is a position.  The cursors of IndexScan and
    Sort are not set by the constructor: [None] until [open] sets them. *)
Inductive Iterator : Type :=
| TableIterator (_table : Table) (_input _end : nat)
| IndexScan (_index : Index) (_lo _hi : Row) (_input _end : option nat)
| Select (_input : Iterator) (_predicate : Row -> bool)
| Project (_input : Iterator) (_column_selector : ColumnSelector)
| NestedLoopsJoin (_left _right : Iterator)
    (_left_join_columns _right_join_columns : ColumnSelector)
    (_left_row : option Row)
| Sort (_input : Iterator) (_sort_columns : list nat)
    (_sorted : list Row) (_sorted_iterator : option nat)
| Unique (_input : Iterator) (_last_unique : option Row).

(** *** n_columns *)

Fixpoint n_columns (it : Iterator) : Z :=
  match it with
  | TableIterator _table _ _ => to_unsigned (Z.of_nat (length (columns _table)))
  | IndexScan _index _ _ _ _ => Index_n_columns _index
  | Select _input _ => n_columns _input
  | Project _ _column_selector => n_selected _column_selector
  | NestedLoopsJoin _ _ _left_join_columns _right_join_columns _ =>
      if ((0 <=? n_selected _left_join_columns) && (0 <=? n_selected _right_join_columns))%Z
      then to_unsigned (cs_n_columns _left_join_columns + cs_n_columns _right_join_columns - 1)
      else 0%Z
  | Sort _input _ _ _ => n_columns _input
  | Unique _input _ => n_columns _input
  end.

(** *** Constructors *)

Definition new_TableIterator (table : Table) : Iterator :=
  TableIterator table 0 (length (rows table)).

Definition new_IndexScan (index : Index) (lo : Row) (hi : option Row) : Iterator :=
  IndexScan index lo (match hi with None => lo | Some h => h end) None None.

Definition new_Select (input : Iterator) (predicate : Row -> bool) : Iterator :=
  Select input predicate.

Definition new_Project (input : Iterator) (columns : list nat) : outcome Iterator :=
  cs <- new_ColumnSelector (n_columns input) columns ;;
  ret (Project input cs).

Definition new_NestedLoopsJoin (left : Iterator) (left_join_columns : list nat)
    (right : Iterator) (right_join_columns : list nat) : outcome Iterator :=
  lcs <- new_ColumnSelector (n_columns left) left_join_columns ;;
  rcs <- new_ColumnSelector (n_columns right) right_join_columns ;;
  if (n_selected lcs =? n_selected rcs)%Z
  then ret (NestedLoopsJoin left right lcs rcs None)
  else Fault.

Definition new_Sort (input : Iterator) (sort_columns : list nat) : Iterator :=
  Sort input sort_columns [] None.

Definition new_Unique (input : Iterator) : Iterator := Unique input None.

(** *** close *)

Fixpoint close (it : Iterator) : Iterator :=
  match it with
  | TableIterator _table _ _ =>
      TableIterator _table (length (rows _table)) (length (rows _table))
  | IndexScan _index _lo _hi _ _end =>
      IndexScan _index _lo _hi (Some (length (entries _index))) _end
  | Select _input p => Select (close _input) p
  | Project _input cs => Project (close _input) cs
  | NestedLoopsJoin _left _right lcs rcs _left_row =>
      NestedLoopsJoin (close _left) (close _right) lcs rcs _left_row
  | Sort _input cols _sorted _sorted_iterator =>
      Sort (close _input) cols _sorted _sorted_iterator
  | Unique _input _last_unique => Unique (close _input) _last_unique
  end.

(** *** The loops of next and open *)

(** The [while] loops call methods of child objects; they take those methods
    as arguments, and [k] bounds the number of iterations. *)
Section Loops.

Variable input_next : Iterator -> outcome (option Row * Iterator).
Variable input_open : Iterator -> outcome Iterator.

(** IndexScan::next, the test of one entry:
    [first.at(0) >= _lo->at(0) && first.at(0) <= _hi->at(0)]. *)
Definition IndexScan_in_range (key _lo _hi : Row) : outcome bool :=
  k <- Row_at key 0 ;;
  l <- Row_at _lo 0 ;;
  if string_geb k l
  then k' <- Row_at key 0 ;;
       h <- Row_at _hi 0 ;;
       ret (string_leb k' h)
  else ret false.

(** IndexScan::next, [while( _input != _end )]. *)
Fixpoint IndexScan_next_loop (k : nat) (_index : Index) (_lo _hi : Row)
    (_input _end : nat) : outcome (option Row * nat) :=
  match k with
  | 0 => OutOfFuel
  | S k' =>
      if _input =? _end then ret (None, _input)
      else
        match nth_error (entries _index) _input with
        | None => Fault
        | Some (key, data) =>
            inside <- IndexScan_in_range key _lo _hi ;;
            if inside then ret (Some data, S _input)
            else IndexScan_next_loop k' _index _lo _hi (S _input) _end
        end
  end.

(** Select::next, [while( row != NULL )]. *)
Fixpoint Select_next_loop (_predicate : Row -> bool) (k : nat)
    (row : option Row) (_input : Iterator) : outcome (option Row * Iterator) :=
  match k with
  | 0 => OutOfFuel
  | S k' =>
      match row with
      | None => ret (None, _input)
      | Some r =>
          if _predicate r then ret (Some r, _input)
          else
            '(row', _input') <- input_next _input ;;
            Select_next_loop _predicate k' row' _input'
      end
  end.

(** Project::next, the loop over the selected positions:
    [projected->append(row->at(_column_selector.selected(i)))]. *)
Fixpoint Project_next_loop (cs : ColumnSelector) (todo i : nat) (row projected : Row)
    : outcome Row :=
  match todo with
  | 0 => ret projected
  | S todo' =>
      c <- selected cs i ;;
      v <- Row_at row c ;;
      Project_next_loop cs todo' (S i) row (projected ++ [v])
  end.

(** NestedLoopsJoin::match. *)
Definition NestedLoopsJoin_match (lcs rcs : ColumnSelector) (left right : Row)
    : outcome bool :=
  lc <- selected lcs 0 ;;
  lv <- Row_at left lc ;;
  rc <- selected rcs 0 ;;
  rv <- Row_at right rc ;;
  ret (String.eqb lv rv).

(** NestedLoopsJoin::join_rows_if_match, second loop: the columns of
    [right] from position [i] on, the one at [selected(0)] left out. *)
Fixpoint join_right_loop (rcs : ColumnSelector) (i : nat) (right join_row : Row)
    : outcome Row :=
  match right with
  | [] => ret join_row
  | v :: right' =>
      c <- selected rcs 0 ;;
      if negb (i =? c)
      then join_right_loop rcs (S i) right' (join_row ++ [v])
      else join_right_loop rcs (S i) right' join_row
  end.

(** NestedLoopsJoin::join_rows_if_match, first loop: every column of [left]. *)
Fixpoint join_left_loop (left join_row : Row) : Row :=
  match left with
  | [] => join_row
  | v :: left' => join_left_loop left' (join_row ++ [v])
  end.

Definition NestedLoopsJoin_join_rows_if_match (rcs : ColumnSelector) (left right : Row)
    : outcome Row :=
  join_right_loop rcs 0 right (join_left_loop left []).

Variable right_next : Iterator -> outcome (option Row * Iterator).

(** NestedLoopsJoin::next,
    [while( _left_row != NULL && r_row != NULL && !match(_left_row, r_row) )];
    [input_next], [input_open] are the methods of [_left]. *)
Fixpoint NestedLoopsJoin_next_loop (lcs rcs : ColumnSelector) (k : nat)
    (_left_row r_row : option Row) (_left _right : Iterator)
    : outcome (option Row * option Row * Iterator * Iterator) :=
  match k with
  | 0 => OutOfFuel
  | S k' =>
      match _left_row, r_row with
      | Some l, Some r =>
          matched <- NestedLoopsJoin_match lcs rcs l r ;;
          if matched then ret (_left_row, r_row, _left, _right)
          else
            '(_left_row, _left) <- input_next _left ;;
            match _left_row with
            | None =>
                '(r_row, _right) <- right_next _right ;;
                match r_row with
                | Some _ =>
                    _left <- input_open (close _left) ;;
                    '(_left_row, _left) <- input_next _left ;;
                    NestedLoopsJoin_next_loop lcs rcs k' _left_row r_row _left _right
                | None =>
                    NestedLoopsJoin_next_loop lcs rcs k' _left_row r_row _left _right
                end
            | Some _ =>
                NestedLoopsJoin_next_loop lcs rcs k' _left_row r_row _left _right
            end
      | _, _ => ret (_left_row, r_row, _left, _right)
      end
  end.

(** Sort::open, [while( row != NULL )]: [_sorted.emplace_back(row)]. *)
Fixpoint Sort_open_loop (k : nat) (row : option Row) (_sorted : list Row)
    (_input : Iterator) : outcome (option Row * list Row * Iterator) :=
  match k with
  | 0 => OutOfFuel
  | S k' =>
      match row with
      | None => ret (None, _sorted, _input)
      | Some r =>
          '(row', _input') <- input_next _input ;;
          Sort_open_loop k' row' (_sorted ++ [r]) _input'
      end
  end.

(** Unique::next, the comparison of [row] with [_last_unique] column by
    column: [if( row->at(i).compare(_last_unique->at(i)) != 0 ) equal = false]. *)
Fixpoint Unique_compare_loop (row _last_unique : Row) (equal : bool) : outcome bool :=
  match row with
  | [] => ret equal
  | v :: row' =>
      match _last_unique with
      | [] => Fault
      | w :: last' =>
          match string_compare v w with
          | Eq => Unique_compare_loop row' last' equal
          | _ => Unique_compare_loop row' last' false
          end
      end
  end.

(** Unique::next, [while( row != NULL )]. *)
Fixpoint Unique_next_loop (k : nat) (row : option Row) (_last_unique : option Row)
    (_input : Iterator) : outcome (option Row * option Row * Iterator) :=
  match k with
  | 0 => OutOfFuel
  | S k' =>
      match row with
      | None => ret (None, _last_unique, _input)
      | Some r =>
          match _last_unique with
          | None => ret (Some r, Some r, _input)
          | Some last =>
              if length r =? length last
              then
                equal <- Unique_compare_loop r last true ;;
                if negb equal then ret (Some r, Some r, _input)
                else
                  '(row', _input') <- input_next _input ;;
                  Unique_next_loop k' row' _last_unique _input'
              else
                '(row', _input') <- input_next _input ;;
                Unique_next_loop k' row' _last_unique _input'
          end
      end
  end.

End Loops.

(** *** next and open *)

Section Methods.

Context {sorting : StdSort}.

(** [next fuel it] and [open fuel it]: the call on the object [it]; calls on
    child objects run under [fuel - 1], and so does every loop. *)
Fixpoint next (fuel : nat) (it : Iterator) {struct fuel}
    : outcome (option Row * Iterator) :=
  match fuel with
  | 0 => OutOfFuel
  | S fuel' =>
      match it with
      | TableIterator _table _input _end =>
          if negb (_input =? _end)
          then
            match nth_error (rows _table) _input with
            | Some row => ret (Some row, TableIterator _table (S _input) _end)
            | None => Fault
            end
          else ret (None, it)
      | IndexScan _index _lo _hi _input _end =>
          if negb (Index_empty _index)
          then
            match _input, _end with
            | Some i, Some e =>
                '(next_row, i') <- IndexScan_next_loop fuel' _index _lo _hi i e ;;
                ret (next_row, IndexScan _index _lo _hi (Some i') _end)
            | _, _ => Fault
            end
          else ret (None, it)
      | Select _input _predicate =>
          '(row, _input) <- next fuel' _input ;;
          '(selected_row, _input) <-
             Select_next_loop (next fuel') _predicate fuel' row _input ;;
          ret (selected_row, Select _input _predicate)
      | Project _input cs =>
          '(row, _input) <- next fuel' _input ;;
          match row with
          | Some r =>
              projected <-
                Project_next_loop cs (length (cs_columns cs)) 0 r [] ;;
              _ <- Row_reclaim row ;;
              ret (Some projected, Project _input cs)
          | None => ret (None, Project _input cs)
          end
      | NestedLoopsJoin _left _right lcs rcs _left_row =>
          '(r_row, _right) <- next fuel' _right ;;
          '(_left_row, r_row, _left, _right) <-
             NestedLoopsJoin_next_loop (next fuel') (open fuel') (next fuel')
               lcs rcs fuel' _left_row r_row _left _right ;;
          match _left_row, r_row with
          | Some l, Some r =>
              nested <- NestedLoopsJoin_join_rows_if_match rcs l r ;;
              _ <- Row_reclaim r_row ;;
              ret (Some nested, NestedLoopsJoin _left _right lcs rcs _left_row)
          | _, _ => ret (None, NestedLoopsJoin _left _right lcs rcs _left_row)
          end
      | Sort _input cols _sorted _sorted_iterator =>
          match _sorted_iterator with
          | Some i =>
              if negb (i =? length _sorted)
              then
                match nth_error _sorted i with
                | Some row => ret (Some row, Sort _input cols _sorted (Some (S i)))
                | None => Fault
                end
              else ret (None, it)
          | None => Fault
          end
      | Unique _input _last_unique =>
          '(row, _input) <- next fuel' _input ;;
          '(unique_row, _last_unique, _input) <-
             Unique_next_loop (next fuel') fuel' row _last_unique _input ;;
          ret (unique_row, Unique _input _last_unique)
      end
  end

with open (fuel : nat) (it : Iterator) {struct fuel} : outcome Iterator :=
  match fuel with
  | 0 => OutOfFuel
  | S fuel' =>
      match it with
      | TableIterator _table _ _end => ret (TableIterator _table 0 _end)
      | IndexScan _index _lo _hi _ _ =>
          ret (IndexScan _index _lo _hi (Some 0) (Some (length (entries _index))))
      | Select _input _predicate =>
          _input <- open fuel' _input ;;
          ret (Select _input _predicate)
      | Project _input cs =>
          _input <- open fuel' _input ;;
          ret (Project _input cs)
      | NestedLoopsJoin _left _right lcs rcs _ =>
          _left <- open fuel' _left ;;
          _right <- open fuel' _right ;;
          '(_left_row, _left) <- next fuel' _left ;;
          ret (NestedLoopsJoin _left _right lcs rcs _left_row)
      | Sort _input cols _ _ =>
          _input <- open fuel' _input ;;
          '(row, _input) <- next fuel' _input ;;
          '(row, _sorted, _input) <-
             Sort_open_loop (next fuel') fuel' row [] _input ;;
          _ <- Row_reclaim row ;;
          ret (Sort _input cols (std_sort (RowCompare cols) _sorted) (Some 0))
      | Unique _input _last_unique =>
          _input <- open fuel' _input ;;
          ret (Unique _input _last_unique)
      end
  end.

(** *** The consumer *)

(** Calls [next] until it returns no row, and collects the rows. *)
Fixpoint drain_loop (step : Iterator -> outcome (option Row * Iterator))
    (k : nat) (it : Iterator) : outcome (list Row * Iterator) :=
  match k with
  | 0 => OutOfFuel
  | S k' =>
      '(row, it') <- step it ;;
      match row with
      | None => ret ([], it')
      | Some r =>
          '(more, it'') <- drain_loop step k' it' ;;
          ret (r :: more, it'')
      end
  end.

Definition drain (fuel : nat) (it : Iterator) : outcome (list Row * Iterator) :=
  drain_loop (next fuel) fuel it.

End Methods.

(** ** Two routines that meet the contract of std::sort *)

(** Insertion sort, written twice: a new element goes in front of the elements
    it is tied with, or behind them. *)
Section InsertionSort.

Variable A : Type.
Variable comp : A -> A -> bool.

Fixpoint insert_before_ties (x : A) (l : list A) : list A :=
  match l with
  | [] => [x]
  | y :: l' => if comp y x then y :: insert_before_ties x l' else x :: y :: l'
  end.

Fixpoint insert_behind_ties (x : A) (l : list A) : list A :=
  match l with
  | [] => [x]
  | y :: l' => if comp x y then x :: y :: l' else y :: insert_behind_ties x l'
  end.

Definition sort_ties_kept (l : list A) : list A := fold_right insert_before_ties [] l.

Definition sort_ties_reversed (l : list A) : list A := fold_right insert_behind_ties [] l.

End InsertionSort.

(** ** Rows and predicates of the examples *)

(** A column value read as a decimal number, as [atoi] reads it. *)
Definition digit_of (c : ascii) : option nat :=
  let n := nat_of_ascii c in
  if (48 <=? n) && (n <=? 57) then Some (n - 48) else None.

Fixpoint number_of (s : string) (acc : nat) : nat :=
  match s with
  | EmptyString => acc
  | String c s' =>
      match digit_of c with
      | Some d => number_of s' (10 * acc + d)
      | None => acc
      end
  end.

(** The predicate "column 0 > 5". *)
Definition column0_above_5 (row : Row) : bool :=
  match row with
  | v :: _ => 5 <? number_of v 0
  | [] => false
  end.

Definition table_of (width : nat) (l : list Row) : Table :=
  {| columns := repeat "c" width; rows := l |}.

(** ** What Unique returns, as a function of the child's rows *)

Definition row_eqb (a b : Row) : bool :=
  if list_eq_dec string_dec a b then true else false.

(** A row is passed over when its size differs from the size of the last row
    returned, or when it is that row again. *)
Definition Unique_skips (last row : Row) : bool :=
  negb (length row =? length last) || row_eqb row last.

Fixpoint Unique_rows (last : option Row) (l : list Row) : list Row :=
  match l with
  | [] => []
  | row :: l' =>
      match last with
      | None => row :: Unique_rows (Some row) l'
      | Some p =>
          if Unique_skips p row then Unique_rows last l'
          else row :: Unique_rows (Some row) l'
      end
  end.

Fixpoint Unique_last (last : option Row) (l : list Row) : option Row :=
  match l with
  | [] => last
  | row :: l' =>
      match last with
      | None => Unique_last (Some row) l'
      | Some p =>
          if Unique_skips p row then Unique_last last l' else Unique_last (Some row) l'
      end
  end.

(** Adjacent duplicates removed: a row is passed over exactly when it equals
    the last row returned. *)
Fixpoint adjacent_distinct (last : option Row) (l : list Row) : list Row :=
  match l with
  | [] => []
  | row :: l' =>
      match last with
      | None => row :: adjacent_distinct (Some row) l'
      | Some p =>
          if row_eqb row p then adjacent_distinct last l'
          else row :: adjacent_distinct (Some row) l'
      end
  end.

Definition same_width (l : list Row) : Prop :=
  forall a b, In a l -> In b l -> length a = length b.

(** ** Stability of a sort *)

(** Two rows are tied when neither is below the other. *)
Definition tied (comp : Row -> Row -> bool) (a b : Row) : bool :=
  negb (comp a b) && negb (comp b a).

(** [out] keeps the ties of [l]: the rows tied with any given row come in
    [out] in the order they have in [l]. *)
Definition keeps_ties (comp : Row -> Row -> bool) (l out : list Row) : Prop :=
  forall x, filter (tied comp x) out = filter (tied comp x) l.

(** ** What IndexScan keeps, as a function of the index entries *)

Definition leading_key_in_range (lo0 hi0 : string) (entry : Row * Row) : bool :=
  match fst entry with
  | k0 :: _ => string_leb lo0 k0 && string_leb k0 hi0
  | [] => false
  end.

Definition leading_key_is (v : string) (entry : Row * Row) : bool :=
  match fst entry with
  | k0 :: _ => String.eqb k0 v
  | [] => false
  end.

Definition IndexScan_rows (lo0 hi0 : string) (es : list (Row * Row)) : list Row :=
  map snd (filter (leading_key_in_range lo0 hi0) es).

(** Every key row of the index has a leading column. *)
Definition keys_not_empty (index : Index) : bool :=
  forallb (fun entry => match fst entry with [] => false | _ :: _ => true end)
    (entries index).

(** ** Widths *)

Definition row_width_is (w : Z) (row : Row) : bool := (Z.of_nat (length row) =? w)%Z.

(** The objects the width claims are about: every stored row of a table or
    an index has the width the table or index announces, widths fit an
    [unsigned], the selectors of a join hold the widths of its children (as
    the constructor sets them), and rows kept in member fields come from the
    child they were pulled from. *)
Fixpoint well_formed (it : Iterator) : bool :=
  match it with
  | TableIterator t _ _ =>
      (Z.of_nat (length (columns t)) <? 2 ^ 32)%Z &&
      forallb (row_width_is (Z.of_nat (length (columns t)))) (rows t)
  | IndexScan index _ _ _ _ =>
      forallb (fun entry => row_width_is (Index_n_columns index) (snd entry))
        (entries index)
  | Select input _ => well_formed input
  | Project input _ => well_formed input
  | NestedLoopsJoin _left _right lcs rcs left_row =>
      well_formed _left && well_formed _right &&
      (cs_n_columns lcs =? n_columns _left)%Z &&
      (cs_n_columns rcs =? n_columns _right)%Z &&
      (n_columns _left + n_columns _right <=? 2 ^ 32)%Z &&
      match left_row with
      | Some row => row_width_is (n_columns _left) row
      | None => true
      end
  | Sort input _ sorted _ =>
      well_formed input && forallb (row_width_is (n_columns input)) sorted
  | Unique input _ => well_formed input
  end.

(** The calls a consumer makes.  After each call it asks [n_columns()], and
    the trace records the answer beside the row the call returned. *)
Inductive Call : Type := Open | Next | Close.

Section Traces.

Context {sorting : StdSort}.

Definition call (fuel : nat) (c : Call) (it : Iterator)
    : outcome (Z * option Row * Iterator) :=
  match c with
  | Open => it' <- open fuel it ;; ret (n_columns it', None, it')
  | Next => '(row, it') <- next fuel it ;; ret (n_columns it', row, it')
  | Close => ret (n_columns (close it), None, close it)
  end.

Fixpoint calls (fuel : nat) (cs : list Call) (it : Iterator)
    : outcome (list (Z * option Row)) :=
  match cs with
  | [] => ret []
  | c :: cs' =>
      '(n, row, it') <- call fuel c it ;;
      more <- calls fuel cs' it' ;;
      ret ((n, row) :: more)
  end.

End Traces.

(** ** What NestedLoopsJoin returns, as a function of the children's rows *)

(** The rows [l] and [r] agree on the join columns [lc] and [rc]. *)
Definition rows_match (lc rc : nat) (l r : Row) : bool :=
  match nth_error l lc, nth_error r rc with
  | Some lv, Some rv => String.eqb lv rv
  | _, _ => false
  end.

(** All columns of [l], then the columns of [r] but the one at [rc]. *)
Definition joined (rc : nat) (l r : Row) : Row := l ++ firstn rc r ++ skipn (S rc) r.

(** The left rows from the first one that matches [r] on. *)
Fixpoint find_from (lc rc : nat) (r : Row) (cur : list Row) : option (list Row) :=
  match cur with
  | [] => None
  | l :: rest => if rows_match lc rc l r then Some cur else find_from lc rc r rest
  end.

(** [L] are the rows of the left child, [cur] its rows from the current left
    row on, [R] the rows the right child still yields.  A right row is joined
    with the first row of [cur] that matches it, and that row stays current;
    when no row of [cur] matches, the right row is dropped and the next one is
    tried against [L] from its start. *)
Fixpoint NestedLoopsJoin_rows (lc rc : nat) (L cur R : list Row) : list Row :=
  match R with
  | [] => []
  | r :: R' =>
      match cur with
      | [] => []
      | _ :: _ =>
          match find_from lc rc r cur with
          | Some (l :: rest) => joined rc l r :: NestedLoopsJoin_rows lc rc L (l :: rest) R'
          | _ => NestedLoopsJoin_rows lc rc L L R'
          end
      end
  end.

(** Every row has a column at position [c]. *)
Definition all_have_column (c : nat) (l : list Row) : bool :=
  forallb (fun row => c <? length row) l.

(** ** The rows a stream yields *)

Section Yielding.

Variable step : Iterator -> outcome (option Row * Iterator).

(** [Yields step it l it']: called again and again from [it], [step] returns
    the rows of [l] in order and then no row, leaving the object as [it']. *)
Inductive Yields : Iterator -> list Row -> Iterator -> Prop :=
| Yields_end it it' g :
    step it = Done (None, it') g -> Yields it [] it'
| Yields_row it r it1 g l it' :
    step it = Done (Some r, it1) g -> Yields it1 l it' -> Yields it (r :: l) it'.

End Yielding.

(** ** Invariants of the width claims *)

(** [kept it it']: the object after a call is well formed and announces the
    width it announced before.  [fits it row]: a returned row has that width. *)
Definition kept (it it' : Iterator) : Prop :=
  well_formed it' = true /\ n_columns it' = n_columns it.

Definition fits (it : Iterator) (row : option Row) : Prop :=
  forall r, row = Some r -> row_width_is (n_columns it) r = true.

Definition next_ok (step : Iterator -> outcome (option Row * Iterator)) : Prop :=
  forall it row it' g,
    well_formed it = true -> step it = Done (row, it') g -> kept it it' /\ fits it row.

Definition open_ok (op : Iterator -> outcome Iterator) : Prop :=
  forall it it' g, well_formed it = true -> op it = Done it' g -> kept it it'.

(** ** States of a join *)

(** The left rows from the current one on. *)
Definition current (lrow : option Row) (rest : list Row) : list Row :=
  match lrow with
  | Some a => a :: rest
  | None => []
  end.

(** A TableIterator over [t], opened, with the rows [rest] still to come. *)
Definition scans (t : Table) (lit : Iterator) (rest : list Row) : Prop :=
  exists i, i <= length (rows t) /\
            lit = TableIterator t i (length (rows t)) /\ rest = skipn i (rows t).

(** Iterations of the loop of NestedLoopsJoin::next that suffice when the left
    child has the rows [L], [rest] of them still to come, and the right child
    has the rows [R] still to come. *)
Definition need (L rest R : list Row) : nat :=
  S (length rest) + length R * S (length L) + 1.

(** ** The rows a stream yields, with the rows reclaimed on the way *)

Section YieldingLogged.

Variable step : Iterator -> outcome (option Row * Iterator).

(** [YieldsLog step it l it' g]: as [Yields], and [g] are the rows handed to
    [Row::reclaim] by all the calls together, in order. *)
Inductive YieldsLog : Iterator -> list Row -> Iterator -> list Row -> Prop :=
| YieldsLog_end it it' g :
    step it = Done (None, it') g -> YieldsLog it [] it' g
| YieldsLog_row it r it1 g1 l it' g2 :
    step it = Done (Some r, it1) g1 -> YieldsLog it1 l it' g2 ->
    YieldsLog it (r :: l) it' (g1 ++ g2).

End YieldingLogged.

(** ** What Project returns for one row *)

(** The selected columns of [row], in the order of the selector. *)
Definition Project_row (cols : list nat) (row : Row) : Row :=
  map (fun c => nth c row "") cols.

(** [row] has a column at every selected position. *)
Definition has_columns (cols : list nat) (row : Row) : bool :=
  forallb (fun c => c <? length row) cols.

(** ** Operator trees *)

(** The height of an operator tree: a call on the root reaches calls on
    objects at most this deep. *)
Fixpoint height (it : Iterator) : nat :=
  match it with
  | TableIterator _ _ _ => 1
  | IndexScan _ _ _ _ _ => 1
  | Select c _ => S (height c)
  | Project c _ => S (height c)
  | NestedLoopsJoin l r _ _ _ => S (Nat.max (height l) (height r))
  | Sort c _ _ _ => S (height c)
  | Unique c _ => S (height c)
  end.

(** The trees whose stream [close] ends: a Sort keeps its rows and its cursor
    through [close], and an IndexScan over a non-empty index must have had
    its [_end] set by [open]; a join ends with its right child. *)
Fixpoint ends_at_close (it : Iterator) : bool :=
  match it with
  | TableIterator _ _ _ => true
  | IndexScan index _ _ _ e =>
      Index_empty index ||
      match e with Some n => n =? length (entries index) | None => false end
  | Select c _ => ends_at_close c
  | Project c _ => ends_at_close c
  | NestedLoopsJoin _ r _ _ _ => ends_at_close r
  | Sort _ _ _ _ => false
  | Unique c _ => ends_at_close c
  end.

(** ** The shape of what Unique returns *)

(** No row of [out] equals the row returned just before it. *)
Definition no_adjacent_equal (out : list Row) : Prop :=
  forall i a b, nth_error out i = Some a -> nth_error out (S i) = Some b -> a <> b.

(** Every row of [out] has the size of the row before it and differs from
    it, [p] being the row before the first. *)
Fixpoint chain (p : Row) (out : list Row) : Prop :=
  match out with
  | [] => True
  | x :: out' => length x = length p /\ x <> p /\ chain x out'
  end.

(** ** Order of rows *)

(** [Subsequence s l]: [s] is [l] with some elements left out. *)
Inductive Subsequence {A : Type} : list A -> list A -> Prop :=
| Subsequence_nil : Subsequence [] []
| Subsequence_skip x s l : Subsequence s l -> Subsequence s (x :: l)
| Subsequence_keep x s l : Subsequence s l -> Subsequence (x :: s) (x :: l).

(** ** The pairs of rows a join joins *)

(** As [NestedLoopsJoin_rows], with the left and the right row of each row
    returned in place of their join. *)
Fixpoint NestedLoopsJoin_pairs (lc rc : nat) (L cur R : list Row) : list (Row * Row) :=
  match R with
  | [] => []
  | r :: R' =>
      match cur with
      | [] => []
      | _ :: _ =>
          match find_from lc rc r cur with
          | Some (l :: rest) => (l, r) :: NestedLoopsJoin_pairs lc rc L (l :: rest) R'
          | _ => NestedLoopsJoin_pairs lc rc L L R'
          end
      end
  end.

(** ** std::sort as libstdc++ has it *)

(** [std::sort] of libstdc++ (bits/stl_algo.h): [__introsort_loop] and then
    [__final_insertion_sort], in place on the array.  The partitioning steps
    are written on positions of the array ([elem], [store]); the insertion
    steps on the part of the array left of the element being inserted, held
    from right to left as the scan meets it.  The scans of the library are
    unguarded: a strict weak order stops them inside the array, and here they
    stop at the ends of the array at the latest.  The heap sort
    ([__partial_sort]) the library falls back on when [__depth_limit] is
    used up is not embedded: the result is [None] then. *)
Section Libstdcxx.

Variable comp : Row -> Row -> bool.

Definition elem (a : list Row) (i : nat) : Row := nth i a [].

Fixpoint store (a : list Row) (i : nat) (v : Row) : list Row :=
  match a, i with
  | [], _ => []
  | _ :: a', 0 => v :: a'
  | x :: a', S i' => x :: store a' i' v
  end.

(** [std::iter_swap(a + i, a + j)]; positions outside the array are never
    swapped by the library, and are left alone here. *)
Definition iter_swap (a : list Row) (i j : nat) : list Row :=
  if (i <? length a) && (j <? length a)
  then store (store a i (elem a j)) j (elem a i)
  else a.

Definition move_median_to_first (arr : list Row) (result a b c : nat) : list Row :=
  if comp (elem arr a) (elem arr b) then
    if comp (elem arr b) (elem arr c) then iter_swap arr result b
    else if comp (elem arr a) (elem arr c) then iter_swap arr result c
    else iter_swap arr result a
  else if comp (elem arr a) (elem arr c) then iter_swap arr result a
  else if comp (elem arr b) (elem arr c) then iter_swap arr result c
  else iter_swap arr result b.

(** [while (__comp(__first, __pivot)) ++__first;] with at most [k] steps. *)
Fixpoint partition_scan_up (k : nat) (a : list Row) (first pivot : nat) : nat :=
  match k with
  | 0 => first
  | S k' =>
      if comp (elem a first) (elem a pivot)
      then partition_scan_up k' a (S first) pivot
      else first
  end.

(** [while (__comp(__pivot, __last)) --__last;] *)
Fixpoint partition_scan_down (a : list Row) (last pivot : nat) : nat :=
  match last with
  | 0 => 0
  | S last' =>
      if comp (elem a pivot) (elem a last)
      then partition_scan_down a last' pivot
      else last
  end.

(** [__unguarded_partition], [while (true)]: [last] goes down in every
    iteration, and [k] bounds the iterations. *)
Fixpoint unguarded_partition (k : nat) (a : list Row) (first last pivot : nat)
    : list Row * nat :=
  match k with
  | 0 => (a, first)
  | S k' =>
      let first := partition_scan_up (length a - first) a first pivot in
      let last := partition_scan_down a (last - 1) pivot in
      if negb (first <? last) then (a, first)
      else unguarded_partition k' (iter_swap a first last) (S first) last pivot
  end.

Definition unguarded_partition_pivot (a : list Row) (first last : nat)
    : list Row * nat :=
  let mid := first + (last - first) / 2 in
  let a := move_median_to_first a first (first + 1) mid (last - 1) in
  unguarded_partition (S last) a (first + 1) last first.

Definition S_threshold : nat := 16.

(** [__introsort_loop]: the loop goes on with [first, cut) and the
    [__depth_limit] it has decremented. *)
Fixpoint introsort_loop (depth_limit : nat) (a : list Row) (first last : nat)
    : option (list Row) :=
  if S_threshold <? last - first then
    match depth_limit with
    | 0 => None
    | S depth_limit' =>
        let '(a, cut) := unguarded_partition_pivot a first last in
        match introsort_loop depth_limit' a cut last with
        | Some a => introsort_loop depth_limit' a first cut
        | None => None
        end
    end
  else Some a.

(** [__unguarded_linear_insert]: [val] goes left past every element it is
    below; [before] are the elements left of it, from right to left. *)
Fixpoint unguarded_linear_insert (val : Row) (before : list Row) : list Row :=
  match before with
  | [] => [val]
  | next :: before' =>
      if comp val next then next :: unguarded_linear_insert val before'
      else val :: before
  end.

(** [__insertion_sort], the [for] loop: an element below the first one of
    the array is moved to the front. *)
Fixpoint insertion_sort_loop (before rest : list Row) : list Row :=
  match rest with
  | [] => before
  | val :: rest' =>
      insertion_sort_loop
        (if comp val (last before val) then before ++ [val]
         else unguarded_linear_insert val before)
        rest'
  end.

Definition insertion_sort (a : list Row) : list Row :=
  match a with
  | [] => []
  | x :: rest => insertion_sort_loop [x] rest
  end.

Fixpoint unguarded_insertion_sort (before rest : list Row) : list Row :=
  match rest with
  | [] => before
  | val :: rest' => unguarded_insertion_sort (unguarded_linear_insert val before) rest'
  end.

Definition final_insertion_sort (a : list Row) : list Row :=
  if S_threshold <? length a
  then rev (unguarded_insertion_sort (insertion_sort (firstn S_threshold a))
              (skipn S_threshold a))
  else rev (insertion_sort a).

(** [std::__sort]: nothing for an empty range; the depth limit is
    [2 * __lg(n)]. *)
Definition libstdcxx_sort (a : list Row) : option (list Row) :=
  match a with
  | [] => Some []
  | _ :: _ =>
      match introsort_loop (Nat.log2 (length a) * 2) a 0 (length a) with
      | Some a' => Some (final_insertion_sort a')
      | None => None
      end
  end.

(** [std::sort(begin, end, comp)] on the rows [a]; where the embedding of
    the library ends (the heap sort), the rows are sorted by insertion. *)
Definition libstdcxx_std_sort (a : list Row) : list Row :=
  match libstdcxx_sort a with
  | Some out => out
  | None => sort_ties_kept comp a
  end.

(** The part of the array left of a position, from right to left, is in
    order when no element is below one that comes after it in the list. *)
Definition in_order_leftwards (before : list Row) : Prop :=
  StronglySorted (fun x y => comp x y = false) before.

End Libstdcxx.

(** ** Reasoning about calls *)

Lemma bind_Done (A B : Type) (m : outcome A) (k : A -> outcome B) (b : B) (g : list Row) :
  bind m k = Done b g ->
  exists a g1 g2, m = Done a g1 /\ k a = Done b g2 /\ g = g1 ++ g2.
Proof.
  unfold bind. destruct m as [a g1 | |]; try discriminate.
  destruct (k a) as [b' g2 | |] eqn:Hk; try discriminate.
  intros H. injection H as <- <-. exists a, g1, g2. auto.
Qed.

Lemma bind_step (A B : Type) (m : outcome A) (k : A -> outcome B) (a : A) (g : list Row) :
  m = Done a g ->
  bind m k = match k a with
             | Done b g' => Done b (g ++ g')
             | Fault => Fault
             | OutOfFuel => OutOfFuel
             end.
Proof. intros ->. reflexivity. Qed.

(** ** Draining a stream *)

Section Streams.

Variable step : Iterator -> outcome (option Row * Iterator).

Lemma drain_loop_Yields (k : nat) :
  forall it l it' g,
    drain_loop step k it = Done (l, it') g -> Yields step it l it' /\ length l < k.
Proof.
  induction k as [|k IH]; intros it l it' g H; simpl in H; [discriminate|].
  apply bind_Done in H as ([[r|] it1] & g1 & g2 & Hstep & H & _).
  - apply bind_Done in H as ([more it2] & g3 & g4 & Hrest & H & _).
    injection H as <- <- _.
    apply IH in Hrest. destruct Hrest as [HY Hlen]. split.
    + eapply Yields_row; eauto.
    + simpl. lia.
  - injection H as <- <- _. split.
    + eapply Yields_end; eauto.
    + simpl. lia.
Qed.

Lemma Yields_drain_loop :
  forall it l it', Yields step it l it' ->
  forall k, length l < k -> exists g, drain_loop step k it = Done (l, it') g.
Proof.
  induction 1 as [it it' g H | it r it1 g l it' H HY IH]; intros k Hk.
  - destruct k as [|k]; [simpl in Hk; lia|].
    simpl. rewrite H. simpl. eauto.
  - destruct k as [|k]; [simpl in Hk; lia|].
    simpl in Hk. destruct (IH k) as [g' Hd]; [lia|].
    simpl. rewrite H. simpl. rewrite Hd. simpl. eauto.
Qed.

End Streams.

(** An operator that pulls one or more rows of its child for each row it
    returns.  [W c s] is the operator over the child [c] with its own fields
    [s]; [F s l] are the rows it returns when the child still yields [l], and
    [E s l] its fields at the end. *)
Section Consumer.

Variable S : Type.
Variables step T : Iterator -> outcome (option Row * Iterator).
Variable W : Iterator -> S -> Iterator.
Variable F : S -> list Row -> list Row.
Variable E : S -> list Row -> S.
Variable bound : nat.

Hypothesis call :
  forall l c c', Yields step c l c' -> length l < bound ->
  forall s, exists o c2 s2 g,
    T (W c s) = Done (o, W c2 s2) g /\
    match o with
    | None => F s l = [] /\ c2 = c' /\ s2 = E s l
    | Some x =>
        exists l2, F s l = x :: F s2 l2 /\ E s l = E s2 l2 /\
                   Yields step c2 l2 c' /\ length l2 < length l
    end.

Lemma consumer_Yields :
  forall n l c c' s,
    length l < n -> n <= bound -> Yields step c l c' ->
    Yields T (W c s) (F s l) (W c' (E s l)).
Proof.
  induction n as [|n IH]; intros l c c' s Hn Hb HY; [lia|].
  destruct (call HY ltac:(lia) s) as (o & c2 & s2 & g & HT & Ho).
  destruct o as [x|].
  - destruct Ho as (l2 & HF & HE & HY2 & Hl2).
    rewrite HF, HE. eapply Yields_row; [exact HT|].
    apply IH; [lia | lia | exact HY2].
  - destruct Ho as (HF & -> & ->). rewrite HF.
    eapply Yields_end. exact HT.
Qed.

End Consumer.

(** ** The insertion sorts meet the contract *)

Section InsertionSortProofs.

Variable A : Type.
Variable comp : A -> A -> bool.
Hypothesis comp_order : strict_weak_order comp.

Lemma insert_before_ties_permutation (x : A) (l : list A) :
  Permutation (x :: l) (insert_before_ties comp x l).
Proof.
  induction l as [|y l IH]; simpl; [reflexivity|].
  destruct (comp y x); [|reflexivity].
  rewrite perm_swap. apply perm_skip. exact IH.
Qed.

Lemma insert_behind_ties_permutation (x : A) (l : list A) :
  Permutation (x :: l) (insert_behind_ties comp x l).
Proof.
  induction l as [|y l IH]; simpl; [reflexivity|].
  destruct (comp x y); [reflexivity|].
  rewrite perm_swap. apply perm_skip. exact IH.
Qed.

Lemma sort_ties_kept_permutation (l : list A) : Permutation l (sort_ties_kept comp l).
Proof.
  induction l as [|x l IH]; simpl; [constructor|].
  rewrite <- insert_before_ties_permutation. apply perm_skip. exact IH.
Qed.

Lemma sort_ties_reversed_permutation (l : list A) :
  Permutation l (sort_ties_reversed comp l).
Proof.
  induction l as [|x l IH]; simpl; [constructor|].
  rewrite <- insert_behind_ties_permutation. apply perm_skip. exact IH.
Qed.

Lemma insert_before_ties_nondecreasing (x : A) (l : list A) :
  nondecreasing comp l -> nondecreasing comp (insert_before_ties comp x l).
Proof.
  destruct comp_order as [asym ntrans]. unfold nondecreasing.
  induction 1 as [|y l Hl IH Hy]; simpl.
  - repeat constructor.
  - destruct (comp y x) eqn:Hyx.
    + constructor; [exact IH|].
      eapply Permutation_Forall; [apply insert_before_ties_permutation|].
      constructor; [apply asym; exact Hyx | exact Hy].
    + constructor; [constructor; assumption|].
      constructor; [exact Hyx|].
      eapply Forall_impl; [|exact Hy]. simpl. intros z Hz. eapply ntrans; eauto.
Qed.

Lemma insert_behind_ties_nondecreasing (x : A) (l : list A) :
  nondecreasing comp l -> nondecreasing comp (insert_behind_ties comp x l).
Proof.
  destruct comp_order as [asym ntrans]. unfold nondecreasing.
  induction 1 as [|y l Hl IH Hy]; simpl.
  - repeat constructor.
  - destruct (comp x y) eqn:Hxy.
    + constructor; [constructor; assumption|].
      constructor; [apply asym; exact Hxy|].
      eapply Forall_impl; [|exact Hy]. simpl. intros z Hz.
      eapply ntrans; [exact Hz | apply asym; exact Hxy].
    + constructor; [exact IH|].
      eapply Permutation_Forall; [apply insert_behind_ties_permutation|].
      constructor; [exact Hxy | exact Hy].
Qed.

Lemma sort_ties_kept_nondecreasing (l : list A) : nondecreasing comp (sort_ties_kept comp l).
Proof.
  induction l as [|x l IH]; simpl; [constructor|].
  apply insert_before_ties_nondecreasing. exact IH.
Qed.

Lemma sort_ties_reversed_nondecreasing (l : list A) :
  nondecreasing comp (sort_ties_reversed comp l).
Proof.
  induction l as [|x l IH]; simpl; [constructor|].
  apply insert_behind_ties_nondecreasing. exact IH.
Qed.

End InsertionSortProofs.

Definition ties_kept_sort : StdSort := {|
  std_sort := @sort_ties_kept Row;
  std_sort_permutation := fun comp l _ => sort_ties_kept_permutation comp l;
  std_sort_nondecreasing := fun comp l H => sort_ties_kept_nondecreasing H l
|}.

Definition ties_reversed_sort : StdSort := {|
  std_sort := @sort_ties_reversed Row;
  std_sort_permutation := fun comp l _ => sort_ties_reversed_permutation comp l;
  std_sort_nondecreasing := fun comp l H => sort_ties_reversed_nondecreasing H l
|}.

(** ** TableIterator *)

Section TableIteratorProofs.

Context {sorting : StdSort}.

Lemma TableIterator_next (fuel : nat) (t : Table) (i : nat) :
  i <= length (rows t) ->
  next (S fuel) (TableIterator t i (length (rows t))) =
  match nth_error (rows t) i with
  | Some row => Done (Some row, TableIterator t (S i) (length (rows t))) []
  | None => Done (None, TableIterator t i (length (rows t))) []
  end.
Proof.
  intros Hi. simpl.
  destruct (i =? length (rows t)) eqn:He; simpl.
  - apply Nat.eqb_eq in He.
    assert (Hn : nth_error (rows t) i = None) by (apply nth_error_None; lia).
    rewrite Hn. reflexivity.
  - apply Nat.eqb_neq in He.
    destruct (nth_error (rows t) i) eqn:Hn; [reflexivity|].
    apply nth_error_None in Hn. lia.
Qed.

Lemma TableIterator_Yields (fuel : nat) (t : Table) :
  forall n i, n = length (rows t) - i -> i <= length (rows t) ->
  Yields (next (S fuel)) (TableIterator t i (length (rows t)))
    (skipn i (rows t)) (TableIterator t (length (rows t)) (length (rows t))).
Proof.
  induction n as [|n IH]; intros i Hn Hi.
  - assert (i = length (rows t)) by lia. subst i.
    rewrite skipn_all. eapply Yields_end.
    rewrite TableIterator_next by lia.
    assert (Hnone : nth_error (rows t) (length (rows t)) = None)
      by (apply nth_error_None; lia).
    rewrite Hnone. reflexivity.
  - destruct (nth_error (rows t) i) as [row|] eqn:Hrow.
    + assert (Hs : skipn i (rows t) = row :: skipn (S i) (rows t)).
      { clear - Hrow. revert i Hrow. induction (rows t) as [|x l IHl]; intros [|i] H;
          simpl in *; try discriminate.
        - injection H as ->. reflexivity.
        - apply IHl. exact H. }
      rewrite Hs. eapply Yields_row.
      * rewrite TableIterator_next by lia. rewrite Hrow. reflexivity.
      * apply IH; lia.
    + apply nth_error_None in Hrow. lia.
Qed.

Lemma TableIterator_open_Yields (fuel : nat) (t : Table) (i e : nat) :
  open (S fuel) (close (TableIterator t i e)) =
    Done (TableIterator t 0 (length (rows t))) [] /\
  Yields (next (S fuel)) (TableIterator t 0 (length (rows t)))
    (rows t) (TableIterator t (length (rows t)) (length (rows t))).
Proof.
  split; [reflexivity|].
  apply (@TableIterator_Yields fuel t (length (rows t)) 0); lia.
Qed.

End TableIteratorProofs.

(** ** Select *)

Section SelectProofs.

Context {sorting : StdSort}.
Variable p : Row -> bool.
Variable step : Iterator -> outcome (option Row * Iterator).

Lemma Select_next_loop_spec :
  forall l c c', Yields step c l c' ->
  forall k r, S (length l) < k ->
  exists o c2 g,
    Select_next_loop step p k (Some r) c = Done (o, c2) g /\
    match o with
    | None => filter p (r :: l) = [] /\ c2 = c'
    | Some x =>
        exists l2, filter p (r :: l) = x :: filter p l2 /\
                   Yields step c2 l2 c' /\ length l2 <= length l
    end.
Proof.
  induction 1 as [c c' g H | c r' c1 g l c' H HY IH]; intros k r Hk.
  - destruct k as [|[|k]]; try (simpl in Hk; lia).
    simpl. destruct (p r) eqn:Hp.
    + exists (Some r), c, []. split; [reflexivity|].
      exists []. simpl. repeat split; auto. eapply Yields_end; eauto.
    + rewrite H. simpl. exists None, c', (g ++ []). auto.
  - destruct k as [|k]; [lia|]. simpl in Hk.
    cbn [Select_next_loop]. destruct (p r) eqn:Hp.
    + exists (Some r), c, []. split; [reflexivity|].
      exists (r' :: l). simpl. rewrite Hp. repeat split; auto.
      eapply Yields_row; eauto.
    + rewrite (bind_step _ H).
      destruct (IH k r' ltac:(lia)) as (o & c2 & g2 & Hloop & Ho).
      rewrite Hloop. exists o, c2, (g ++ g2). split; [reflexivity|].
      simpl. rewrite Hp. destruct o as [x|].
      * destruct Ho as (l2 & Hf & HY2 & Hl). exists l2. simpl in Hf.
        repeat split; auto.
      * exact Ho.
Qed.

End SelectProofs.

Section SelectDrain.

Context {sorting : StdSort}.

Lemma Select_Yields (fuel : nat) (p : Row -> bool) :
  forall l c c', Yields (next fuel) c l c' -> length l < fuel ->
  Yields (next (S fuel)) (Select c p) (filter p l) (Select c' p).
Proof.
  intros l c c' HY Hlen.
  apply (@consumer_Yields unit (next fuel) (next (S fuel))
           (fun c _ => Select c p) (fun _ l => filter p l) (fun _ _ => tt) fuel)
    with (n := S (length l)) (s := tt); try lia; try assumption.
  clear. intros l c c' HY Hlen [].
  cbn [next]. inversion HY as [c0 c0' g H | c0 r c1 g l' c0' H HY']; subst.
  - rewrite (bind_step _ H). destruct fuel as [|fuel]; [simpl in Hlen; lia|].
    simpl. exists None, c', tt, (g ++ [] ++ []). auto.
  - rewrite (bind_step _ H).
    destruct (@Select_next_loop_spec p (next fuel) l' c1 c' HY' fuel r)
      as (o & c2 & g2 & Hloop & Ho); [simpl in Hlen; lia|].
    rewrite Hloop. simpl.
    exists o, c2, tt, (g ++ g2 ++ []). split; [reflexivity|].
    destruct o as [x|].
    + destruct Ho as (l2 & Hf & HY2 & Hl). exists l2.
      repeat split; auto. simpl. lia.
    + destruct Ho as [Hf ->]. auto.
Qed.

End SelectDrain.

(** C7. For every child row sequence [l] (the child [input], once opened,
    drains to [l]) and every predicate, Select opened and drained returns
    exactly the rows of [l] that satisfy the predicate, in the child's order
    and unchanged; Select with the predicate "column 0 > 5" over the rows
    (1), (6), (10) returns (6), (10) and then no row. *)
Theorem Select_returns_the_accepted_rows {sorting : StdSort}
    (fuel : nat) (input opened input' : Iterator) (predicate : Row -> bool)
    (l g0 g : list Row)
    (Hopen : open fuel input = Done opened g0)
    (Hdrain : drain fuel opened = Done (l, input') g) :
  (exists g',
     (it <- open (S fuel) (Select input predicate) ;; drain (S fuel) it) =
     Done (filter predicate l, Select input' predicate) g') /\
  (it <- open 5 (new_Select (new_TableIterator (table_of 1 [["1"]; ["6"]; ["10"]]))
                   column0_above_5) ;;
   '(returned, it) <- drain 5 it ;;
   '(after, _) <- next 5 it ;;
   ret (returned, after)) = Done ([["6"]; ["10"]], None) [].
Proof.
  split; [|reflexivity].
  apply drain_loop_Yields in Hdrain. destruct Hdrain as [HY Hlen].
  pose proof (Select_Yields predicate HY Hlen) as HS.
  destruct (Yields_drain_loop HS (k := S fuel)) as [g' Hd].
  { pose proof (filter_length_le predicate l). lia. }
  cbn [open]. rewrite Hopen. simpl.
  unfold drain. rewrite Hd. eexists. reflexivity.
Qed.

Lemma Select_returns_the_accepted_rows_witness :
  open (sorting := ties_kept_sort) 4 (new_TableIterator (table_of 1 [["7"]; ["2"]; ["9"]])) =
    Done (TableIterator (table_of 1 [["7"]; ["2"]; ["9"]]) 0 3) [] /\
  drain (sorting := ties_kept_sort) 4 (TableIterator (table_of 1 [["7"]; ["2"]; ["9"]]) 0 3) =
    Done ([["7"]; ["2"]; ["9"]], TableIterator (table_of 1 [["7"]; ["2"]; ["9"]]) 3 3) [] /\
  exists g',
    (it <- open (sorting := ties_kept_sort) 5 (Select (new_TableIterator (table_of 1 [["7"]; ["2"]; ["9"]]))
                     column0_above_5) ;;
     drain (sorting := ties_kept_sort) 5 it) =
    Done ([["7"]; ["9"]],
          Select (TableIterator (table_of 1 [["7"]; ["2"]; ["9"]]) 3 3) column0_above_5) g'.
Proof.
  split; [reflexivity|]. split; [reflexivity|].
  exact (proj1 (@Select_returns_the_accepted_rows ties_kept_sort 4
                  (new_TableIterator (table_of 1 [["7"]; ["2"]; ["9"]]))
                  _ _ column0_above_5 _ _ _ eq_refl eq_refl)).
Defined.

(** ** Column values *)

Lemma string_compare_refl (a : string) : string_compare a a = Eq.
Proof.
  unfold string_compare.
  destruct (String_as_OT.compare_spec a a) as [_ | H | H]; try reflexivity;
    exfalso; exact (StrictOrder_Irreflexive a H).
Qed.

Lemma string_compare_Eq (a b : string) : string_compare a b = Eq <-> a = b.
Proof.
  split.
  - unfold string_compare.
    destruct (String_as_OT.compare_spec a b) as [E | H | H]; try discriminate. auto.
  - intros ->. apply string_compare_refl.
Qed.

Lemma string_compare_Lt_Gt (a b : string) :
  string_compare a b = Lt <-> string_compare b a = Gt.
Proof.
  unfold string_compare.
  destruct (String_as_OT.compare_spec a b) as [E | H | H];
    destruct (String_as_OT.compare_spec b a) as [E' | H' | H'];
    unfold String_as_OT.eq in *; subst;
    split; intros; try discriminate; try reflexivity; exfalso;
    try (eapply StrictOrder_Irreflexive; eassumption);
    try (eapply StrictOrder_Irreflexive; eapply StrictOrder_Transitive; eassumption).
Qed.

Lemma string_compare_Lt_trans (a b c : string) :
  string_compare a b = Lt -> string_compare b c = Lt -> string_compare a c = Lt.
Proof.
  unfold string_compare. intros H1 H2.
  exact (@StrictOrder_Transitive _ _ String_as_OT.lt_strorder a b c H1 H2).
Qed.

Lemma row_eqb_eq (a b : Row) : row_eqb a b = true <-> a = b.
Proof.
  unfold row_eqb. destruct (list_eq_dec string_dec a b); split; auto; discriminate.
Qed.

(** ** Unique *)

Lemma row_eqb_cons (v w : string) (r l : Row) :
  row_eqb (v :: r) (w :: l) =
  match string_compare v w with Eq => row_eqb r l | _ => false end.
Proof.
  apply eq_true_iff_eq. rewrite row_eqb_eq.
  destruct (string_compare v w) eqn:Hc.
  - apply string_compare_Eq in Hc. subst w. rewrite row_eqb_eq.
    split; [intros E; injection E; auto | intros ->; reflexivity].
  - split; [|discriminate]. intros E. injection E as -> _.
    rewrite string_compare_refl in Hc. discriminate.
  - split; [|discriminate]. intros E. injection E as -> _.
    rewrite string_compare_refl in Hc. discriminate.
Qed.

Lemma Unique_compare_loop_spec :
  forall row last equal, length row = length last ->
  Unique_compare_loop row last equal = Done (equal && row_eqb row last) [].
Proof.
  induction row as [|v row IH]; intros [|w last] equal Hlen; simpl in Hlen;
    try discriminate.
  - simpl. rewrite andb_true_r. reflexivity.
  - simpl. rewrite row_eqb_cons.
    destruct (string_compare v w); rewrite IH by lia; simpl;
      try rewrite andb_false_r; reflexivity.
Qed.

Section UniqueProofs.

Variable step : Iterator -> outcome (option Row * Iterator).

Lemma Unique_next_loop_spec :
  forall l c c', Yields step c l c' ->
  forall k r last, S (length l) < k ->
  exists o c2 last2 g,
    Unique_next_loop step k (Some r) last c = Done (o, last2, c2) g /\
    match o with
    | None =>
        Unique_rows last (r :: l) = [] /\ c2 = c' /\ last2 = Unique_last last (r :: l)
    | Some x =>
        exists l2, Unique_rows last (r :: l) = x :: Unique_rows last2 l2 /\
                   Unique_last last (r :: l) = Unique_last last2 l2 /\
                   Yields step c2 l2 c' /\ length l2 <= length l
    end.
Proof.
  assert (Hhead : forall k r last c, 
    Unique_next_loop step (S k) (Some r) last c =
    match last with
    | None => Done (Some r, Some r, c) []
    | Some p =>
        if Unique_skips p r
        then '(row', c1) <- step c ;; Unique_next_loop step k row' last c1
        else Done (Some r, Some r, c) []
    end).
  { intros k r [p|] c; [|reflexivity]. cbn [Unique_next_loop]. unfold Unique_skips.
    destruct (length r =? length p) eqn:Hl; [|reflexivity].
    apply Nat.eqb_eq in Hl. rewrite (Unique_compare_loop_spec _ _ true Hl).
    simpl. destruct (row_eqb r p); simpl.
    - destruct (step c) as [[row' c1] g| |]; simpl; try reflexivity.
      destruct (Unique_next_loop step k row' (Some p) c1); reflexivity.
    - reflexivity. }
  induction 1 as [c c' g H | c r' c1 g l c' H HY IH]; intros k r last Hk.
  - destruct k as [|[|k]]; try (simpl in Hk; lia).
    rewrite Hhead. cbn [Unique_rows Unique_last]. destruct last as [p|].
    + destruct (Unique_skips p r).
      * rewrite H. simpl. exists None, c', (Some p), (g ++ []). auto.
      * exists (Some r), c, (Some r), []. split; [reflexivity|].
        exists []. repeat split; auto. eapply Yields_end; eauto.
    + exists (Some r), c, (Some r), []. split; [reflexivity|].
      exists []. repeat split; auto. eapply Yields_end; eauto.
  - destruct k as [|k]; [lia|]. simpl in Hk.
    rewrite Hhead.
    assert (Hemit : exists (o : option Row) (c2 : Iterator) (last2 : option Row) (g0 : list Row),
      Done (Some r, Some r, c) [] = Done (o, last2, c2) g0 /\
      match o with
      | None => False
      | Some x =>
          exists l2, r :: Unique_rows (Some r) (r' :: l) = x :: Unique_rows last2 l2 /\
            Unique_last (Some r) (r' :: l) = Unique_last last2 l2 /\
            Yields step c2 l2 c' /\ length l2 <= length (r' :: l)
      end).
    { exists (Some r), c, (Some r), []. split; [reflexivity|].
      exists (r' :: l). repeat split; auto. eapply Yields_row; eauto. }
    destruct last as [p|].
    + cbn [Unique_rows Unique_last]. fold (Unique_rows (Some p) (r' :: l)).
      fold (Unique_last (Some p) (r' :: l)).
      change (Unique_rows (Some p) (r :: r' :: l)) with
        (if Unique_skips p r then Unique_rows (Some p) (r' :: l)
         else r :: Unique_rows (Some r) (r' :: l)).
      change (Unique_last (Some p) (r :: r' :: l)) with
        (if Unique_skips p r then Unique_last (Some p) (r' :: l)
         else Unique_last (Some r) (r' :: l)).
      destruct (Unique_skips p r).
      * rewrite (bind_step _ H).
        destruct (IH k r' (Some p) ltac:(lia)) as (o & c2 & last2 & g2 & Hloop & Ho).
        rewrite Hloop. exists o, c2, last2, (g ++ g2). split; [reflexivity|].
        destruct o as [x|].
        -- destruct Ho as (l2 & Hf & HE & HY2 & Hl). exists l2.
           repeat split; auto; simpl; lia.
        -- exact Ho.
      * destruct Hemit as (o & c2 & last2 & g0 & He & Ho).
        exists o, c2, last2, g0. split; [exact He|].
        destruct o as [x|]; [|contradiction]. exact Ho.
    + destruct Hemit as (o & c2 & last2 & g0 & He & Ho).
      exists o, c2, last2, g0. split; [exact He|].
      destruct o as [x|]; [|contradiction]. exact Ho.
Qed.

End UniqueProofs.

Section UniqueDrain.

Context {sorting : StdSort}.

Lemma Unique_Yields (fuel : nat) :
  forall l c c' last, Yields (next fuel) c l c' -> length l < fuel ->
  Yields (next (S fuel)) (Unique c last) (Unique_rows last l)
    (Unique c' (Unique_last last l)).
Proof.
  intros l c c' last HY Hlen.
  apply (@consumer_Yields (option Row) (next fuel) (next (S fuel))
           Unique Unique_rows Unique_last fuel)
    with (n := S (length l)); try lia; try assumption.
  clear. intros l c c' HY Hlen last.
  cbn [next]. inversion HY as [c0 c0' g H | c0 r c1 g l' c0' H HY']; subst.
  - rewrite (bind_step _ H). destruct fuel as [|fuel]; [simpl in Hlen; lia|].
    simpl. exists None, c', last, (g ++ [] ++ []). auto.
  - rewrite (bind_step _ H).
    destruct (@Unique_next_loop_spec (next fuel) l' c1 c' HY' fuel r last)
      as (o & c2 & last2 & g2 & Hloop & Ho); [simpl in Hlen; lia|].
    rewrite Hloop. simpl.
    exists o, c2, last2, (g ++ g2 ++ []). split; [reflexivity|].
    destruct o as [x|].
    + destruct Ho as (l2 & Hf & HE & HY2 & Hl). exists l2.
      repeat split; auto. simpl. lia.
    + exact Ho.
Qed.

End UniqueDrain.

Lemma Unique_skips_iff (last row : Row) :
  Unique_skips last row = true <-> (length row <> length last \/ row = last).
Proof.
  unfold Unique_skips. rewrite orb_true_iff, negb_true_iff, Nat.eqb_neq, row_eqb_eq.
  reflexivity.
Qed.

Lemma Unique_rows_same_width :
  forall l last,
    (forall p row, last = Some p -> In row l -> length row = length p) ->
    same_width l ->
    Unique_rows last l = adjacent_distinct last l.
Proof.
  induction l as [|row l IH]; intros last Hlast Hsame; [reflexivity|].
  assert (Hsame' : same_width l).
  { intros a b Ha Hb. apply Hsame; right; assumption. }
  assert (Hrow : forall p r, Some row = Some p -> In r l -> length r = length p).
  { intros p r E Hr. injection E as <-. apply Hsame; [right; exact Hr | left; reflexivity]. }
  simpl. destruct last as [p|].
  - unfold Unique_skips.
    rewrite (Hlast p row eq_refl (or_introl eq_refl)), Nat.eqb_refl. simpl.
    destruct (row_eqb row p).
    + apply IH; [|exact Hsame']. intros q r E Hr. apply (Hlast q r E). right. exact Hr.
    + f_equal. apply IH; assumption.
  - f_equal. apply IH; assumption.
Qed.

Lemma Unique_rows_length (last : option Row) (l : list Row) :
  length (Unique_rows last l) <= length l.
Proof.
  revert last. induction l as [|r l IH]; intros last; simpl; [lia|].
  destruct last as [p|]; [destruct (Unique_skips p r)|]; simpl.
  - specialize (IH (Some p)). lia.
  - specialize (IH (Some r)). lia.
  - specialize (IH (Some r)). lia.
Qed.

(** ** RowCompare is a strict weak order *)

Lemma RowCompare_asymmetric (cols : list nat) (a b : Row) :
  RowCompare cols a b = true -> RowCompare cols b a = false.
Proof.
  induction cols as [|c cols IH]; simpl; [discriminate|].
  destruct (string_compare (key_column a c) (key_column b c)) eqn:Hab.
  - apply string_compare_Eq in Hab. rewrite Hab, string_compare_refl. exact IH.
  - apply string_compare_Lt_Gt in Hab. rewrite Hab. reflexivity.
  - discriminate.
Qed.

Lemma RowCompare_negatively_transitive (cols : list nat) (a b c : Row) :
  RowCompare cols a b = false -> RowCompare cols b c = false ->
  RowCompare cols a c = false.
Proof.
  induction cols as [|k cols IH]; simpl; [reflexivity|].
  destruct (string_compare (key_column a k) (key_column b k)) eqn:Hab;
    try discriminate;
    destruct (string_compare (key_column b k) (key_column c k)) eqn:Hbc;
    try discriminate.
  - apply string_compare_Eq in Hab, Hbc. rewrite Hab, Hbc, string_compare_refl. exact IH.
  - apply string_compare_Eq in Hab. rewrite Hab, Hbc. reflexivity.
  - apply string_compare_Eq in Hbc. rewrite <- Hbc, Hab. reflexivity.
  - intros _ _. apply string_compare_Lt_Gt in Hab, Hbc.
    pose proof (string_compare_Lt_trans _ _ _ Hbc Hab) as Hca.
    apply string_compare_Lt_Gt in Hca. rewrite Hca. reflexivity.
Qed.

Lemma RowCompare_strict_weak_order (cols : list nat) :
  strict_weak_order (RowCompare cols).
Proof.
  split.
  - apply RowCompare_asymmetric.
  - apply RowCompare_negatively_transitive.
Qed.

(** ** Sort *)

Section SortProofs.

Variable step : Iterator -> outcome (option Row * Iterator).

Lemma Sort_open_loop_spec :
  forall l c c', Yields step c l c' ->
  forall k r acc, S (length l) < k ->
  exists g, Sort_open_loop step k (Some r) acc c = Done (None, acc ++ r :: l, c') g.
Proof.
  induction 1 as [c c' g H | c r' c1 g l c' H HY IH]; intros k r acc Hk.
  - destruct k as [|[|k]]; try (simpl in Hk; lia).
    simpl. rewrite H. simpl. eauto.
  - destruct k as [|k]; [lia|]. simpl in Hk.
    cbn [Sort_open_loop]. rewrite (bind_step _ H).
    destruct (IH k r' (acc ++ [r]) ltac:(lia)) as [g2 Hloop].
    rewrite Hloop. rewrite <- app_assoc. simpl. eauto.
Qed.

End SortProofs.

Section SortDrain.

Context {sorting : StdSort}.

Lemma Sort_open (fuel : nat) (input opened input' : Iterator) (cols : list nat)
    (l g0 s : list Row) (i : option nat) :
  open fuel input = Done opened g0 ->
  Yields (next fuel) opened l input' -> length l < fuel ->
  exists g, open (S fuel) (Sort input cols s i) =
            Done (Sort input' cols (std_sort (RowCompare cols) l) (Some 0)) g.
Proof.
  intros Hopen HY Hlen. cbn [open]. rewrite (bind_step _ Hopen).
  inversion HY as [c0 c0' g H | c0 r c1 g l' c0' H HY']; subst.
  - rewrite (bind_step _ H). destruct fuel as [|fuel]; [simpl in Hlen; lia|].
    simpl. eauto.
  - rewrite (bind_step _ H).
    destruct (@Sort_open_loop_spec (next fuel) l' c1 input' HY' fuel r [])
      as [g2 Hloop]; [simpl in Hlen; lia|].
    rewrite Hloop. simpl. eauto.
Qed.

Lemma Sort_Yields (fuel : nat) (input : Iterator) (cols : list nat) (s : list Row) :
  forall n i, n = length s - i -> i <= length s ->
  Yields (next (S fuel)) (Sort input cols s (Some i)) (skipn i s)
    (Sort input cols s (Some (length s))).
Proof.
  induction n as [|n IH]; intros i Hn Hi.
  - assert (i = length s) by lia. subst i. rewrite skipn_all.
    eapply Yields_end. simpl. rewrite Nat.eqb_refl. reflexivity.
  - destruct (nth_error s i) as [row|] eqn:Hrow.
    + assert (Hs : skipn i s = row :: skipn (S i) s).
      { clear - Hrow. revert i Hrow. induction s as [|x l IHl]; intros [|i] H;
          simpl in *; try discriminate.
        - injection H as ->. reflexivity.
        - apply IHl. exact H. }
      rewrite Hs. eapply Yields_row.
      * simpl. assert (Hne : (i =? length s) = false) by (apply Nat.eqb_neq; lia).
        rewrite Hne, Hrow. reflexivity.
      * apply IH; lia.
    + apply nth_error_None in Hrow. lia.
Qed.

End SortDrain.

(** The rows (3), (1), (2) have one nondecreasing arrangement under column 0. *)
Lemma nondecreasing_three (comp : Row -> Row -> bool) (x y z : Row) :
  nondecreasing comp [x; y; z] ->
  comp y x = false /\ comp z x = false /\ comp z y = false.
Proof.
  unfold nondecreasing. intros H.
  inversion H as [|? ? H1 H2]; subst. inversion H2 as [|? ? H3 H4]; subst.
  inversion H4 as [|? ? H5 H6]; subst.
  inversion H1 as [|? ? H7 H8]; subst. inversion H8 as [|? ? H9 H10]; subst.
  auto.
Qed.

Lemma sorted_3_1_2 (out : list Row) :
  Permutation [["3"]; ["1"]; ["2"]] out ->
  nondecreasing (RowCompare [0]) out ->
  out = [["1"]; ["2"]; ["3"]].
Proof.
  intros HP Hs.
  pose proof (Permutation_length HP) as Hlen.
  destruct out as [|x [|y [|z [|? ?]]]]; try discriminate.
  assert (Hnd : NoDup [x; y; z]).
  { eapply Permutation_NoDup; [exact HP|].
    repeat constructor; simpl; intuition discriminate. }
  assert (Hx : In x [["3"]; ["1"]; ["2"]])
    by (eapply Permutation_in; [symmetry; exact HP | simpl; auto]).
  assert (Hy : In y [["3"]; ["1"]; ["2"]])
    by (eapply Permutation_in; [symmetry; exact HP | simpl; auto]).
  assert (Hz : In z [["3"]; ["1"]; ["2"]])
    by (eapply Permutation_in; [symmetry; exact HP | simpl; auto]).
  apply nondecreasing_three in Hs. destruct Hs as (Hyx & Hzx & Hzy).
  inversion Hnd as [|? ? Hn1 Hnd1]; subst. inversion Hnd1 as [|? ? Hn2 _]; subst.
  simpl in Hx, Hy, Hz, Hn1, Hn2.
  destruct Hx as [<-|[<-|[<-|[]]]]; destruct Hy as [<-|[<-|[<-|[]]]];
    destruct Hz as [<-|[<-|[<-|[]]]];
    try reflexivity; exfalso;
    try (apply Hn1; auto; fail); try (apply Hn2; auto; fail);
    try (vm_compute in Hyx; discriminate);
    try (vm_compute in Hzx; discriminate);
    try (vm_compute in Hzy; discriminate).
Qed.

(** C1, amended.  Sort::open drains its child to the end, and for every child
    row sequence [l] the rows that Sort::next then returns, up to the end of
    the stream, are a permutation of [l] in nondecreasing order under the
    RowCompare of the configured key columns, whatever routine meeting the
    contract of std::sort does the sorting; Sort by column 0 over (3), (1), (2)
    returns (1), (2), (3).  Nothing is said on the order of tied rows. *)
Theorem Sort_returns_a_nondecreasing_permutation {sorting : StdSort}
    (fuel : nat) (input opened input' : Iterator) (cols : list nat)
    (l g0 g : list Row)
    (Hopen : open fuel input = Done opened g0)
    (Hdrain : drain fuel opened = Done (l, input') g) :
  (exists sorted g1 g2,
     open (S fuel) (new_Sort input cols) =
       Done (Sort input' cols sorted (Some 0)) g1 /\
     drain (S fuel) (Sort input' cols sorted (Some 0)) =
       Done (sorted, Sort input' cols sorted (Some (length sorted))) g2 /\
     Permutation l sorted /\
     nondecreasing (RowCompare cols) sorted) /\
  (it <- open 5 (new_Sort (new_TableIterator (table_of 1 [["3"]; ["1"]; ["2"]])) [0]) ;;
   '(returned, _) <- drain 5 it ;;
   ret returned) = Done [["1"]; ["2"]; ["3"]] [].
Proof.
  split.
  - apply drain_loop_Yields in Hdrain. destruct Hdrain as [HY Hlen].
    destruct (@Sort_open _ fuel input opened input' cols l g0 [] None Hopen HY Hlen)
      as [g1 Ho].
    pose proof (std_sort_permutation l (RowCompare_strict_weak_order cols)) as HP.
    pose proof (std_sort_nondecreasing l (RowCompare_strict_weak_order cols)) as HS.
    set (sorted := std_sort (RowCompare cols) l) in *.
    pose proof (@Sort_Yields _ fuel input' cols sorted (length sorted) 0
                  ltac:(lia) ltac:(lia)) as HYs.
    destruct (Yields_drain_loop HYs (k := S fuel)) as [g2 Hd].
    { simpl. rewrite <- (Permutation_length HP). lia. }
    exists sorted, g1, g2. repeat split; assumption.
  - assert (Hs : std_sort (RowCompare [0]) [["3"]; ["1"]; ["2"]] = [["1"]; ["2"]; ["3"]]).
    { apply sorted_3_1_2.
      - apply std_sort_permutation, RowCompare_strict_weak_order.
      - apply std_sort_nondecreasing, RowCompare_strict_weak_order. }
    assert (Ho : open 5 (new_Sort (new_TableIterator (table_of 1 [["3"]; ["1"]; ["2"]])) [0])
                 = Done (Sort (TableIterator (table_of 1 [["3"]; ["1"]; ["2"]]) 3 3) [0]
                           (std_sort (RowCompare [0]) [["3"]; ["1"]; ["2"]]) (Some 0)) [])
      by reflexivity.
    rewrite Ho, Hs. reflexivity.
Qed.


(** ** std::sort of libstdc++ meets the contract *)

Section LibstdcxxProofs.

Variable comp : Row -> Row -> bool.

Lemma length_store (a : list Row) :
  forall i v, length (store a i v) = length a.
Proof.
  induction a as [|x a IH]; intros [|i] v; simpl; auto.
Qed.

Lemma elem_store_same (a : list Row) :
  forall i v, i < length a -> elem (store a i v) i = v.
Proof.
  induction a as [|x a IH]; intros [|i] v Hi; simpl in *; try lia; auto.
  apply IH. lia.
Qed.

Lemma elem_store_other (a : list Row) :
  forall i j v, i <> j -> elem (store a i v) j = elem a j.
Proof.
  induction a as [|x a IH]; intros [|i] [|j] v Hij; simpl; try reflexivity; try lia.
  apply IH. lia.
Qed.

Lemma store_permutation (a : list Row) :
  forall i v, i < length a -> Permutation (elem a i :: store a i v) (v :: a).
Proof.
  induction a as [|x a IH]; intros [|i] v Hi; simpl in *; try lia.
  - apply perm_swap.
  - unfold elem in IH.
    apply Permutation_trans with (x :: nth i a [] :: store a i v); [apply perm_swap|].
    apply Permutation_trans with (x :: v :: a); [|apply perm_swap].
    apply perm_skip. apply IH. lia.
Qed.

Lemma iter_swap_permutation (a : list Row) (i j : nat) :
  Permutation a (iter_swap a i j).
Proof.
  unfold iter_swap.
  destruct ((i <? length a) && (j <? length a)) eqn:Hin; [|apply Permutation_refl].
  apply andb_prop in Hin. destruct Hin as [Hi Hj].
  apply Nat.ltb_lt in Hi. apply Nat.ltb_lt in Hj.
  apply Permutation_sym. apply (@Permutation_cons_inv _ _ _ (elem a j)).
  apply Permutation_trans with (elem a i :: store a i (elem a j)).
  - assert (E : elem (store a i (elem a j)) j = elem a j).
    { destruct (Nat.eq_dec i j) as [->|Hne].
      - apply elem_store_same. exact Hj.
      - apply elem_store_other. exact Hne. }
    rewrite <- E at 1. apply store_permutation. rewrite length_store. exact Hj.
  - apply store_permutation. exact Hi.
Qed.

Lemma move_median_to_first_permutation (arr : list Row) (result a b c : nat) :
  Permutation arr (move_median_to_first comp arr result a b c).
Proof.
  unfold move_median_to_first.
  repeat match goal with |- context [if ?t then _ else _] => destruct t end;
    apply iter_swap_permutation.
Qed.

Lemma unguarded_partition_permutation :
  forall k a first last pivot,
    Permutation a (fst (unguarded_partition comp k a first last pivot)).
Proof.
  induction k as [|k IH]; intros a first last pivot; [apply Permutation_refl|].
  cbn [unguarded_partition]. cbv zeta.
  destruct (negb (_ <? _)); [apply Permutation_refl|].
  eapply Permutation_trans; [apply iter_swap_permutation | apply IH].
Qed.

Lemma unguarded_partition_pivot_permutation (a : list Row) (first last : nat) :
  Permutation a (fst (unguarded_partition_pivot comp a first last)).
Proof.
  unfold unguarded_partition_pivot. cbv zeta.
  eapply Permutation_trans;
    [apply move_median_to_first_permutation | apply unguarded_partition_permutation].
Qed.

Lemma introsort_loop_permutation :
  forall depth_limit a first last a',
    introsort_loop comp depth_limit a first last = Some a' -> Permutation a a'.
Proof.
  induction depth_limit as [|d IH]; intros a first last a' H; cbn [introsort_loop] in H;
    destruct (S_threshold <? last - first);
    try discriminate; try (injection H as <-; apply Permutation_refl).
  pose proof (unguarded_partition_pivot_permutation a first last) as Hp.
  destruct (unguarded_partition_pivot comp a first last) as [a1 cut]. cbn [fst] in Hp.
  destruct (introsort_loop comp d a1 cut last) as [a2|] eqn:H2; [|discriminate].
  eapply Permutation_trans; [exact Hp|].
  eapply Permutation_trans; [exact (IH _ _ _ _ H2) | exact (IH _ _ _ _ H)].
Qed.

Lemma unguarded_linear_insert_permutation (val : Row) (before : list Row) :
  Permutation (val :: before) (unguarded_linear_insert comp val before).
Proof.
  induction before as [|next before IH]; cbn [unguarded_linear_insert];
    [apply Permutation_refl|].
  destruct (comp val next); [|apply Permutation_refl].
  eapply Permutation_trans; [apply perm_swap|]. apply perm_skip. exact IH.
Qed.

Lemma insertion_sort_loop_permutation (rest : list Row) :
  forall before, Permutation (rev before ++ rest) (rev (insertion_sort_loop comp before rest)).
Proof.
  induction rest as [|val rest IH]; intros before; cbn [insertion_sort_loop].
  - rewrite app_nil_r. apply Permutation_refl.
  - eapply Permutation_trans; [|apply IH].
    apply Permutation_trans with ((rev before ++ [val]) ++ rest);
      [rewrite <- app_assoc; apply Permutation_refl|].
    apply Permutation_app_tail.
    destruct (comp val (last before val)).
    + rewrite rev_app_distr. cbn [rev app].
      apply Permutation_sym. apply Permutation_cons_append.
    + eapply Permutation_trans; [|apply Permutation_rev].
      eapply Permutation_trans; [|apply unguarded_linear_insert_permutation].
      eapply Permutation_trans; [apply Permutation_sym, Permutation_cons_append|].
      apply perm_skip. apply Permutation_sym. apply Permutation_rev.
Qed.

Lemma insertion_sort_permutation (a : list Row) :
  Permutation a (rev (insertion_sort comp a)).
Proof.
  destruct a as [|x rest]; [apply Permutation_refl|].
  exact (insertion_sort_loop_permutation rest [x]).
Qed.

Lemma unguarded_insertion_sort_permutation (rest : list Row) :
  forall before,
    Permutation (rev before ++ rest) (rev (unguarded_insertion_sort comp before rest)).
Proof.
  induction rest as [|val rest IH]; intros before; cbn [unguarded_insertion_sort].
  - rewrite app_nil_r. apply Permutation_refl.
  - eapply Permutation_trans; [|apply IH].
    apply Permutation_trans with ((rev before ++ [val]) ++ rest);
      [rewrite <- app_assoc; apply Permutation_refl|].
    apply Permutation_app_tail.
    eapply Permutation_trans; [|apply Permutation_rev].
    eapply Permutation_trans; [|apply unguarded_linear_insert_permutation].
    eapply Permutation_trans; [apply Permutation_sym, Permutation_cons_append|].
    apply perm_skip. apply Permutation_sym. apply Permutation_rev.
Qed.

Lemma final_insertion_sort_permutation (a : list Row) :
  Permutation a (final_insertion_sort comp a).
Proof.
  unfold final_insertion_sort. destruct (S_threshold <? length a).
  - eapply Permutation_trans; [|apply unguarded_insertion_sort_permutation].
    rewrite <- (firstn_skipn S_threshold a) at 1.
    apply Permutation_app_tail. apply insertion_sort_permutation.
  - apply insertion_sort_permutation.
Qed.

Lemma libstdcxx_sort_permutation (l out : list Row) :
  libstdcxx_sort comp l = Some out -> Permutation l out.
Proof.
  unfold libstdcxx_sort. destruct l as [|x l].
  - intros H. injection H as <-. apply Permutation_refl.
  - destruct (introsort_loop comp _ _ _ _) as [a'|] eqn:Hi; [|discriminate].
    intros H. injection H as <-.
    eapply Permutation_trans;
      [exact (introsort_loop_permutation _ _ _ _ Hi) | apply final_insertion_sort_permutation].
Qed.

Hypothesis comp_order : strict_weak_order comp.

Lemma comp_irreflexive (x : Row) : comp x x = false.
Proof.
  destruct comp_order as [Hasym _].
  destruct (comp x x) eqn:H; [|reflexivity]. rewrite (Hasym _ _ H) in H. discriminate.
Qed.

Lemma unguarded_linear_insert_in_order (val : Row) (before : list Row) :
  in_order_leftwards comp before ->
  in_order_leftwards comp (unguarded_linear_insert comp val before).
Proof.
  destruct comp_order as [Hasym Htrans].
  induction before as [|next before IH]; intros Hs; cbn [unguarded_linear_insert].
  - constructor; constructor.
  - apply StronglySorted_inv in Hs. destruct Hs as [Hs Hnext].
    destruct (comp val next) eqn:Hc.
    + constructor; [apply IH; exact Hs|].
      eapply Permutation_Forall; [apply unguarded_linear_insert_permutation|].
      constructor; [apply Hasym; exact Hc | exact Hnext].
    + constructor; [constructor; assumption|].
      constructor; [exact Hc|].
      rewrite Forall_forall in Hnext. rewrite Forall_forall. intros y Hy.
      exact (Htrans _ _ _ Hc (Hnext y Hy)).
Qed.

Lemma in_order_leftwards_last (before : list Row) (d : Row) :
  in_order_leftwards comp before ->
  forall x, In x before -> comp x (last before d) = false.
Proof.
  induction before as [|y l IH]; intros Hs x Hx; [contradiction|].
  apply StronglySorted_inv in Hs. destruct Hs as [Hs Hy].
  destruct l as [|z l'].
  - destruct Hx as [<-|[]]. apply comp_irreflexive.
  - change (last (y :: z :: l') d) with (last (z :: l') d).
    destruct Hx as [<-|Hx]; [|exact (IH Hs x Hx)].
    rewrite Forall_forall in Hy. apply Hy.
    clear. revert z. induction l' as [|w l' IHl]; intros z; [left; reflexivity|].
    change (last (z :: w :: l') d) with (last (w :: l') d). right. apply IHl.
Qed.

Lemma in_order_leftwards_front (before : list Row) (val : Row) :
  in_order_leftwards comp before -> Forall (fun x => comp x val = false) before ->
  in_order_leftwards comp (before ++ [val]).
Proof.
  induction before as [|y l IH]; intros Hs Hall; cbn [app].
  - constructor; constructor.
  - apply StronglySorted_inv in Hs. destruct Hs as [Hs Hy].
    apply Forall_cons_iff in Hall. destruct Hall as [Hyv Hall].
    constructor; [apply IH; assumption|].
    apply Forall_app. split; [exact Hy | constructor; [exact Hyv | constructor]].
Qed.

Lemma insertion_sort_step_in_order (before : list Row) (val : Row) :
  in_order_leftwards comp before ->
  in_order_leftwards comp
    (if comp val (last before val) then before ++ [val]
     else unguarded_linear_insert comp val before).
Proof.
  intros Hs. destruct comp_order as [Hasym Htrans].
  destruct (comp val (last before val)) eqn:Hc;
    [|apply unguarded_linear_insert_in_order; exact Hs].
  apply in_order_leftwards_front; [exact Hs|].
  rewrite Forall_forall. intros x Hx.
  destruct (comp x val) eqn:Hxv; [|reflexivity].
  pose proof (in_order_leftwards_last val Hs x Hx) as Hxf.
  rewrite (Htrans _ _ _ Hxf (Hasym _ _ Hc)) in Hxv. discriminate.
Qed.

Lemma insertion_sort_loop_in_order (rest : list Row) :
  forall before, in_order_leftwards comp before ->
  in_order_leftwards comp (insertion_sort_loop comp before rest).
Proof.
  induction rest as [|val rest IH]; intros before Hs; cbn [insertion_sort_loop];
    [exact Hs|].
  apply IH. apply insertion_sort_step_in_order. exact Hs.
Qed.

Lemma insertion_sort_in_order (a : list Row) :
  in_order_leftwards comp (insertion_sort comp a).
Proof.
  destruct a as [|x rest]; [constructor|].
  apply insertion_sort_loop_in_order. constructor; constructor.
Qed.

Lemma unguarded_insertion_sort_in_order (rest : list Row) :
  forall before, in_order_leftwards comp before ->
  in_order_leftwards comp (unguarded_insertion_sort comp before rest).
Proof.
  induction rest as [|val rest IH]; intros before Hs; cbn [unguarded_insertion_sort];
    [exact Hs|].
  apply IH. apply unguarded_linear_insert_in_order. exact Hs.
Qed.

Lemma in_order_leftwards_rev (before : list Row) :
  in_order_leftwards comp before -> nondecreasing comp (rev before).
Proof.
  unfold nondecreasing.
  induction before as [|x l IH]; intros Hs; cbn [rev]; [constructor|].
  apply StronglySorted_inv in Hs. destruct Hs as [Hs Hx].
  specialize (IH Hs).
  assert (Hall : Forall (fun y => comp x y = false) (rev l)).
  { rewrite Forall_forall in Hx. rewrite Forall_forall. intros y Hy.
    apply Hx. apply in_rev. exact Hy. }
  clear Hx Hs. induction IH as [|y m Hm IHm Hy]; cbn [app].
  - constructor; constructor.
  - apply Forall_cons_iff in Hall. destruct Hall as [Hxy Hall].
    constructor; [apply IHm; exact Hall|].
    apply Forall_app. split; [exact Hy | constructor; [exact Hxy | constructor]].
Qed.

Lemma final_insertion_sort_nondecreasing (a : list Row) :
  nondecreasing comp (final_insertion_sort comp a).
Proof.
  unfold final_insertion_sort. destruct (S_threshold <? length a);
    apply in_order_leftwards_rev.
  - apply unguarded_insertion_sort_in_order. apply insertion_sort_in_order.
  - apply insertion_sort_in_order.
Qed.

Lemma libstdcxx_sort_nondecreasing (l out : list Row) :
  libstdcxx_sort comp l = Some out -> nondecreasing comp out.
Proof.
  unfold libstdcxx_sort. destruct l as [|x l].
  - intros H. injection H as <-. constructor.
  - destruct (introsort_loop comp _ _ _ _) as [a'|]; [|discriminate].
    intros H. injection H as <-. apply final_insertion_sort_nondecreasing.
Qed.

End LibstdcxxProofs.

Lemma libstdcxx_std_sort_permutation (comp : Row -> Row -> bool) (l : list Row) :
  Permutation l (libstdcxx_std_sort comp l).
Proof.
  unfold libstdcxx_std_sort. destruct (libstdcxx_sort comp l) as [out|] eqn:H.
  - exact (libstdcxx_sort_permutation _ _ H).
  - apply sort_ties_kept_permutation.
Qed.

Lemma libstdcxx_std_sort_nondecreasing (comp : Row -> Row -> bool) (l : list Row) :
  strict_weak_order comp -> nondecreasing comp (libstdcxx_std_sort comp l).
Proof.
  intros Hc. unfold libstdcxx_std_sort.
  destruct (libstdcxx_sort comp l) as [out|] eqn:H.
  - exact (libstdcxx_sort_nondecreasing Hc _ H).
  - apply sort_ties_kept_nondecreasing. exact Hc.
Qed.

Definition libstdcxx : StdSort := {|
  std_sort := libstdcxx_std_sort;
  std_sort_permutation := fun comp l _ => libstdcxx_std_sort_permutation comp l;
  std_sort_nondecreasing := fun comp l H => libstdcxx_std_sort_nondecreasing l H
|}.

Lemma Sort_returns_a_nondecreasing_permutation_witness :
  open (sorting := libstdcxx) 4
    (new_TableIterator (table_of 2 [["2"; "x"]; ["1"; "y"]; ["2"; "z"]])) =
    Done (TableIterator (table_of 2 [["2"; "x"]; ["1"; "y"]; ["2"; "z"]]) 0 3) [] /\
  drain (sorting := libstdcxx) 4
    (TableIterator (table_of 2 [["2"; "x"]; ["1"; "y"]; ["2"; "z"]]) 0 3) =
    Done ([["2"; "x"]; ["1"; "y"]; ["2"; "z"]],
          TableIterator (table_of 2 [["2"; "x"]; ["1"; "y"]; ["2"; "z"]]) 3 3) [] /\
  exists sorted g1 g2,
    open (sorting := libstdcxx) 5
      (new_Sort (new_TableIterator (table_of 2 [["2"; "x"]; ["1"; "y"]; ["2"; "z"]])) [0]) =
      Done (Sort (TableIterator (table_of 2 [["2"; "x"]; ["1"; "y"]; ["2"; "z"]]) 3 3)
              [0] sorted (Some 0)) g1 /\
    drain (sorting := libstdcxx) 5
      (Sort (TableIterator (table_of 2 [["2"; "x"]; ["1"; "y"]; ["2"; "z"]]) 3 3)
         [0] sorted (Some 0)) =
      Done (sorted,
            Sort (TableIterator (table_of 2 [["2"; "x"]; ["1"; "y"]; ["2"; "z"]]) 3 3)
              [0] sorted (Some (length sorted))) g2 /\
    Permutation [["2"; "x"]; ["1"; "y"]; ["2"; "z"]] sorted /\
    nondecreasing (RowCompare [0]) sorted.
Proof.
  split; [reflexivity|]. split; [reflexivity|].
  exact (proj1 (@Sort_returns_a_nondecreasing_permutation libstdcxx 4
                  (new_TableIterator (table_of 2 [["2"; "x"]; ["1"; "y"]; ["2"; "z"]]))
                  _ _ [0] _ _ _ eq_refl eq_refl)).
Defined.

(** C1 as stated fails, the sort is not stable: with the std::sort of
    libstdc++, Sort by column 0 over seventeen rows that are in order
    already, the first two of them tied, returns the two tied rows swapped.
    The library's own steps produce this order (no fallback is reached). *)
Lemma Sort_need_not_keep_ties :
  (it <- open (sorting := libstdcxx) 20
           (new_Sort (new_TableIterator
              (table_of 2 [["a"; "1"]; ["a"; "2"]; ["b"; "3"]; ["c"; "4"]; ["d"; "5"];
                          ["e"; "6"]; ["f"; "7"]; ["g"; "8"]; ["h"; "9"]; ["i"; "10"];
                          ["j"; "11"]; ["k"; "12"]; ["l"; "13"]; ["m"; "14"];
                          ["n"; "15"]; ["o"; "16"]; ["p"; "17"]])) [0]) ;;
   '(returned, _) <- drain (sorting := libstdcxx) 20 it ;;
   ret returned) =
    Done [["a"; "2"]; ["a"; "1"]; ["b"; "3"]; ["c"; "4"]; ["d"; "5"];
          ["e"; "6"]; ["f"; "7"]; ["g"; "8"]; ["h"; "9"]; ["i"; "10"];
          ["j"; "11"]; ["k"; "12"]; ["l"; "13"]; ["m"; "14"];
          ["n"; "15"]; ["o"; "16"]; ["p"; "17"]] [] /\
  libstdcxx_sort (RowCompare [0])
    [["a"; "1"]; ["a"; "2"]; ["b"; "3"]; ["c"; "4"]; ["d"; "5"];
     ["e"; "6"]; ["f"; "7"]; ["g"; "8"]; ["h"; "9"]; ["i"; "10"];
     ["j"; "11"]; ["k"; "12"]; ["l"; "13"]; ["m"; "14"];
     ["n"; "15"]; ["o"; "16"]; ["p"; "17"]] =
    Some [["a"; "2"]; ["a"; "1"]; ["b"; "3"]; ["c"; "4"]; ["d"; "5"];
          ["e"; "6"]; ["f"; "7"]; ["g"; "8"]; ["h"; "9"]; ["i"; "10"];
          ["j"; "11"]; ["k"; "12"]; ["l"; "13"]; ["m"; "14"];
          ["n"; "15"]; ["o"; "16"]; ["p"; "17"]] /\
  ~ keeps_ties (RowCompare [0])
      [["a"; "1"]; ["a"; "2"]; ["b"; "3"]; ["c"; "4"]; ["d"; "5"];
       ["e"; "6"]; ["f"; "7"]; ["g"; "8"]; ["h"; "9"]; ["i"; "10"];
       ["j"; "11"]; ["k"; "12"]; ["l"; "13"]; ["m"; "14"];
       ["n"; "15"]; ["o"; "16"]; ["p"; "17"]]
      [["a"; "2"]; ["a"; "1"]; ["b"; "3"]; ["c"; "4"]; ["d"; "5"];
       ["e"; "6"]; ["f"; "7"]; ["g"; "8"]; ["h"; "9"]; ["i"; "10"];
       ["j"; "11"]; ["k"; "12"]; ["l"; "13"]; ["m"; "14"];
       ["n"; "15"]; ["o"; "16"]; ["p"; "17"]].
Proof.
  split; [vm_compute; reflexivity|]. split; [vm_compute; reflexivity|].
  intros H. specialize (H ["a"; "1"]). vm_compute in H. discriminate.
Qed.


(** ** IndexScan *)

Lemma skipn_nth_error (A : Type) (l : list A) :
  forall i x, nth_error l i = Some x -> skipn i l = x :: skipn (S i) l.
Proof.
  induction l as [|y l IH]; intros [|i] x H; simpl in *; try discriminate.
  - injection H as ->. reflexivity.
  - apply IH. exact H.
Qed.

Lemma string_geb_leb (a b : string) : string_geb a b = string_leb b a.
Proof.
  unfold string_geb, string_leb.
  destruct (string_compare a b) eqn:Hab.
  - apply string_compare_Eq in Hab. subst. rewrite string_compare_refl. reflexivity.
  - apply string_compare_Lt_Gt in Hab. rewrite Hab. reflexivity.
  - apply string_compare_Lt_Gt in Hab. rewrite Hab. reflexivity.
Qed.

Lemma IndexScan_in_range_leading (k0 lo0 hi0 : string) (key lo hi : Row) :
  IndexScan_in_range (k0 :: key) (lo0 :: lo) (hi0 :: hi) =
  Done (string_leb lo0 k0 && string_leb k0 hi0) [].
Proof.
  unfold IndexScan_in_range. simpl. rewrite string_geb_leb.
  destruct (string_leb lo0 k0); reflexivity.
Qed.

Lemma point_range (v k : string) :
  string_leb v k && string_leb k v = String.eqb k v.
Proof.
  unfold string_leb. destruct (String.eqb_spec k v) as [->|Hne].
  - rewrite string_compare_refl. reflexivity.
  - destruct (string_compare v k) eqn:Hvk.
    + apply string_compare_Eq in Hvk. congruence.
    + apply string_compare_Lt_Gt in Hvk. rewrite Hvk. reflexivity.
    + reflexivity.
Qed.

Section IndexScanProofs.

Context {sorting : StdSort}.
Variable index : Index.
Variables lo0 hi0 : string.
Variables lo hi : Row.
Hypothesis keys : keys_not_empty index = true.

Lemma IndexScan_next_loop_spec :
  forall n i k, n = length (entries index) - i -> i <= length (entries index) -> n < k ->
  exists o i',
    IndexScan_next_loop k index (lo0 :: lo) (hi0 :: hi) i (length (entries index)) =
      Done (o, i') [] /\
    i <= i' <= length (entries index) /\
    match o with
    | Some data =>
        i < i' /\
        IndexScan_rows lo0 hi0 (skipn i (entries index)) =
        data :: IndexScan_rows lo0 hi0 (skipn i' (entries index))
    | None =>
        i' = length (entries index) /\
        IndexScan_rows lo0 hi0 (skipn i (entries index)) = []
    end.
Proof.
  induction n as [|n IH]; intros i k Hn Hi Hk.
  - assert (i = length (entries index)) by lia. subst i.
    destruct k as [|k]; [lia|]. simpl. rewrite Nat.eqb_refl.
    exists None, (length (entries index)). rewrite skipn_all. repeat split; auto.
  - destruct k as [|k]; [lia|]. cbn [IndexScan_next_loop].
    assert (Hne : (i =? length (entries index)) = false) by (apply Nat.eqb_neq; lia).
    rewrite Hne.
    destruct (nth_error (entries index) i) as [[key data]|] eqn:Hnth;
      [|apply nth_error_None in Hnth; lia].
    rewrite (skipn_nth_error _ _ Hnth).
    assert (Hkey : exists k0 key', key = k0 :: key').
    { unfold keys_not_empty in keys. rewrite forallb_forall in keys.
      specialize (keys (key, data) (nth_error_In _ _ Hnth)). simpl in keys.
      destruct key as [|k0 key']; [discriminate|]. eauto. }
    destruct Hkey as (k0 & key' & ->).
    rewrite IndexScan_in_range_leading.
    assert (Hcons : IndexScan_rows lo0 hi0
                      ((k0 :: key', data) :: skipn (S i) (entries index)) =
                    if string_leb lo0 k0 && string_leb k0 hi0
                    then data :: IndexScan_rows lo0 hi0 (skipn (S i) (entries index))
                    else IndexScan_rows lo0 hi0 (skipn (S i) (entries index))).
    { generalize (skipn (S i) (entries index)). intros rest.
      unfold IndexScan_rows. simpl. unfold leading_key_in_range at 1. simpl.
      destruct (string_leb lo0 k0 && string_leb k0 hi0); reflexivity. }
    destruct (string_leb lo0 k0 && string_leb k0 hi0).
    + exists (Some data), (S i). split; [reflexivity|].
      split; [lia|]. split; [lia|]. exact Hcons.
    + destruct (IH (S i) k ltac:(lia) ltac:(lia) ltac:(lia)) as (o & i' & Hloop & Hi' & Ho).
      exists o, i'. split.
      * simpl. rewrite Hloop. reflexivity.
      * split; [lia|]. destruct o as [d|].
        -- destruct Ho as [Hlt Hrows]. split; [lia|]. exact (eq_trans Hcons Hrows).
        -- destruct Ho as [Hi'' Hrows]. split; [exact Hi''|]. exact (eq_trans Hcons Hrows).
Qed.

Lemma IndexScan_Yields (fuel : nat) :
  length (entries index) < fuel ->
  forall n i, n = length (entries index) - i -> i <= length (entries index) ->
  Yields (next (S fuel))
    (IndexScan index (lo0 :: lo) (hi0 :: hi) (Some i) (Some (length (entries index))))
    (IndexScan_rows lo0 hi0 (skipn i (entries index)))
    (IndexScan index (lo0 :: lo) (hi0 :: hi)
       (Some (length (entries index))) (Some (length (entries index)))).
Proof.
  intros Hfuel.
  induction n as [n IH] using lt_wf_ind. intros i Hn Hi.
  destruct (entries index) as [|e es] eqn:Hes.
  - simpl in Hi. assert (i = 0) by lia. subst i. simpl.
    eapply Yields_end. simpl. unfold Index_empty. rewrite Hes. reflexivity.
  - rewrite <- Hes in *.
    destruct (@IndexScan_next_loop_spec (length (entries index) - i) i fuel
                eq_refl Hi ltac:(lia)) as (o & i' & Hloop & Hi' & Ho).
    assert (Hnext : next (S fuel)
              (IndexScan index (lo0 :: lo) (hi0 :: hi) (Some i)
                 (Some (length (entries index)))) =
            Done (o, IndexScan index (lo0 :: lo) (hi0 :: hi) (Some i')
                       (Some (length (entries index)))) []).
    { cbn [next]. unfold Index_empty. rewrite Hes. rewrite <- Hes. simpl negb. cbv iota.
      rewrite Hloop. reflexivity. }
    destruct o as [data|].
    + destruct Ho as [Hlt Hrows]. rewrite Hrows.
      eapply Yields_row; [exact Hnext|].
      apply (IH (length (entries index) - i')); lia.
    + destruct Ho as [-> Hrows]. rewrite Hrows.
      eapply Yields_end. exact Hnext.
Qed.

Lemma IndexScan_open_drain (fuel : nat) (i e : option nat) :
  length (entries index) < fuel ->
  exists it g,
    (it <- open (S fuel) (IndexScan index (lo0 :: lo) (hi0 :: hi) i e) ;;
     drain (S fuel) it) = Done (IndexScan_rows lo0 hi0 (entries index), it) g.
Proof.
  intros Hfuel. cbn [open]. simpl bind.
  pose proof (@IndexScan_Yields fuel Hfuel (length (entries index)) 0
                ltac:(lia) ltac:(lia)) as HY.
  simpl skipn in HY.
  destruct (Yields_drain_loop HY (k := S fuel)) as [g Hd].
  { unfold IndexScan_rows. rewrite length_map.
    pose proof (filter_length_le (leading_key_in_range lo0 hi0) (entries index)). lia. }
  unfold drain. rewrite Hd. eexists. eexists. reflexivity.
Qed.

End IndexScanProofs.

Lemma IndexScan_rows_point (v : string) (es : list (Row * Row)) :
  IndexScan_rows v v es = map snd (filter (leading_key_is v) es).
Proof.
  unfold IndexScan_rows. f_equal. apply filter_ext. intros [key data].
  unfold leading_key_in_range, leading_key_is. simpl.
  destruct key as [|k0 key]; [reflexivity|]. apply point_range.
Qed.

(** C8.  An IndexScan built with [hi == NULL] has [lo] as its upper bound,
    and for every index (whose key rows have a leading column) a scan with
    [lo == hi], opened and drained, returns exactly the data rows of the
    entries whose leading key column equals [lo[0]], in index order. *)
Theorem IndexScan_point_lookup {sorting : StdSort}
    (index : Index) (v : string) (lo : Row) (fuel : nat)
    (Hkeys : keys_not_empty index = true)
    (Hfuel : length (entries index) < fuel) :
  (forall lo', new_IndexScan index lo' None = IndexScan index lo' lo' None None) /\
  new_IndexScan index (v :: lo) (Some (v :: lo)) = new_IndexScan index (v :: lo) None /\
  exists it g,
    (it <- open (S fuel) (new_IndexScan index (v :: lo) None) ;; drain (S fuel) it) =
    Done (map snd (filter (leading_key_is v) (entries index)), it) g.
Proof.
  split; [reflexivity|]. split; [reflexivity|].
  rewrite <- IndexScan_rows_point. unfold new_IndexScan.
  apply IndexScan_open_drain; assumption.
Qed.

Lemma IndexScan_point_lookup_witness :
  keys_not_empty {| Index_n_columns := 2;
                    entries := [(["1"], ["1"; "a"]); (["2"; "z"], ["2"; "b"]);
                                (["2"], ["2"; "c"]); (["3"], ["3"; "d"])] |} = true /\
  4 < 5 /\
  exists it g,
    (it <- open (sorting := ties_kept_sort) 6
             (new_IndexScan {| Index_n_columns := 2;
                               entries := [(["1"], ["1"; "a"]); (["2"; "z"], ["2"; "b"]);
                                           (["2"], ["2"; "c"]); (["3"], ["3"; "d"])] |}
                ["2"; "q"] None) ;;
     drain (sorting := ties_kept_sort) 6 it) =
    Done ([["2"; "b"]; ["2"; "c"]], it) g.
Proof.
  split; [reflexivity|]. split; [lia|].
  exact (proj2 (proj2 (@IndexScan_point_lookup ties_kept_sort
    {| Index_n_columns := 2;
       entries := [(["1"], ["1"; "a"]); (["2"; "z"], ["2"; "b"]);
                   (["2"], ["2"; "c"]); (["3"], ["3"; "d"])] |}
    "2" ["q"] 5 eq_refl ltac:(simpl; lia)))).
Defined.

(** C5.  NestedLoopsJoin::match reads the first selected column of each side
    and nothing else: selectors that agree on their first position and rows
    that agree at that position give the same answer, and the answer is the
    equality of the two values there, so rows equal on the first selected
    columns and unequal on later ones match.  The range test of IndexScan::next
    reads column 0 of the entry's key, of [lo] and of [hi] and nothing else,
    and an entry is kept iff its key column 0 lies in [[lo[0], hi[0]]]. *)
Theorem join_and_range_read_the_first_column_only {sorting : StdSort}
    (lcs lcs' rcs rcs' : ColumnSelector) (left left' right right' : Row)
    (lc rc : nat) (key key' lo lo' hi hi' : Row)
    (Hlcs : nth_error (cs_columns lcs) 0 = Some lc)
    (Hlcs' : nth_error (cs_columns lcs') 0 = Some lc)
    (Hrcs : nth_error (cs_columns rcs) 0 = Some rc)
    (Hrcs' : nth_error (cs_columns rcs') 0 = Some rc)
    (Hleft : nth_error left lc = nth_error left' lc)
    (Hright : nth_error right rc = nth_error right' rc)
    (Hkey : nth_error key 0 = nth_error key' 0)
    (Hlo : nth_error lo 0 = nth_error lo' 0)
    (Hhi : nth_error hi 0 = nth_error hi' 0) :
  NestedLoopsJoin_match lcs rcs left right =
    NestedLoopsJoin_match lcs' rcs' left' right' /\
  (forall lv rv, nth_error left lc = Some lv -> nth_error right rc = Some rv ->
     NestedLoopsJoin_match lcs rcs left right = Done (String.eqb lv rv) []) /\
  (it <- new_NestedLoopsJoin (new_TableIterator (table_of 2 [["1"; "x"]])) [0; 1]
           (new_TableIterator (table_of 2 [["1"; "y"]])) [0; 1] ;;
   it <- open 5 it ;;
   '(returned, _) <- drain 5 it ;;
   ret returned) = Done [["1"; "x"; "y"]] [["1"; "y"]] /\
  IndexScan_in_range key lo hi = IndexScan_in_range key' lo' hi' /\
  (forall k0 l0 h0,
     nth_error key 0 = Some k0 -> nth_error lo 0 = Some l0 -> nth_error hi 0 = Some h0 ->
     IndexScan_in_range key lo hi = Done (string_leb l0 k0 && string_leb k0 h0) []) /\
  (forall index l0 h0 lo_more hi_more fuel,
     keys_not_empty index = true -> length (entries index) < fuel ->
     exists it g,
       (it <- open (S fuel) (new_IndexScan index (l0 :: lo_more) (Some (h0 :: hi_more))) ;;
        drain (S fuel) it) =
       Done (map snd (filter (leading_key_in_range l0 h0) (entries index)), it) g).
Proof.
  split; [|split; [|split; [|split; [|split]]]].
  - unfold NestedLoopsJoin_match, selected, Row_at.
    rewrite Hlcs, Hlcs', Hrcs, Hrcs'. simpl. rewrite Hleft, Hright. reflexivity.
  - intros lv rv Hlv Hrv. unfold NestedLoopsJoin_match, selected, Row_at.
    rewrite Hlcs, Hrcs. simpl. rewrite Hlv. simpl. rewrite Hrv. reflexivity.
  - reflexivity.
  - unfold IndexScan_in_range, Row_at. rewrite Hkey, Hlo, Hhi. reflexivity.
  - intros k0 l0 h0 Hk Hl Hh.
    destruct key as [|k key0]; [discriminate|]. destruct lo as [|l lo0]; [discriminate|].
    destruct hi as [|h hi0]; [discriminate|]. simpl in Hk, Hl, Hh.
    injection Hk as ->. injection Hl as ->. injection Hh as ->.
    apply IndexScan_in_range_leading.
  - intros index l0 h0 lo_more hi_more fuel Hkeys Hfuel. unfold new_IndexScan.
    apply IndexScan_open_drain; assumption.
Qed.

Lemma join_and_range_read_the_first_column_only_witness :
  NestedLoopsJoin_match {| cs_n_columns := 3; cs_columns := [1; 2] |}
    {| cs_n_columns := 2; cs_columns := [0; 1] |} ["a"; "7"; "p"] ["7"; "q"] =
  NestedLoopsJoin_match {| cs_n_columns := 3; cs_columns := [1; 0] |}
    {| cs_n_columns := 2; cs_columns := [0] |} ["b"; "7"; "r"] ["7"; "s"] /\
  IndexScan_in_range ["5"; "a"] ["3"; "b"] ["7"; "c"] =
  IndexScan_in_range ["5"; "z"] ["3"] ["7"; "y"; "x"].
Proof.
  pose proof (@join_and_range_read_the_first_column_only ties_kept_sort
    {| cs_n_columns := 3; cs_columns := [1; 2] |}
    {| cs_n_columns := 3; cs_columns := [1; 0] |}
    {| cs_n_columns := 2; cs_columns := [0; 1] |}
    {| cs_n_columns := 2; cs_columns := [0] |}
    ["a"; "7"; "p"] ["b"; "7"; "r"] ["7"; "q"] ["7"; "s"] 1 0
    ["5"; "a"] ["5"; "z"] ["3"; "b"] ["3"] ["7"; "c"] ["7"; "y"; "x"]
    eq_refl eq_refl eq_refl eq_refl eq_refl eq_refl eq_refl eq_refl eq_refl) as H.
  exact (conj (proj1 H) (proj1 (proj2 (proj2 (proj2 H))))).
Defined.

(** C2.  Unique::close and Unique::open leave [_last_unique] as the first
    drain set it, and Unique::next takes a row for the first one only while
    [_last_unique] is NULL.  Over a table holding the single row (1), the
    first drain returns (1); after close() and open() the second drain
    returns no row. *)
Theorem Unique_reopened_passes_over_its_first_row {sorting : StdSort} :
  (it <- open 5 (new_Unique (new_TableIterator (table_of 1 [["1"]]))) ;;
   '(first_drain, it) <- drain 5 it ;;
   it <- open 5 (close it) ;;
   '(second_drain, _) <- drain 5 it ;;
   ret (first_drain, second_drain)) = Done ([["1"]], []) [].
Proof. reflexivity. Qed.

(** C6.  Select::next never calls Row::reclaim.  Over the projection on
    column 0 of the rows (1,a), (6,b), with the predicate "column 0 > 5", the
    first call pulls (1), rejects it, pulls (6) and returns it; the rows
    reclaimed by then are the two rows Project consumed, and the rejected
    row (1) is not among them. *)
Theorem Select_leaves_the_rejected_row_unreclaimed {sorting : StdSort} :
  (input <- new_Project (new_TableIterator (table_of 2 [["1"; "a"]; ["6"; "b"]])) [0] ;;
   it <- open 5 (new_Select input column0_above_5) ;;
   '(row, _) <- next 5 it ;;
   ret row) = Done (Some ["6"]) [["1"; "a"]; ["6"; "b"]] /\
  column0_above_5 ["1"] = false /\
  existsb (row_eqb ["1"]) [["1"; "a"]; ["6"; "b"]] = false.
Proof. repeat split. Qed.

(** ** Widths are kept by every call *)

Lemma n_columns_close (it : Iterator) : n_columns (close it) = n_columns it.
Proof. induction it; simpl; auto. Qed.

Lemma well_formed_close (it : Iterator) : well_formed (close it) = well_formed it.
Proof.
  induction it as [ | | c IH p | c IH cs | l IHl r IHr lcs rcs lrow | c IH cols s i | c IH last];
    simpl; auto.
  - rewrite IHl, IHr, !n_columns_close. reflexivity.
  - rewrite IH, n_columns_close. reflexivity.
Qed.

Lemma kept_refl (it : Iterator) : well_formed it = true -> kept it it.
Proof. intros H. split; auto. Qed.

Lemma kept_trans (a b c : Iterator) : kept a b -> kept b c -> kept a c.
Proof. intros [H1 H2] [H3 H4]. split; congruence. Qed.

Lemma fits_kept (a b : Iterator) (row : option Row) : kept a b -> fits a row -> fits b row.
Proof. intros [_ H] Hf r Hr. rewrite H. apply Hf. exact Hr. Qed.

Lemma fits_back (a b : Iterator) (row : option Row) : kept a b -> fits b row -> fits a row.
Proof. intros [_ H] Hf r Hr. rewrite <- H. apply Hf. exact Hr. Qed.

Lemma fits_None (it : Iterator) : fits it None.
Proof. intros r H. discriminate. Qed.

Section WidthLoops.

Variable step : Iterator -> outcome (option Row * Iterator).
Variable op : Iterator -> outcome Iterator.
Hypothesis step_ok : next_ok step.
Hypothesis op_ok : open_ok op.

Lemma Select_next_loop_ok (p : Row -> bool) :
  forall k row c o c' g,
    well_formed c = true -> fits c row ->
    Select_next_loop step p k row c = Done (o, c') g ->
    kept c c' /\ fits c o.
Proof.
  induction k as [|k IH]; intros row c o c' g Hwf Hfit H; [discriminate|].
  simpl in H. destruct row as [r|].
  - destruct (p r).
    + injection H as <- <- _. split; [apply kept_refl; exact Hwf | exact Hfit].
    + apply bind_Done in H as ([row' c1] & g1 & g2 & Hs & H & _).
      destruct (step_ok Hwf Hs) as [Hk Hf].
      destruct (IH _ _ _ _ _ (proj1 Hk) (fits_kept Hk Hf) H) as [Hk' Hf'].
      split; [eapply kept_trans; eauto | eapply fits_back; eauto].
  - injection H as <- <- _. split; [apply kept_refl; exact Hwf | apply fits_None].
Qed.

Lemma Unique_next_loop_ok :
  forall k row last c o last' c' g,
    well_formed c = true -> fits c row ->
    Unique_next_loop step k row last c = Done (o, last', c') g ->
    kept c c' /\ fits c o.
Proof.
  induction k as [|k IH]; intros row last c o last' c' g Hwf Hfit H; [discriminate|].
  simpl in H. destruct row as [r|].
  - assert (Hpull : forall x gx,
              ('(row', _input') <- step c ;; Unique_next_loop step k row' last _input') =
              Done x gx -> x = (o, last', c') -> kept c c' /\ fits c o).
    { intros x gx Hb ->.
      apply bind_Done in Hb as ([row' c1] & g1 & g2 & Hs & Hb & _).
      destruct (step_ok Hwf Hs) as [Hk Hf].
      destruct (IH _ _ _ _ _ _ _ (proj1 Hk) (fits_kept Hk Hf) Hb) as [Hk' Hf'].
      split; [eapply kept_trans; eauto | eapply fits_back; eauto]. }
    destruct last as [p|].
    + destruct (length r =? length p).
      * apply bind_Done in H as (equal & g1 & g2 & _ & H & _).
        destruct (negb equal).
        -- injection H as <- _ <- _. split; [apply kept_refl; exact Hwf | exact Hfit].
        -- eapply Hpull; eauto.
      * eapply Hpull; eauto.
    + injection H as <- _ <- _. split; [apply kept_refl; exact Hwf | exact Hfit].
  - injection H as <- _ <- _. split; [apply kept_refl; exact Hwf | apply fits_None].
Qed.

Lemma Sort_open_loop_ok :
  forall k row acc c o acc' c' g,
    well_formed c = true -> fits c row ->
    forallb (row_width_is (n_columns c)) acc = true ->
    Sort_open_loop step k row acc c = Done (o, acc', c') g ->
    kept c c' /\ forallb (row_width_is (n_columns c)) acc' = true.
Proof.
  induction k as [|k IH]; intros row acc c o acc' c' g Hwf Hfit Hacc H; [discriminate|].
  simpl in H. destruct row as [r|].
  - apply bind_Done in H as ([row' c1] & g1 & g2 & Hs & H & _).
    destruct (step_ok Hwf Hs) as [Hk Hf].
    assert (Hacc' : forallb (row_width_is (n_columns c1)) (acc ++ [r]) = true).
    { rewrite (proj2 Hk), forallb_app, Hacc. simpl. rewrite (Hfit r eq_refl). reflexivity. }
    destruct (IH _ _ _ _ _ _ _ (proj1 Hk) (fits_kept Hk Hf) Hacc' H) as [Hk' Hall].
    split; [eapply kept_trans; eauto | rewrite <- (proj2 Hk); exact Hall].
  - injection H as _ <- <- _. split; [apply kept_refl; exact Hwf | exact Hacc].
Qed.

End WidthLoops.

Lemma IndexScan_next_loop_ok (index : Index) (lo hi : Row) :
  forallb (fun entry => row_width_is (Index_n_columns index) (snd entry))
    (entries index) = true ->
  forall k i e o i' g,
    IndexScan_next_loop k index lo hi i e = Done (o, i') g ->
    forall r, o = Some r -> row_width_is (Index_n_columns index) r = true.
Proof.
  intros Hall. induction k as [|k IH]; intros i e o i' g H r Hr; [discriminate|].
  simpl in H. destruct (i =? e).
  - injection H as <- _ _. discriminate.
  - destruct (nth_error (entries index) i) as [[key data]|] eqn:Hnth; [|discriminate].
    apply bind_Done in H as (inside & g1 & g2 & _ & H & _). destruct inside.
    + injection H as <- _ _. injection Hr as <-.
      rewrite forallb_forall in Hall. apply (Hall (key, data)).
      eapply nth_error_In. exact Hnth.
    + eapply IH; eauto.
Qed.

Lemma Project_next_loop_length (cs : ColumnSelector) (row : Row) :
  forall todo i projected result g,
    Project_next_loop cs todo i row projected = Done result g ->
    length result = length projected + todo.
Proof.
  induction todo as [|todo IH]; intros i projected result g H; simpl in H.
  - injection H as <- _. lia.
  - apply bind_Done in H as (c & g1 & g2 & _ & H & _).
    apply bind_Done in H as (v & g3 & g4 & _ & H & _).
    apply IH in H. rewrite H, length_app. simpl. lia.
Qed.

Lemma join_left_loop_length (left : Row) :
  forall join_row, length (join_left_loop left join_row) = length join_row + length left.
Proof.
  induction left as [|v left IH]; intros join_row; simpl; [lia|].
  rewrite IH, length_app. simpl. lia.
Qed.

Lemma join_right_loop_length (rcs : ColumnSelector) (c : nat) :
  nth_error (cs_columns rcs) 0 = Some c ->
  forall right i join_row result g,
    join_right_loop rcs i right join_row = Done result g ->
    length result + (if (i <=? c) && (c <? i + length right) then 1 else 0) =
    length join_row + length right.
Proof.
  intros Hc. induction right as [|v right IH]; intros i join_row result g H; simpl in H.
  - injection H as <- _. simpl.
    destruct (i <=? c) eqn:H1; destruct (c <? i + 0) eqn:H2; simpl; try lia.
    apply Nat.leb_le in H1. apply Nat.ltb_lt in H2. lia.
  - unfold selected in H. rewrite Hc in H. simpl in H.
    destruct (i =? c) eqn:Hic; simpl in H.
    + apply Nat.eqb_eq in Hic. subst i.
      destruct (join_right_loop rcs (S c) right join_row) as [res g'| |] eqn:Hj;
        try discriminate.
      injection H as <- _. apply IH in Hj.
      assert (H1 : (S c <=? c) = false) by (apply Nat.leb_gt; lia).
      rewrite H1 in Hj. simpl in Hj.
      assert (H2 : (c <=? c) = true) by (apply Nat.leb_le; lia).
      assert (H3 : (c <? c + length (v :: right)) = true)
        by (apply Nat.ltb_lt; simpl; lia).
      rewrite H2, H3. simpl. lia.
    + apply Nat.eqb_neq in Hic.
      destruct (join_right_loop rcs (S i) right (join_row ++ [v])) as [res g'| |] eqn:Hj;
        try discriminate.
      injection H as <- _. apply IH in Hj. rewrite length_app in Hj.
      cbn [length] in Hj.
      destruct (Nat.leb_spec i c); destruct (Nat.ltb_spec c (i + length (v :: right)));
        destruct (Nat.leb_spec (S i) c); destruct (Nat.ltb_spec c (S i + length right));
        cbn [andb length] in *; lia.
Qed.

Lemma selected_Done (cs : ColumnSelector) (i c : nat) (g : list Row) :
  selected cs i = Done c g -> nth_error (cs_columns cs) i = Some c.
Proof.
  unfold selected. destruct (nth_error (cs_columns cs) i); [|discriminate].
  intros H. injection H as <- _. reflexivity.
Qed.

Lemma Row_at_Done (row : Row) (i : nat) (v : string) (g : list Row) :
  Row_at row i = Done v g -> nth_error row i = Some v.
Proof.
  unfold Row_at. destruct (nth_error row i); [|discriminate].
  intros H. injection H as <- _. reflexivity.
Qed.

Lemma NestedLoopsJoin_match_in_range (lcs rcs : ColumnSelector) (l r : Row)
    (b : bool) (g : list Row) :
  NestedLoopsJoin_match lcs rcs l r = Done b g ->
  exists lc rc lv rv,
    nth_error (cs_columns lcs) 0 = Some lc /\ nth_error l lc = Some lv /\
    nth_error (cs_columns rcs) 0 = Some rc /\ nth_error r rc = Some rv /\
    b = String.eqb lv rv.
Proof.
  unfold NestedLoopsJoin_match. intros H.
  apply bind_Done in H as (lc & g1 & g2 & Hlc & H & _).
  apply bind_Done in H as (lv & g3 & g4 & Hlv & H & _).
  apply bind_Done in H as (rc & g5 & g6 & Hrc & H & _).
  apply bind_Done in H as (rv & g7 & g8 & Hrv & H & _).
  injection H as <- _.
  apply selected_Done in Hlc, Hrc. apply Row_at_Done in Hlv, Hrv.
  exists lc, rc, lv, rv. auto.
Qed.

Lemma join_rows_if_match_length (rcs : ColumnSelector) (rc : nat) (l r result : Row)
    (g : list Row) :
  nth_error (cs_columns rcs) 0 = Some rc -> rc < length r ->
  NestedLoopsJoin_join_rows_if_match rcs l r = Done result g ->
  length result + 1 = length l + length r.
Proof.
  intros Hrc Hlt H. unfold NestedLoopsJoin_join_rows_if_match in H.
  apply (join_right_loop_length _ Hrc) in H.
  rewrite join_left_loop_length in H. simpl in H.
  assert (H2 : (rc <? length r) = true) by (apply Nat.ltb_lt; lia).
  rewrite H2 in H. simpl in H. lia.
Qed.

Section WidthJoin.

Variable step : Iterator -> outcome (option Row * Iterator).
Variable op : Iterator -> outcome Iterator.
Hypothesis step_ok : next_ok step.
Hypothesis op_ok : open_ok op.

Lemma NestedLoopsJoin_next_loop_ok (lcs rcs : ColumnSelector) :
  forall k lrow rrow l r lrow' rrow' l' r' g,
    well_formed l = true -> well_formed r = true -> fits l lrow -> fits r rrow ->
    NestedLoopsJoin_next_loop step op step lcs rcs k lrow rrow l r =
      Done (lrow', rrow', l', r') g ->
    kept l l' /\ kept r r' /\ fits l lrow' /\ fits r rrow' /\
    (forall a b, lrow' = Some a -> rrow' = Some b ->
       exists rc, nth_error (cs_columns rcs) 0 = Some rc /\ rc < length b).
Proof.
  induction k as [|k IH]; intros lrow rrow l r lrow' rrow' l' r' g Hl Hr Hfl Hfr H;
    [discriminate|].
  assert (Hstop : forall g0,
                  Done (lrow, rrow, l, r) [] = Done (lrow', rrow', l', r') g0 ->
                  (forall a b, lrow = Some a -> rrow = Some b ->
                     exists rc, nth_error (cs_columns rcs) 0 = Some rc /\ rc < length b) ->
                  kept l l' /\ kept r r' /\ fits l lrow' /\ fits r rrow' /\
                  (forall a b, lrow' = Some a -> rrow' = Some b ->
                     exists rc, nth_error (cs_columns rcs) 0 = Some rc /\ rc < length b)).
  { intros g0 E Hm. injection E as <- <- <- <- _.
    repeat split; auto. }
  cbn [NestedLoopsJoin_next_loop] in H.
  destruct lrow as [a|]; [destruct rrow as [b|]|].
  - apply bind_Done in H as (matched & g1 & g2 & Hm & H & _).
    destruct matched.
    + apply (Hstop g2); [exact H|].
      intros a' b' Ea Eb. injection Ea as <-. injection Eb as <-.
      apply NestedLoopsJoin_match_in_range in Hm.
      destruct Hm as (lc & rc & lv & rv & _ & _ & Hrc & Hrv & _).
      exists rc. split; [exact Hrc|]. apply nth_error_Some. congruence.
    + apply bind_Done in H as ([lrow1 l1] & g3 & g4 & Hs & H & _).
      destruct (step_ok Hl Hs) as [Hk1 Hf1].
      destruct lrow1 as [x|].
      * destruct (IH _ _ _ _ _ _ _ _ _ (proj1 Hk1) Hr (fits_kept Hk1 Hf1) Hfr H)
          as (K1 & K2 & F1 & F2 & M).
        repeat split; try (apply K2); try (apply (kept_trans Hk1 K1));
          try exact F2; try exact M.
        eapply fits_back; eauto.
      * apply bind_Done in H as ([rrow1 r1] & g5 & g6 & Hs2 & H & _).
        destruct (step_ok Hr Hs2) as [Hk2 Hf2].
        destruct rrow1 as [y|].
        -- apply bind_Done in H as (l2 & g7 & g8 & Ho & H & _).
           assert (Hcl : well_formed (close l1) = true)
             by (rewrite well_formed_close; exact (proj1 Hk1)).
           pose proof (op_ok Hcl Ho) as Hk3.
           assert (Hk13 : kept l1 l2).
           { destruct Hk3 as [W N]. split; [exact W|]. rewrite N. apply n_columns_close. }
           apply bind_Done in H as ([lrow2 l3] & g9 & g10 & Hs3 & H & _).
           destruct (step_ok (proj1 Hk3) Hs3) as [Hk4 Hf4].
           destruct (IH _ _ _ _ _ _ _ _ _ (proj1 Hk4) (proj1 Hk2)
                       (fits_kept Hk4 Hf4) (fits_kept Hk2 Hf2) H)
             as (K1 & K2 & F1 & F2 & M).
           assert (Kl : kept l l3)
             by (eapply kept_trans; [exact Hk1 | eapply kept_trans; [exact Hk13 | exact Hk4]]).
           repeat split; try (apply (kept_trans Kl K1)); try (apply (kept_trans Hk2 K2));
             try exact M.
           ++ eapply fits_back; [exact Kl | exact F1].
           ++ eapply fits_back; [exact Hk2 | exact F2].
        -- destruct (IH _ _ _ _ _ _ _ _ _ (proj1 Hk1) (proj1 Hk2)
                       (fits_kept Hk1 Hf1) (fits_kept Hk2 Hf2) H)
             as (K1 & K2 & F1 & F2 & M).
           repeat split; try (apply (kept_trans Hk1 K1)); try (apply (kept_trans Hk2 K2));
             try exact M.
           ++ eapply fits_back; [exact Hk1 | exact F1].
           ++ eapply fits_back; [exact Hk2 | exact F2].
  - apply (Hstop g); [exact H|]. intros a' b' _ E. discriminate.
  - apply (Hstop g); [exact H|]. intros a' b' E. discriminate.
Qed.

End WidthJoin.

Lemma to_unsigned_small (z : Z) : (0 <= z < 2 ^ 32)%Z -> to_unsigned z = z.
Proof. intros H. unfold to_unsigned. apply Z.mod_small. exact H. Qed.

Lemma row_width_is_eq (w : Z) (row : Row) :
  row_width_is w row = true <-> Z.of_nat (length row) = w.
Proof. unfold row_width_is. apply Z.eqb_eq. Qed.

Section WidthMethods.

Context {sorting : StdSort}.

Lemma TableIterator_next_ok (fuel : nat) (t : Table) (i e : nat) row it' g :
  well_formed (TableIterator t i e) = true ->
  next (S fuel) (TableIterator t i e) = Done (row, it') g ->
  kept (TableIterator t i e) it' /\ fits (TableIterator t i e) row.
Proof.
  intros Hwf H. cbn [next] in H. destruct (negb (i =? e)).
  - destruct (nth_error (rows t) i) as [r|] eqn:Hn; [|discriminate].
    injection H as <- <- _. split; [split; auto|].
    intros r0 E. injection E as <-. simpl in Hwf. apply andb_prop in Hwf.
    destruct Hwf as [Hsmall Hall]. apply Z.ltb_lt in Hsmall.
    rewrite forallb_forall in Hall. simpl. rewrite to_unsigned_small by lia.
    apply Hall. eapply nth_error_In. exact Hn.
  - injection H as <- <- _. split; [apply kept_refl; exact Hwf | apply fits_None].
Qed.

Lemma IndexScan_next_ok (fuel : nat) index lo hi i e row it' g :
  well_formed (IndexScan index lo hi i e) = true ->
  next (S fuel) (IndexScan index lo hi i e) = Done (row, it') g ->
  kept (IndexScan index lo hi i e) it' /\ fits (IndexScan index lo hi i e) row.
Proof.
  intros Hwf H. cbn [next] in H. destruct (negb (Index_empty index)).
  - destruct i as [i|]; [|discriminate]. destruct e as [e|]; [|discriminate].
    apply bind_Done in H as ([o i'] & g1 & g2 & Hloop & H & _).
    injection H as <- <- _. split; [split; auto|].
    intros r E. simpl. eapply IndexScan_next_loop_ok; eauto.
  - injection H as <- <- _. split; [apply kept_refl; exact Hwf | apply fits_None].
Qed.

Lemma Sort_next_ok (fuel : nat) c cols s i row it' g :
  well_formed (Sort c cols s i) = true ->
  next (S fuel) (Sort c cols s i) = Done (row, it') g ->
  kept (Sort c cols s i) it' /\ fits (Sort c cols s i) row.
Proof.
  intros Hwf H. cbn [next] in H. destruct i as [i|]; [|discriminate].
  destruct (negb (i =? length s)).
  - destruct (nth_error s i) as [r|] eqn:Hn; [|discriminate].
    injection H as <- <- _. split; [split; auto|].
    intros r0 E. injection E as <-. simpl in Hwf. apply andb_prop in Hwf.
    destruct Hwf as [_ Hall]. rewrite forallb_forall in Hall. simpl.
    apply Hall. eapply nth_error_In. exact Hn.
  - injection H as <- <- _. split; [apply kept_refl; exact Hwf | apply fits_None].
Qed.

Lemma NestedLoopsJoin_n_columns l r lcs rcs lrow :
  n_columns (NestedLoopsJoin l r lcs rcs lrow) =
  to_unsigned (cs_n_columns lcs + cs_n_columns rcs - 1).
Proof.
  simpl. unfold n_selected.
  assert (H1 : (0 <=? Z.of_nat (length (cs_columns lcs)))%Z = true)
    by (apply Z.leb_le; lia).
  assert (H2 : (0 <=? Z.of_nat (length (cs_columns rcs)))%Z = true)
    by (apply Z.leb_le; lia).
  rewrite H1, H2. reflexivity.
Qed.

Lemma NestedLoopsJoin_well_formed l r lcs rcs lrow :
  well_formed (NestedLoopsJoin l r lcs rcs lrow) = true <->
  well_formed l = true /\ well_formed r = true /\
  cs_n_columns lcs = n_columns l /\ cs_n_columns rcs = n_columns r /\
  (n_columns l + n_columns r <= 2 ^ 32)%Z /\ fits l lrow.
Proof.
  cbn [well_formed]. rewrite !andb_true_iff, !Z.eqb_eq, Z.leb_le.
  unfold fits. split.
  - intros [[[[[H1 H2] H3] H4] H5] H6]. repeat split; auto.
    intros row ->. exact H6.
  - intros (H1 & H2 & H3 & H4 & H5 & H6). repeat split; auto.
    destruct lrow as [row|]; auto.
Qed.

End WidthMethods.

Section WidthInduction.

Context {sorting : StdSort}.
Variable fuel : nat.
Hypothesis IHnext : next_ok (next fuel).
Hypothesis IHopen : open_ok (open fuel).

Lemma NestedLoopsJoin_next_ok l r lcs rcs lrow row it' g :
  well_formed (NestedLoopsJoin l r lcs rcs lrow) = true ->
  next (S fuel) (NestedLoopsJoin l r lcs rcs lrow) = Done (row, it') g ->
  (kept (NestedLoopsJoin l r lcs rcs lrow) it' /\
   fits (NestedLoopsJoin l r lcs rcs lrow) row) /\
  (forall y, row = Some y ->
     Z.of_nat (length y) = (n_columns l + n_columns r - 1)%Z).
Proof.
  pose proof IHnext as IHn. pose proof IHopen as IHo.
  unfold next_ok in IHn. unfold open_ok in IHo.
  intros Hwf H. apply NestedLoopsJoin_well_formed in Hwf.
  destruct Hwf as (Hl & Hr & Hlcs & Hrcs & Hsum & Hfl).
  cbn [next] in H.
  apply bind_Done in H as ([rrow r1] & g1 & g2 & Hs & H & _).
  destruct (IHn _ _ _ _ Hr Hs) as [Hk1 Hf1].
  apply bind_Done in H as ([[[lrow' rrow'] l'] r'] & g3 & g4 & Hloop & H & _).
  destruct (@NestedLoopsJoin_next_loop_ok (next fuel) (open fuel) IHnext IHopen
              lcs rcs fuel lrow rrow l r1 lrow' rrow' l' r' g3 Hl (proj1 Hk1) Hfl
              (fits_kept Hk1 Hf1) Hloop) as (Kl & Kr & Fl & Fr & M).
  pose proof (kept_trans Hk1 Kr) as Kr'.
  assert (Hkept : forall x, kept (NestedLoopsJoin l r lcs rcs lrow)
                              (NestedLoopsJoin l' r' lcs rcs x) <-> fits l x).
  { intros x. unfold kept. rewrite NestedLoopsJoin_well_formed, !NestedLoopsJoin_n_columns.
    destruct Kl as [Wl Nl]. destruct Kr' as [Wr Nr]. rewrite Nl, Nr.
    split; [intros [(_ & _ & _ & _ & _ & F) _]; intros y Hy; rewrite <- Nl; auto|].
    intros F. repeat split; auto. intros y Hy. rewrite Nl. auto. }
  assert (Hnone : forall g0, ret (@None Row, NestedLoopsJoin l' r' lcs rcs lrow') =
                             Done (row, it') g0 ->
                  (kept (NestedLoopsJoin l r lcs rcs lrow) it' /\
                   fits (NestedLoopsJoin l r lcs rcs lrow) row) /\
                  (forall y, row = Some y ->
                     Z.of_nat (length y) = (n_columns l + n_columns r - 1)%Z)).
  { intros g0 E. injection E as <- <- _.
    split; [split; [apply Hkept; exact Fl | apply fits_None] | discriminate]. }
  destruct lrow' as [a|]; [destruct rrow' as [b|]|]; try (eapply Hnone; exact H).
  apply bind_Done in H as (nested & g5 & g6 & Hjoin & H & _).
  apply bind_Done in H as ([] & g7 & g8 & _ & H & _).
  injection H as <- <- _.
  assert (Hwidth : Z.of_nat (length nested) = (n_columns l + n_columns r - 1)%Z).
  { destruct (M a b eq_refl eq_refl) as (rc & Hrc & Hlt).
    pose proof (@join_rows_if_match_length rcs rc a b nested g5 Hrc Hlt Hjoin) as Hlen.
    pose proof (Fl a eq_refl) as Ha. pose proof (Fr b eq_refl) as Hb.
    apply row_width_is_eq in Ha, Hb. rewrite (proj2 Hk1) in Hb. lia. }
  split; [|intros y E; injection E as <-; exact Hwidth].
  split; [apply Hkept; exact Fl|].
  intros y E. injection E as <-.
  destruct (M a b eq_refl eq_refl) as (rc & Hrc & Hlt).
  pose proof (@join_rows_if_match_length rcs rc a b nested g5 Hrc Hlt Hjoin) as Hlen.
  pose proof (Fl a eq_refl) as Ha. pose proof (Fr b eq_refl) as Hb.
  apply row_width_is_eq in Ha, Hb. apply row_width_is_eq.
  rewrite NestedLoopsJoin_n_columns, Hlcs, Hrcs.
  rewrite (proj2 Hk1) in Hb.
  rewrite to_unsigned_small; lia.
Qed.

Lemma next_ok_S : next_ok (next (S fuel)).
Proof.
  pose proof IHnext as IHn. pose proof IHopen as IHo.
  unfold next_ok in IHn. unfold open_ok in IHo.
  intros it row it' g Hwf H.
  destruct it as [t i e | index lo hi i e | c p | c cs | l r lcs rcs lrow
                 | c cols s i | c last].
  - eapply TableIterator_next_ok; eauto.
  - eapply IndexScan_next_ok; eauto.
  - cbn [next] in H. simpl in Hwf.
    apply bind_Done in H as ([row1 c1] & g1 & g2 & Hs & H & _).
    destruct (IHn _ _ _ _ Hwf Hs) as [Hk Hf].
    apply bind_Done in H as ([o c2] & g3 & g4 & Hloop & H & _).
    injection H as <- <- _.
    destruct (@Select_next_loop_ok (next fuel) IHnext p fuel row1 c1 o c2 g3
                (proj1 Hk) (fits_kept Hk Hf) Hloop) as [Hk2 Hf2].
    pose proof (kept_trans Hk Hk2) as K.
    split; [exact K | eapply fits_back; [exact Hk|exact Hf2]].
  - cbn [next] in H. simpl in Hwf.
    apply bind_Done in H as ([row1 c1] & g1 & g2 & Hs & H & _).
    destruct (IHn _ _ _ _ Hwf Hs) as [Hk Hf].
    destruct row1 as [r1|].
    + apply bind_Done in H as (projected & g3 & g4 & Hloop & H & _).
      apply bind_Done in H as ([] & g5 & g6 & _ & H & _).
      injection H as <- <- _. split; [split; [exact (proj1 Hk) | reflexivity]|].
      intros y E. injection E as <-. apply row_width_is_eq.
      apply Project_next_loop_length in Hloop. rewrite Hloop. reflexivity.
    + injection H as <- <- _. split; [split; [exact (proj1 Hk) | reflexivity]|].
      apply fits_None.
  - eapply (proj1 (@NestedLoopsJoin_next_ok l r lcs rcs lrow row it' g Hwf H)).
  - eapply Sort_next_ok; eauto.
  - cbn [next] in H. simpl in Hwf.
    apply bind_Done in H as ([row1 c1] & g1 & g2 & Hs & H & _).
    destruct (IHn _ _ _ _ Hwf Hs) as [Hk Hf].
    apply bind_Done in H as ([[o last'] c2] & g3 & g4 & Hloop & H & _).
    injection H as <- <- _.
    destruct (@Unique_next_loop_ok (next fuel) IHnext fuel row1 last c1 o last' c2 g3
                (proj1 Hk) (fits_kept Hk Hf) Hloop) as [Hk2 Hf2].
    pose proof (kept_trans Hk Hk2) as K.
    split; [exact K | eapply fits_back; [exact Hk|exact Hf2]].
Qed.

Lemma open_ok_S : open_ok (open (S fuel)).
Proof.
  pose proof IHnext as IHn. pose proof IHopen as IHo.
  unfold next_ok in IHn. unfold open_ok in IHo.
  intros it it' g Hwf H.
  destruct it as [t i e | index lo hi i e | c p | c cs | l r lcs rcs lrow
                 | c cols s i | c last]; cbn [open] in H.
  - injection H as <- _. split; auto.
  - injection H as <- _. split; auto.
  - simpl in Hwf.
    apply bind_Done in H as (c1 & g1 & g2 & Ho & H & _). injection H as <- _.
    exact (IHo _ _ _ Hwf Ho).
  - simpl in Hwf.
    apply bind_Done in H as (c1 & g1 & g2 & Ho & H & _). injection H as <- _.
    split; [exact (proj1 (IHo _ _ _ Hwf Ho)) | reflexivity].
  - apply NestedLoopsJoin_well_formed in Hwf.
    destruct Hwf as (Hl & Hr & Hlcs & Hrcs & Hsum & Hfl).
    apply bind_Done in H as (l1 & g1 & g2 & Hol & H & _).
    apply bind_Done in H as (r1 & g3 & g4 & Hor & H & _).
    apply bind_Done in H as ([lrow1 l2] & g5 & g6 & Hs & H & _).
    injection H as <- _.
    pose proof (IHo _ _ _ Hl Hol) as Kl. pose proof (IHo _ _ _ Hr Hor) as Kr.
    destruct (IHn _ _ _ _ (proj1 Kl) Hs) as [Kl2 Fl].
    pose proof (kept_trans Kl Kl2) as K.
    unfold kept. rewrite NestedLoopsJoin_well_formed, !NestedLoopsJoin_n_columns.
    destruct K as [Wl Nl]. destruct Kr as [Wr Nr]. rewrite Nl, Nr.
    repeat split; auto. intros y Hy. rewrite Nl. rewrite <- (proj2 Kl). auto.
  - simpl in Hwf. apply andb_prop in Hwf. destruct Hwf as [Hc _].
    apply bind_Done in H as (c1 & g1 & g2 & Ho & H & _).
    apply bind_Done in H as ([row1 c2] & g3 & g4 & Hs & H & _).
    apply bind_Done in H as ([[o acc] c3] & g5 & g6 & Hloop & H & _).
    apply bind_Done in H as ([] & g7 & g8 & _ & H & _).
    injection H as <- _.
    pose proof (IHo _ _ _ Hc Ho) as K1.
    destruct (IHn _ _ _ _ (proj1 K1) Hs) as [K2 F2].
    destruct (@Sort_open_loop_ok (next fuel) IHnext fuel row1 [] c2 o acc c3 g5
                (proj1 K2) (fits_kept K2 F2) eq_refl Hloop) as [K3 Hall].
    pose proof (kept_trans K1 (kept_trans K2 K3)) as K.
    split; [|exact (proj2 K)].
    simpl. rewrite (proj1 K). simpl.
    rewrite forallb_forall in Hall. apply forallb_forall. intros x Hx.
    rewrite (proj2 K3). apply Hall.
    eapply Permutation_in; [|exact Hx]. symmetry.
    apply std_sort_permutation. apply RowCompare_strict_weak_order.
  - simpl in Hwf.
    apply bind_Done in H as (c1 & g1 & g2 & Ho & H & _). injection H as <- _.
    exact (IHo _ _ _ Hwf Ho).
Qed.

End WidthInduction.

Section WidthTheorem.

Context {sorting : StdSort}.

Lemma methods_ok : forall fuel, next_ok (next fuel) /\ open_ok (open fuel).
Proof.
  induction fuel as [|fuel [IHn IHo]].
  - split; intros it; intros; discriminate.
  - split; [apply next_ok_S | apply open_ok_S]; assumption.
Qed.

Lemma call_ok (fuel : nat) (c : Call) (it it' : Iterator) (n : Z) (row : option Row)
    (g : list Row) :
  well_formed it = true -> call fuel c it = Done (n, row, it') g ->
  kept it it' /\ n = n_columns it /\ fits it row.
Proof.
  intros Hwf H. destruct (methods_ok fuel) as [Hn Ho]. destruct c; simpl in H.
  - apply bind_Done in H as (it1 & g1 & g2 & Hopen & H & _). injection H as <- <- <- _.
    pose proof (Ho _ _ _ Hwf Hopen) as K.
    split; [exact K|]. split; [exact (proj2 K) | apply fits_None].
  - apply bind_Done in H as ([row1 it1] & g1 & g2 & Hnext & H & _).
    injection H as <- <- <- _.
    destruct (Hn _ _ _ _ Hwf Hnext) as [K F].
    split; [exact K|]. split; [exact (proj2 K) | exact F].
  - injection H as <- <- <- _.
    split; [|split; [apply n_columns_close | apply fits_None]].
    split; [rewrite well_formed_close; exact Hwf | apply n_columns_close].
Qed.

Lemma calls_ok (fuel : nat) :
  forall cs it trace g,
    well_formed it = true -> calls fuel cs it = Done trace g ->
    Forall (fun answer =>
              fst answer = n_columns it /\
              forall row, snd answer = Some row -> Z.of_nat (length row) = n_columns it)
      trace.
Proof.
  induction cs as [|c cs IH]; intros it trace g Hwf H; simpl in H.
  - injection H as <- _. constructor.
  - apply bind_Done in H as ([[n row] it'] & g1 & g2 & Hc & H & _).
    apply bind_Done in H as (more & g3 & g4 & Hmore & H & _).
    injection H as <- _.
    destruct (@call_ok fuel c it it' n row g1 Hwf Hc) as (K & Hn & F).
    constructor.
    + simpl. split; [exact Hn|]. intros r Hr. apply row_width_is_eq. apply F. exact Hr.
    + specialize (IH _ _ _ (proj1 K) Hmore). rewrite (proj2 K) in IH. exact IH.
Qed.

End WidthTheorem.

(** C9.  For every well-formed operator and every sequence of open, next and
    close calls on it, [n_columns()] answers the same value after every call,
    and every row a [next] returns has exactly that many columns.  The rows
    NestedLoopsJoin returns have left width + right width - 1 columns, and the
    rows Project returns have [n_selected()] columns. *)
Theorem n_columns_is_the_width_of_every_row {sorting : StdSort}
    (fuel : nat) (cs : list Call) (it : Iterator)
    (trace : list (Z * option Row)) (g : list Row)
    (Hwf : well_formed it = true)
    (Hcalls : calls fuel cs it = Done trace g) :
  Forall (fun answer =>
            fst answer = n_columns it /\
            forall row, snd answer = Some row -> Z.of_nat (length row) = n_columns it)
    trace /\
  (forall l r lcs rcs lrow row it' g',
     it = NestedLoopsJoin l r lcs rcs lrow ->
     next fuel it = Done (Some row, it') g' ->
     Z.of_nat (length row) = (n_columns l + n_columns r - 1)%Z) /\
  (forall c sel row it' g',
     it = Project c sel ->
     next fuel it = Done (Some row, it') g' ->
     Z.of_nat (length row) = n_selected sel).
Proof.
  split; [eapply calls_ok; eauto|]. split.
  - intros l r lcs rcs lrow row it' g' -> H.
    destruct fuel as [|fuel']; [discriminate|].
    destruct (methods_ok fuel') as [Hn Ho].
    exact (proj2 (@NestedLoopsJoin_next_ok _ fuel' Hn Ho l r lcs rcs lrow (Some row) it' g'
                    Hwf H) row eq_refl).
  - intros c sel row it' g' -> H.
    destruct (methods_ok fuel) as [Hn _].
    destruct (Hn _ _ _ _ Hwf H) as [_ F].
    apply row_width_is_eq. exact (F row eq_refl).
Qed.

Lemma n_columns_is_the_width_of_every_row_witness :
  Forall (fun answer =>
            fst answer = 3%Z /\
            forall row, snd answer = Some row -> Z.of_nat (length row) = 3%Z)
    [(3%Z, None); (3%Z, Some ["1"; "x"; "p"]); (3%Z, None); (3%Z, None);
     (3%Z, None); (3%Z, Some ["1"; "x"; "p"])].
Proof.
  exact (proj1 (@n_columns_is_the_width_of_every_row ties_kept_sort 6
    [Open; Next; Next; Close; Open; Next]
    (NestedLoopsJoin (new_TableIterator (table_of 2 [["1"; "x"]; ["2"; "y"]]))
       (new_TableIterator (table_of 2 [["1"; "p"]; ["3"; "q"]]))
       {| cs_n_columns := 2; cs_columns := [0] |}
       {| cs_n_columns := 2; cs_columns := [0] |} None)
    _ _ eq_refl eq_refl)).
Defined.

(** ** NestedLoopsJoin *)

Lemma join_left_loop_spec (left : Row) :
  forall join_row, join_left_loop left join_row = join_row ++ left.
Proof.
  induction left as [|v left IH]; intros join_row; simpl.
  - rewrite app_nil_r. reflexivity.
  - rewrite IH, <- app_assoc. reflexivity.
Qed.

Lemma join_right_loop_spec (rcs : ColumnSelector) (rc : nat) :
  nth_error (cs_columns rcs) 0 = Some rc ->
  forall right i join_row,
    join_right_loop rcs i right join_row =
    Done (join_row ++
          if i <=? rc then firstn (rc - i) right ++ skipn (S (rc - i)) right else right) [].
Proof.
  intros Hrc. induction right as [|v right IH]; intros i join_row.
  - simpl. destruct (i <=? rc); rewrite ?firstn_nil, ?app_nil_r; reflexivity.
  - cbn [join_right_loop]. unfold selected. rewrite Hrc. simpl bind.
    destruct (Nat.eqb_spec i rc) as [->|Hne]; simpl negb; cbv iota.
    + rewrite IH. rewrite Nat.leb_refl, Nat.sub_diag.
      assert (H1 : (S rc <=? rc) = false) by (apply Nat.leb_gt; lia).
      rewrite H1. reflexivity.
    + rewrite IH. rewrite <- app_assoc. cbn [app].
      destruct (Nat.leb_spec i rc) as [Hle|Hgt].
      * assert (H1 : (S i <=? rc) = true) by (apply Nat.leb_le; lia).
        rewrite H1. replace (rc - i) with (S (rc - S i)) by lia. reflexivity.
      * assert (H1 : (S i <=? rc) = false) by (apply Nat.leb_gt; lia).
        rewrite H1. reflexivity.
Qed.

Lemma join_rows_if_match_spec (rcs : ColumnSelector) (rc : nat) (left right : Row) :
  nth_error (cs_columns rcs) 0 = Some rc ->
  NestedLoopsJoin_join_rows_if_match rcs left right = Done (joined rc left right) [].
Proof.
  intros Hrc. unfold NestedLoopsJoin_join_rows_if_match, joined.
  rewrite (join_right_loop_spec _ Hrc), join_left_loop_spec. simpl.
  rewrite Nat.sub_0_r. reflexivity.
Qed.

Lemma NestedLoopsJoin_match_spec (lcs rcs : ColumnSelector) (lc rc : nat) (l r : Row) :
  nth_error (cs_columns lcs) 0 = Some lc ->
  nth_error (cs_columns rcs) 0 = Some rc ->
  lc < length l -> rc < length r ->
  NestedLoopsJoin_match lcs rcs l r = Done (rows_match lc rc l r) [].
Proof.
  intros Hlc Hrc Hl Hr. unfold NestedLoopsJoin_match, selected, Row_at, rows_match.
  rewrite Hlc, Hrc. simpl.
  destruct (nth_error l lc) as [lv|] eqn:El; [|apply nth_error_None in El; lia].
  simpl.
  destruct (nth_error r rc) as [rv|] eqn:Er; [|apply nth_error_None in Er; lia].
  reflexivity.
Qed.

Lemma find_from_not_nil (lc rc : nat) (r : Row) (cur : list Row) :
  find_from lc rc r cur <> Some [].
Proof.
  induction cur as [|l rest IH]; simpl; [discriminate|].
  destruct (rows_match lc rc l r); [discriminate | exact IH].
Qed.

Lemma NestedLoopsJoin_rows_length (lc rc : nat) (L : list Row) :
  forall R cur, length (NestedLoopsJoin_rows lc rc L cur R) <= length R.
Proof.
  induction R as [|r R IH]; intros cur; simpl; [lia|].
  destruct cur as [|a rest]; [simpl; lia|].
  destruct (find_from lc rc r (a :: rest)) as [[|l rest']|].
  - specialize (IH L). lia.
  - simpl. specialize (IH (l :: rest')). lia.
  - specialize (IH L). lia.
Qed.

Section JoinLoop.

Variables step_l step_r : Iterator -> outcome (option Row * Iterator).
Variable op_l : Iterator -> outcome Iterator.
Variables lcs rcs : ColumnSelector.
Variables lc rc : nat.
Variable L : list Row.
Variable Rep : Iterator -> list Row -> Prop.
Variable r_end : Iterator.

Hypothesis Hlc : nth_error (cs_columns lcs) 0 = Some lc.
Hypothesis Hrc : nth_error (cs_columns rcs) 0 = Some rc.
Hypothesis L_wide : all_have_column lc L = true.
Hypothesis left_next :
  forall lit rest, Rep lit rest ->
  exists lit' g, step_l lit = Done (hd_error rest, lit') g /\ Rep lit' (tl rest).
Hypothesis left_reopen :
  forall lit rest, Rep lit rest ->
  exists lit0 g, op_l (close lit) = Done lit0 g /\ Rep lit0 L.

Lemma NestedLoopsJoin_rows_skip (a a' b : Row) (rest R : list Row) :
  rows_match lc rc a b = false ->
  NestedLoopsJoin_rows lc rc L (a :: a' :: rest) (b :: R) =
  NestedLoopsJoin_rows lc rc L (a' :: rest) (b :: R).
Proof. intros H. simpl. rewrite H. reflexivity. Qed.

Lemma NestedLoopsJoin_rows_restart (a b : Row) (R : list Row) :
  rows_match lc rc a b = false ->
  NestedLoopsJoin_rows lc rc L [a] (b :: R) = NestedLoopsJoin_rows lc rc L L R.
Proof. intros H. simpl. rewrite H. reflexivity. Qed.

Lemma NestedLoopsJoin_rows_match (a b : Row) (rest R : list Row) :
  rows_match lc rc a b = true ->
  NestedLoopsJoin_rows lc rc L (a :: rest) (b :: R) =
  joined rc a b :: NestedLoopsJoin_rows lc rc L (a :: rest) R.
Proof. intros H. simpl. rewrite H. reflexivity. Qed.

Lemma NestedLoopsJoin_rows_no_left (cur R : list Row) :
  hd_error cur = None -> NestedLoopsJoin_rows lc rc L cur R = [].
Proof. destruct cur; [|discriminate]. intros _. destruct R; reflexivity. Qed.

Lemma NestedLoopsJoin_next_loop_spec :
  forall R r, Yields step_r r R r_end -> all_have_column rc R = true ->
  forall rest lit (a b : Row) k,
    Rep lit rest -> all_have_column lc (a :: rest) = true -> rc < length b ->
    length rest < length L ->
    need L rest R <= k ->
    exists lrow2 rrow2 lit2 r2 g,
      NestedLoopsJoin_next_loop step_l op_l step_r lcs rcs k (Some a) (Some b) lit r =
        Done (lrow2, rrow2, lit2, r2) g /\
      match lrow2, rrow2 with
      | Some a2, Some b2 =>
          exists rest2 R2,
            Rep lit2 rest2 /\ Yields step_r r2 R2 r_end /\ length R2 <= length R /\
            length rest2 < length L /\
            all_have_column lc (a2 :: rest2) = true /\ all_have_column rc R2 = true /\
            rows_match lc rc a2 b2 = true /\
            NestedLoopsJoin_rows lc rc L (a :: rest) (b :: R) =
            joined rc a2 b2 :: NestedLoopsJoin_rows lc rc L (a2 :: rest2) R2
      | _, _ => NestedLoopsJoin_rows lc rc L (a :: rest) (b :: R) = []
      end.
Proof.
  intros R r HY. 
  induction HY as [r r' g0 Hr | r b' r1 g0 R r' Hr HY IHR]; intros Rwide;
    induction rest as [|a' rest' IHrest]; intros lit a b k HRep Hwide Hb Hrest Hk;
    (destruct k as [|k]; [unfold need in Hk; lia|]);
    cbn [NestedLoopsJoin_next_loop];
    (assert (Ha : lc < length a)
       by (simpl in Hwide; apply andb_prop in Hwide; apply Nat.ltb_lt; tauto));
    rewrite (@NestedLoopsJoin_match_spec lcs rcs lc rc a b Hlc Hrc Ha Hb); simpl bind;
    destruct (rows_match lc rc a b) eqn:Hm;
    try (exists (Some a), (Some b), lit, r, []; split; [reflexivity|];
         eexists; eexists; repeat split;
         [ exact HRep | econstructor; eassumption | lia | exact Hrest | exact Hwide
         | exact Rwide
         | exact Hm | apply NestedLoopsJoin_rows_match; exact Hm ]; fail);
    destruct (left_next HRep) as (lit' & g1 & Hs & HRep'); simpl in Hs, HRep';
    rewrite (bind_step _ Hs); cbv beta iota.
  - (* left exhausted, right exhausted *)
    rewrite (bind_step _ Hr). cbv beta iota.
    destruct k as [|k]; [unfold need in Hk; simpl in Hk; lia|].
    rewrite NestedLoopsJoin_rows_restart by exact Hm. simpl.
    eexists None, None, lit', r', _. split; reflexivity.
  - (* more left rows, right exhausted *)
    assert (Hwide' : all_have_column lc (a' :: rest') = true)
      by (simpl in Hwide; apply andb_prop in Hwide; tauto).
    destruct (IHrest lit' a' b k HRep' Hwide' Hb ltac:(simpl in Hrest; lia)
                ltac:(unfold need in *; simpl in *; lia))
      as (lrow2 & rrow2 & lit2 & r2 & g2 & Hloop & Hres).
    rewrite Hloop. eexists lrow2, rrow2, lit2, r2, _. split; [reflexivity|].
    rewrite NestedLoopsJoin_rows_skip by exact Hm. exact Hres.
  - (* left exhausted, another right row *)
    rewrite (bind_step _ Hr). cbv beta iota.
    destruct (left_reopen HRep') as (lit0 & g2 & Ho & HRep0).
    rewrite (bind_step _ Ho).
    destruct (left_next HRep0) as (lit1 & g3 & Hs1 & HRep1).
    rewrite (bind_step _ Hs1). cbv beta iota.
    assert (Rwide' : all_have_column rc R = true)
      by (simpl in Rwide; apply andb_prop in Rwide; tauto).
    assert (Hb' : rc < length b')
      by (simpl in Rwide; apply andb_prop in Rwide; apply Nat.ltb_lt; tauto).
    rewrite NestedLoopsJoin_rows_restart by exact Hm.
    destruct (hd_error L) as [a0|] eqn:Ehd.
    + assert (EL : a0 :: tl L = L) by (destruct L; simpl in *; congruence).
      assert (Hlen : length L = S (length (tl L))) by (rewrite <- EL at 1; reflexivity).
      assert (Hwide0 : all_have_column lc (a0 :: tl L) = true)
        by (rewrite EL; exact L_wide).
      destruct (IHR Rwide' (tl L) lit1 a0 b' k HRep1 Hwide0 Hb' ltac:(lia)
                  ltac:(unfold need in *; simpl in *; lia))
        as (lrow2 & rrow2 & lit2 & r2 & g4 & Hloop & Hres).
      rewrite Hloop. eexists lrow2, rrow2, lit2, r2, _. split; [reflexivity|].
      rewrite EL in Hres.
      destruct lrow2 as [a2|]; [destruct rrow2 as [b2|]|]; try exact Hres.
      destruct Hres as (rest2 & R2 & H1 & H2 & H3 & H4 & H5 & H6 & H7 & H8).
      exists rest2, R2. repeat split; auto. simpl. lia.
    + destruct k as [|k]; [unfold need in Hk; simpl in Hk; lia|].
      cbn [NestedLoopsJoin_next_loop].
      eexists None, (Some b'), lit1, r1, _. split; [reflexivity|].
      apply NestedLoopsJoin_rows_no_left. exact Ehd.
  - (* more left rows, another right row to come *)
    assert (Hwide' : all_have_column lc (a' :: rest') = true)
      by (simpl in Hwide; apply andb_prop in Hwide; tauto).
    destruct (IHrest lit' a' b k HRep' Hwide' Hb ltac:(simpl in Hrest; lia)
                ltac:(unfold need in *; simpl in *; lia))
      as (lrow2 & rrow2 & lit2 & r2 & g2 & Hloop & Hres).
    rewrite Hloop. eexists lrow2, rrow2, lit2, r2, _. split; [reflexivity|].
    rewrite NestedLoopsJoin_rows_skip by exact Hm. exact Hres.
Qed.

End JoinLoop.

Section JoinDrain.

Context {sorting : StdSort}.
Variable fuel : nat.
Variables lcs rcs : ColumnSelector.
Variables lc rc : nat.
Variable L : list Row.
Variable Rep : Iterator -> list Row -> Prop.
Variable r_end : Iterator.

Hypothesis Hlc : nth_error (cs_columns lcs) 0 = Some lc.
Hypothesis Hrc : nth_error (cs_columns rcs) 0 = Some rc.
Hypothesis L_wide : all_have_column lc L = true.
Hypothesis left_next :
  forall lit rest, Rep lit rest ->
  exists lit' g, next fuel lit = Done (hd_error rest, lit') g /\ Rep lit' (tl rest).
Hypothesis left_reopen :
  forall lit rest, Rep lit rest ->
  exists lit0 g, open fuel (close lit) = Done lit0 g /\ Rep lit0 L.

Lemma NestedLoopsJoin_next_spec :
  forall R r, Yields (next fuel) r R r_end -> all_have_column rc R = true ->
  forall lit lrow rest,
    Rep lit rest -> all_have_column lc (current lrow rest) = true ->
    length (current lrow rest) <= length L ->
    S (length L) + length R * S (length L) < fuel ->
    exists o it' g,
      next (S fuel) (NestedLoopsJoin lit r lcs rcs lrow) = Done (o, it') g /\
      match o with
      | Some x =>
          exists lit2 r2 a2 rest2 R2,
            it' = NestedLoopsJoin lit2 r2 lcs rcs (Some a2) /\
            Rep lit2 rest2 /\ Yields (next fuel) r2 R2 r_end /\
            length R2 < length R /\ length (a2 :: rest2) <= length L /\
            all_have_column lc (a2 :: rest2) = true /\ all_have_column rc R2 = true /\
            NestedLoopsJoin_rows lc rc L (current lrow rest) R =
            x :: NestedLoopsJoin_rows lc rc L (a2 :: rest2) R2
      | None => NestedLoopsJoin_rows lc rc L (current lrow rest) R = []
      end.
Proof.
  intros R r HY Rwide lit lrow rest HRep Hwide Hcur Hfuel.
  cbn [next].
  inversion HY as [r0 r0' g0 Hr | r0 b r1 g0 R' r0' Hr HY']; subst.
  - rewrite (bind_step _ Hr). cbv beta iota.
    destruct fuel as [|k]; [lia|]. cbn [NestedLoopsJoin_next_loop].
    destruct lrow as [a|]; simpl; eexists None, _, _; split; reflexivity.
  - rewrite (bind_step _ Hr). cbv beta iota.
    destruct lrow as [a|].
    + assert (Rwide' : all_have_column rc R' = true)
        by (simpl in Rwide; apply andb_prop in Rwide; tauto).
      assert (Hb : rc < length b)
        by (simpl in Rwide; apply andb_prop in Rwide; apply Nat.ltb_lt; tauto).
      simpl in Hcur.
      destruct (@NestedLoopsJoin_next_loop_spec (next fuel) (next fuel) (open fuel)
                  lcs rcs lc rc L Rep r_end Hlc Hrc L_wide left_next left_reopen
                  R' r1 HY' Rwide' rest lit a b fuel HRep Hwide Hb ltac:(lia)
                  ltac:(unfold need; simpl in Hfuel; lia))
        as (lrow2 & rrow2 & lit2 & r2 & g2 & Hloop & Hres).
      rewrite Hloop. cbn [bind].
      destruct lrow2 as [a2|]; [destruct rrow2 as [b2|]|].
      * destruct Hres as (rest2 & R2 & H1 & H2 & H3 & H4 & H5 & H6 & H7 & H8).
        rewrite (@join_rows_if_match_spec rcs rc a2 b2 Hrc). simpl.
        eexists (Some (joined rc a2 b2)), _, _. split; [reflexivity|].
        exists lit2, r2, a2, rest2, R2. repeat split; auto; simpl; lia.
      * simpl. eexists None, _, _. split; [reflexivity | exact Hres].
      * simpl. eexists None, _, _. split; [reflexivity | exact Hres].
    + destruct fuel as [|k]; [lia|]. simpl.
      eexists None, _, _. split; reflexivity.
Qed.

Lemma NestedLoopsJoin_Yields :
  forall n R, length R <= n ->
  forall r lit lrow rest,
    Yields (next fuel) r R r_end -> all_have_column rc R = true ->
    Rep lit rest -> all_have_column lc (current lrow rest) = true ->
    length (current lrow rest) <= length L ->
    S (length L) + length R * S (length L) < fuel ->
    exists it',
      Yields (next (S fuel)) (NestedLoopsJoin lit r lcs rcs lrow)
        (NestedLoopsJoin_rows lc rc L (current lrow rest) R) it'.
Proof.
  induction n as [|n IH]; intros R Hn r lit lrow rest HY Rwide HRep Hwide Hcur Hfuel;
    destruct (NestedLoopsJoin_next_spec HY Rwide lrow HRep Hwide Hcur Hfuel)
      as (o & it' & g & Hnext & Ho);
    destruct o as [x|];
    try (rewrite Ho; exists it'; eapply Yields_end; exact Hnext).
  - destruct Ho as (lit2 & r2 & a2 & rest2 & R2 & _ & _ & _ & Hlt & _). lia.
  - destruct Ho as (lit2 & r2 & a2 & rest2 & R2 & -> & H1 & H2 & H3 & H4 & H5 & H6 & H7).
    destruct (IH R2 ltac:(lia) r2 lit2 (Some a2) rest2 H2 H6 H1 H5 H4) as [it'' HY''].
    { assert (length R2 * S (length L) <= length R * S (length L))
        by (apply Nat.mul_le_mono_r; lia).
      lia. }
    exists it''. rewrite H7. eapply Yields_row; [exact Hnext | exact HY''].
Qed.

End JoinDrain.

(** The loop of NestedLoopsJoin::next ends with a left and a right row only
    when [match] accepted them. *)
Lemma NestedLoopsJoin_next_loop_matched
    (step_l step_r : Iterator -> outcome (option Row * Iterator))
    (op_l : Iterator -> outcome Iterator) (lcs rcs : ColumnSelector) :
  forall k lrow rrow l r (a b : Row) l' r' g,
    NestedLoopsJoin_next_loop step_l op_l step_r lcs rcs k lrow rrow l r =
      Done (Some a, Some b, l', r') g ->
    NestedLoopsJoin_match lcs rcs a b = Done true [].
Proof.
  induction k as [|k IH]; intros lrow rrow l r a b l' r' g H; [discriminate|].
  cbn [NestedLoopsJoin_next_loop] in H.
  destruct lrow as [a0|]; [destruct rrow as [b0|]|]; try discriminate.
  apply bind_Done in H as (matched & g1 & g2 & Hm & H & _).
  destruct matched.
  - injection H as <- <- _ _ _.
    destruct (NestedLoopsJoin_match_in_range _ _ _ _ Hm) as (lc & rc & lv & rv & H1 & H2 & H3 & H4 & H5).
    unfold NestedLoopsJoin_match, selected, Row_at. rewrite H1, H3. simpl.
    rewrite H2. simpl. rewrite H4. simpl. rewrite <- H5. reflexivity.
  - apply bind_Done in H as ([lrow1 l1] & g3 & g4 & _ & H & _).
    destruct lrow1 as [x|].
    + eapply IH; eauto.
    + apply bind_Done in H as ([rrow1 r1] & g5 & g6 & _ & H & _).
      destruct rrow1 as [y|].
      * apply bind_Done in H as (l2 & g7 & g8 & _ & H & _).
        apply bind_Done in H as ([lrow2 l3] & g9 & g10 & _ & H & _).
        eapply IH; eauto.
      * eapply IH; eauto.
Qed.

(** C4.  On a match NestedLoopsJoin::join_rows_if_match builds all columns
    of the left row followed by all columns of the right row but the joined-on
    right column, and every row NestedLoopsJoin::next returns is built so from
    a left and a right row that [match] accepted.  The join of (1,x), (2,y) on
    column 0 with (1,p), (3,q) on column 0 returns (1,x,p) and then no row. *)
Theorem NestedLoopsJoin_returns_joined_matching_rows {sorting : StdSort}
    (rcs : ColumnSelector) (rc : nat)
    (Hrc : nth_error (cs_columns rcs) 0 = Some rc) :
  (forall left right,
     NestedLoopsJoin_join_rows_if_match rcs left right =
     Done (left ++ firstn rc right ++ skipn (S rc) right) []) /\
  (forall fuel l r lcs lrow row it' g,
     next fuel (NestedLoopsJoin l r lcs rcs lrow) = Done (Some row, it') g ->
     exists left right,
       NestedLoopsJoin_match lcs rcs left right = Done true [] /\
       row = left ++ firstn rc right ++ skipn (S rc) right) /\
  (it <- new_NestedLoopsJoin (new_TableIterator (table_of 2 [["1"; "x"]; ["2"; "y"]])) [0]
           (new_TableIterator (table_of 2 [["1"; "p"]; ["3"; "q"]])) [0] ;;
   it <- open 6 it ;;
   '(first, it) <- next 6 it ;;
   '(second, _) <- next 6 it ;;
   ret (first, second)) = Done (Some ["1"; "x"; "p"], None) [["1"; "p"]].
Proof.
  split; [|split; [|reflexivity]].
  - intros left right. apply join_rows_if_match_spec. exact Hrc.
  - intros fuel l r lcs lrow row it' g H.
    destruct fuel as [|fuel]; [discriminate|]. cbn [next] in H.
    apply bind_Done in H as ([rrow r1] & g1 & g2 & _ & H & _).
    apply bind_Done in H as ([[[lrow' rrow'] l'] r'] & g3 & g4 & Hloop & H & _).
    destruct lrow' as [a|]; [destruct rrow' as [b|]|]; try discriminate.
    apply bind_Done in H as (nested & g5 & g6 & Hjoin & H & _).
    apply bind_Done in H as ([] & g7 & g8 & _ & H & _).
    injection H as <- _ _.
    exists a, b. split.
    + eapply NestedLoopsJoin_next_loop_matched. exact Hloop.
    + rewrite (@join_rows_if_match_spec rcs rc a b Hrc) in Hjoin.
      injection Hjoin as <- _. reflexivity.
Qed.

Lemma NestedLoopsJoin_returns_joined_matching_rows_witness :
  nth_error (cs_columns {| cs_n_columns := 3; cs_columns := [1] |}) 0 = Some 1 /\
  NestedLoopsJoin_join_rows_if_match {| cs_n_columns := 3; cs_columns := [1] |}
    ["a"; "k"] ["p"; "k"; "q"] = Done ["a"; "k"; "p"; "q"] [].
Proof.
  split; [reflexivity|].
  exact (proj1 (@NestedLoopsJoin_returns_joined_matching_rows ties_kept_sort
                  {| cs_n_columns := 3; cs_columns := [1] |} 1 eq_refl)
           ["a"; "k"] ["p"; "k"; "q"]).
Defined.

(** ** NestedLoopsJoin over two tables *)

Section JoinOverTables.

Context {sorting : StdSort}.
Variable fuel : nat.
Variable t : Table.

Lemma scans_next :
  forall lit rest, scans t lit rest ->
  exists lit' g, next (S fuel) lit = Done (hd_error rest, lit') g /\ scans t lit' (tl rest).
Proof.
  intros lit rest (i & Hi & -> & ->).
  rewrite TableIterator_next by exact Hi.
  destruct (nth_error (rows t) i) as [row|] eqn:Hrow.
  - rewrite (skipn_nth_error _ _ Hrow). simpl.
    eexists _, _. split; [reflexivity|].
    exists (S i). repeat split; auto.
    apply Nat.le_succ_l. apply nth_error_Some. congruence.
  - apply nth_error_None in Hrow. assert (i = length (rows t)) by lia. subst i.
    rewrite skipn_all. simpl.
    eexists _, _. split; [reflexivity|].
    exists (length (rows t)). rewrite skipn_all. auto.
Qed.

Lemma scans_reopen :
  forall lit rest, scans t lit rest ->
  exists lit0 g, open (S fuel) (close lit) = Done lit0 g /\ scans t lit0 (rows t).
Proof.
  intros lit rest (i & Hi & -> & ->). simpl.
  eexists _, _. split; [reflexivity|].
  exists 0. repeat split; auto. lia.
Qed.

End JoinOverTables.

Lemma current_hd_tl (l : list Row) : current (hd_error l) (tl l) = l.
Proof. destruct l; reflexivity. Qed.

Section JoinTablesDrain.

Context {sorting : StdSort}.

Lemma NestedLoopsJoin_over_tables (fuel : nat) (lt rt : Table)
    (lcs rcs : ColumnSelector) (lc rc : nat) (lrow0 : option Row) :
  nth_error (cs_columns lcs) 0 = Some lc ->
  nth_error (cs_columns rcs) 0 = Some rc ->
  all_have_column lc (rows lt) = true ->
  all_have_column rc (rows rt) = true ->
  S (length (rows lt)) * S (length (rows rt)) < fuel ->
  exists it' g,
    (it <- open (S fuel)
             (NestedLoopsJoin (new_TableIterator lt) (new_TableIterator rt) lcs rcs lrow0) ;;
     drain (S fuel) it) =
    Done (NestedLoopsJoin_rows lc rc (rows lt) (rows lt) (rows rt), it') g.
Proof.
  intros Hlc Hrc Hlw Hrw Hfuel.
  destruct fuel as [|f]; [lia|].
  unfold new_TableIterator. cbn -[next drain].
  assert (H0 : scans lt (TableIterator lt 0 (length (rows lt))) (rows lt)).
  { exists 0. repeat split; auto. lia. }
  destruct (scans_next f H0) as (lit & g1 & Hnext & Hscan).
  rewrite Hnext. cbn [bind ret].
  pose proof (proj2 (TableIterator_open_Yields f rt 0 0)) as HYr.
  destruct (@NestedLoopsJoin_Yields _ (S f) lcs rcs lc rc (rows lt) (scans lt)
              (TableIterator rt (length (rows rt)) (length (rows rt)))
              Hlc Hrc Hlw (scans_next f (t := lt)) (scans_reopen f (t := lt))
              (length (rows rt)) (rows rt) (le_n _)
              (TableIterator rt 0 (length (rows rt))) lit (hd_error (rows lt))
              (tl (rows lt)) HYr Hrw Hscan)
    as [it' HY].
  - rewrite current_hd_tl. exact Hlw.
  - rewrite current_hd_tl. lia.
  - lia.
  - rewrite current_hd_tl in HY.
    destruct (Yields_drain_loop HY (k := S (S f))) as [g Hd].
    { pose proof (NestedLoopsJoin_rows_length lc rc (rows lt) (rows rt) (rows lt)). lia. }
    unfold drain. rewrite Hd. eexists _, _. reflexivity.
Qed.

(** The cursor of a right child that is a TableIterator only moves forward
    in the loop of NestedLoopsJoin::next. *)
Lemma NestedLoopsJoin_next_loop_right_cursor (f : nat)
    (step_l : Iterator -> outcome (option Row * Iterator))
    (op_l : Iterator -> outcome Iterator) (lcs rcs : ColumnSelector) (rt : Table) :
  forall k lrow rrow l j lrow' rrow' l' r' g,
    j <= length (rows rt) ->
    NestedLoopsJoin_next_loop step_l op_l (next (S f)) lcs rcs k lrow rrow l
      (TableIterator rt j (length (rows rt))) = Done (lrow', rrow', l', r') g ->
    exists j', r' = TableIterator rt j' (length (rows rt)) /\
               j <= j' <= length (rows rt) /\
               (rrow = None -> rrow' = None).
Proof.
  induction k as [|k IH]; intros lrow rrow l j lrow' rrow' l' r' g Hj H; [discriminate|].
  cbn [NestedLoopsJoin_next_loop] in H.
  assert (Hstop : forall g0, ret (lrow, rrow, l, TableIterator rt j (length (rows rt))) =
                             Done (lrow', rrow', l', r') g0 ->
                  exists j', r' = TableIterator rt j' (length (rows rt)) /\
                             j <= j' <= length (rows rt) /\
                             (rrow = None -> rrow' = None)).
  { intros g0 E. injection E as _ <- _ <- _. exists j. auto. }
  destruct lrow as [a|]; [destruct rrow as [b|]|]; try (eapply Hstop; exact H).
  apply bind_Done in H as (matched & g1 & g2 & _ & H & _).
  destruct matched; [eapply Hstop; exact H|].
  apply bind_Done in H as ([lrow1 l1] & g3 & g4 & _ & H & _).
  destruct lrow1 as [x|].
  - destruct (IH _ _ _ _ _ _ _ _ _ Hj H) as (j' & -> & Hj' & _).
    exists j'. repeat split; try lia. discriminate.
  - apply bind_Done in H as ([rrow1 r1] & g5 & g6 & Hs & H & _).
    rewrite TableIterator_next in Hs by exact Hj.
    assert (Hr1 : exists j1, r1 = TableIterator rt j1 (length (rows rt)) /\
                             j <= j1 <= length (rows rt)).
    { destruct (nth_error (rows rt) j) as [row|] eqn:Hrow; injection Hs as _ <- _.
      - exists (S j). split; [reflexivity|].
        assert (j < length (rows rt)) by (apply nth_error_Some; congruence). lia.
      - exists j. split; [reflexivity | lia]. }
    destruct Hr1 as (j1 & -> & Hj1).
    destruct rrow1 as [y|].
    + apply bind_Done in H as (l2 & g7 & g8 & _ & H & _).
      apply bind_Done in H as ([lrow2 l3] & g9 & g10 & _ & H & _).
      destruct (IH _ _ _ _ _ _ _ _ _ (proj2 Hj1) H) as (j' & -> & Hj' & _).
      exists j'. repeat split; try lia. discriminate.
    + destruct (IH _ _ _ _ _ _ _ _ _ (proj2 Hj1) H) as (j' & -> & Hj' & _).
      exists j'. repeat split; try lia. discriminate.
Qed.

Lemma next_NestedLoopsJoin (fuel : nat) (l r : Iterator) (lcs rcs : ColumnSelector)
    (lrow : option Row) :
  next (S fuel) (NestedLoopsJoin l r lcs rcs lrow) =
  ('(r_row, _right) <- next fuel r ;;
   '(_left_row, r_row, _left, _right) <-
      NestedLoopsJoin_next_loop (next fuel) (open fuel) (next fuel)
        lcs rcs fuel lrow r_row l _right ;;
   match _left_row, r_row with
   | Some a, Some b =>
       nested <- NestedLoopsJoin_join_rows_if_match rcs a b ;;
       _ <- Row_reclaim r_row ;;
       ret (Some nested, NestedLoopsJoin _left _right lcs rcs _left_row)
   | _, _ => ret (None, NestedLoopsJoin _left _right lcs rcs _left_row)
   end).
Proof. reflexivity. Qed.

Lemma NestedLoopsJoin_next_right_cursor (f : nat) (l : Iterator) (rt : Table)
    (lcs rcs : ColumnSelector) (lrow : option Row) (j : nat)
    (o : option Row) (it' : Iterator) (g : list Row) :
  j <= length (rows rt) ->
  next (S (S f))
    (NestedLoopsJoin l (TableIterator rt j (length (rows rt))) lcs rcs lrow) =
    Done (o, it') g ->
  exists l' j' lrow',
    it' = NestedLoopsJoin l' (TableIterator rt j' (length (rows rt))) lcs rcs lrow' /\
    j <= j' <= length (rows rt) /\
    (j < length (rows rt) -> j < j') /\
    (forall row, o = Some row -> j < j').
Proof.
  intros Hj H. rewrite next_NestedLoopsJoin in H.
  apply bind_Done in H as ([rrow r1] & g1 & g2 & Hs & H & _).
  rewrite TableIterator_next in Hs by exact Hj.
  apply bind_Done in H as ([[[lrow' rrow'] l'] r'] & g3 & g4 & Hloop & H & _).
  destruct (nth_error (rows rt) j) as [row|] eqn:Hrow; injection Hs as <- <- _.
  - assert (Hlt : j < length (rows rt)) by (apply nth_error_Some; congruence).
    apply NestedLoopsJoin_next_loop_right_cursor in Hloop; [|exact Hlt].
    destruct Hloop as (j' & -> & Hj' & _).
    exists l', j', lrow'. 
    assert (E : it' = NestedLoopsJoin l' (TableIterator rt j' (length (rows rt)))
                        lcs rcs lrow').
    { destruct lrow' as [a|]; [destruct rrow' as [b|]|].
      - apply bind_Done in H as (nested & g5 & g6 & _ & H & _).
        apply bind_Done in H as ([] & g7 & g8 & _ & H & _).
        injection H as _ <- _. reflexivity.
      - injection H as _ <- _. reflexivity.
      - injection H as _ <- _. reflexivity. }
    repeat split; auto; lia.
  - apply nth_error_None in Hrow.
    apply NestedLoopsJoin_next_loop_right_cursor in Hloop; [|exact Hj].
    destruct Hloop as (j' & -> & Hj' & Hnone).
    rewrite (Hnone eq_refl) in H.
    exists l', j', lrow'.
    assert (E : o = None /\
                it' = NestedLoopsJoin l' (TableIterator rt j' (length (rows rt)))
                        lcs rcs lrow').
    { destruct lrow' as [a|]; injection H as <- <- _; auto. }
    destruct E as [-> ->]. repeat split; auto; try lia. discriminate.
Qed.

End JoinTablesDrain.

(** C10.  For every pair of tables scanned as the left and the right child
    (every row holding its join column), NestedLoopsJoin opened and drained
    returns [NestedLoopsJoin_rows]: each right row is joined at most once,
    with the first left row that matches it at or after the current left row,
    so the rows returned are at most as many as the rows of the right child.
    Every call to next moves the cursor of the right child forward by at least
    one row while the right child has rows left, and a call that returns a row
    has moved it. *)
Theorem NestedLoopsJoin_returns_at_most_the_right_rows {sorting : StdSort}
    (fuel : nat) (left_table right_table : Table)
    (lcs rcs : ColumnSelector) (lc rc : nat)
    (Hlc : nth_error (cs_columns lcs) 0 = Some lc)
    (Hrc : nth_error (cs_columns rcs) 0 = Some rc)
    (Hleft : all_have_column lc (rows left_table) = true)
    (Hright : all_have_column rc (rows right_table) = true)
    (Hfuel : S (length (rows left_table)) * S (length (rows right_table)) < fuel) :
  (exists it' g,
     (it <- open (S fuel)
              (NestedLoopsJoin (new_TableIterator left_table)
                 (new_TableIterator right_table) lcs rcs None) ;;
      drain (S fuel) it) =
     Done (NestedLoopsJoin_rows lc rc (rows left_table) (rows left_table)
             (rows right_table), it') g) /\
  length (NestedLoopsJoin_rows lc rc (rows left_table) (rows left_table)
            (rows right_table)) <= length (rows right_table) /\
  (forall l lrow j o it' g,
     j <= length (rows right_table) ->
     next (S fuel)
       (NestedLoopsJoin l (TableIterator right_table j (length (rows right_table)))
          lcs rcs lrow) = Done (o, it') g ->
     exists l' j' lrow',
       it' = NestedLoopsJoin l'
               (TableIterator right_table j' (length (rows right_table))) lcs rcs lrow' /\
       j <= j' <= length (rows right_table) /\
       (j < length (rows right_table) -> j < j') /\
       (forall row, o = Some row -> j < j')) /\
  (forall L a rest r R,
     rows_match lc rc a r = true ->
     NestedLoopsJoin_rows lc rc L (a :: rest) (r :: R) =
     joined rc a r :: NestedLoopsJoin_rows lc rc L (a :: rest) R) /\
  (it <- new_NestedLoopsJoin
           (new_TableIterator (table_of 2 [["1"; "a"]; ["1"; "b"]])) [0]
           (new_TableIterator (table_of 2 [["1"; "p"]; ["1"; "q"]])) [0] ;;
   it <- open 12 it ;;
   '(returned, _) <- drain 12 it ;;
   ret returned) = Done [["1"; "a"; "p"]; ["1"; "a"; "q"]] [["1"; "p"]; ["1"; "q"]].
Proof.
  split; [|split; [|split; [|split; [|reflexivity]]]].
  - apply NestedLoopsJoin_over_tables; assumption.
  - apply NestedLoopsJoin_rows_length.
  - intros l lrow j o it' g Hj H.
    destruct fuel as [|f]; [lia|].
    eapply NestedLoopsJoin_next_right_cursor; eauto.
  - intros L a rest r R Hm. simpl. rewrite Hm. reflexivity.
Qed.

Lemma NestedLoopsJoin_returns_at_most_the_right_rows_witness :
  all_have_column 0 [["1"; "a"]; ["2"; "b"]] = true /\
  all_have_column 0 [["2"; "p"]; ["1"; "q"]; ["2"; "r"]] = true /\
  exists it' g,
    (it <- open (sorting := ties_kept_sort) 14
             (NestedLoopsJoin
                (new_TableIterator (table_of 2 [["1"; "a"]; ["2"; "b"]]))
                (new_TableIterator (table_of 2 [["2"; "p"]; ["1"; "q"]; ["2"; "r"]]))
                {| cs_n_columns := 2; cs_columns := [0] |}
                {| cs_n_columns := 2; cs_columns := [0] |} None) ;;
     drain (sorting := ties_kept_sort) 14 it) =
    Done (NestedLoopsJoin_rows 0 0 [["1"; "a"]; ["2"; "b"]] [["1"; "a"]; ["2"; "b"]]
            [["2"; "p"]; ["1"; "q"]; ["2"; "r"]], it') g.
Proof.
  split; [reflexivity|]. split; [reflexivity|].
  exact (proj1 (@NestedLoopsJoin_returns_at_most_the_right_rows ties_kept_sort 13
                  (table_of 2 [["1"; "a"]; ["2"; "b"]])
                  (table_of 2 [["2"; "p"]; ["1"; "q"]; ["2"; "r"]])
                  {| cs_n_columns := 2; cs_columns := [0] |}
                  {| cs_n_columns := 2; cs_columns := [0] |} 0 0
                  eq_refl eq_refl eq_refl eq_refl ltac:(simpl; lia))).
Defined.

(** * Further properties of the operators *)

(** ** Drains with their reclaimed rows *)

Section StreamsLogged.

Variable step : Iterator -> outcome (option Row * Iterator).

Lemma drain_loop_YieldsLog (k : nat) :
  forall it l it' g,
    drain_loop step k it = Done (l, it') g -> YieldsLog step it l it' g /\ length l < k.
Proof.
  induction k as [|k IH]; intros it l it' g H; simpl in H; [discriminate|].
  apply bind_Done in H as ([[r|] it1] & g1 & g2 & Hstep & H & ->).
  - apply bind_Done in H as ([more it2] & g3 & g4 & Hrest & H & ->).
    injection H as <- <- <-. rewrite app_nil_r.
    apply IH in Hrest. destruct Hrest as [HY Hlen]. split.
    + eapply YieldsLog_row; eauto.
    + simpl. lia.
  - injection H as <- <- <-. rewrite app_nil_r. split.
    + eapply YieldsLog_end; eauto.
    + simpl. lia.
Qed.

Lemma YieldsLog_drain_loop :
  forall it l it' g, YieldsLog step it l it' g ->
  forall k, length l < k -> drain_loop step k it = Done (l, it') g.
Proof.
  induction 1 as [it it' g H | it r it1 g1 l it' g2 H HY IH]; intros k Hk.
  - destruct k as [|k]; [simpl in Hk; lia|].
    simpl. rewrite H. simpl. rewrite app_nil_r. reflexivity.
  - destruct k as [|k]; [simpl in Hk; lia|].
    simpl in Hk. simpl. rewrite H. simpl. rewrite (IH k) by lia. simpl.
    rewrite app_nil_r. reflexivity.
Qed.

Lemma YieldsLog_Yields :
  forall it l it' g, YieldsLog step it l it' g -> Yields step it l it'.
Proof.
  induction 1 as [it it' g H | it r it1 g1 l it' g2 H HY IH].
  - eapply Yields_end; eauto.
  - eapply Yields_row; eauto.
Qed.

End StreamsLogged.

(** ** TableIterator: scans, restarts, the state after close *)

Section TableIteratorLogged.

Context {sorting : StdSort}.

Lemma TableIterator_YieldsLog (fuel : nat) (t : Table) :
  forall n i, n = length (rows t) - i -> i <= length (rows t) ->
  YieldsLog (next (S fuel)) (TableIterator t i (length (rows t)))
    (skipn i (rows t)) (TableIterator t (length (rows t)) (length (rows t))) [].
Proof.
  induction n as [|n IH]; intros i Hn Hi.
  - assert (i = length (rows t)) by lia. subst i.
    rewrite skipn_all. eapply YieldsLog_end.
    rewrite TableIterator_next by lia.
    assert (Hnone : nth_error (rows t) (length (rows t)) = None)
      by (apply nth_error_None; lia).
    rewrite Hnone. reflexivity.
  - destruct (nth_error (rows t) i) as [row|] eqn:Hrow.
    + rewrite (skipn_nth_error _ _ Hrow).
      change (@nil Row) with (@nil Row ++ @nil Row).
      eapply YieldsLog_row.
      * rewrite TableIterator_next by lia. rewrite Hrow. reflexivity.
      * apply IH; lia.
    + apply nth_error_None in Hrow. lia.
Qed.

Lemma TableIterator_drain (fuel : nat) (t : Table) (i : nat) :
  i <= length (rows t) -> length (rows t) < S fuel ->
  drain (S fuel) (TableIterator t i (length (rows t))) =
  Done (skipn i (rows t), TableIterator t (length (rows t)) (length (rows t))) [].
Proof.
  intros Hi Hfuel. unfold drain. apply YieldsLog_drain_loop.
  - apply (@TableIterator_YieldsLog fuel t (length (rows t) - i) i); lia.
  - rewrite length_skipn. lia.
Qed.

End TableIteratorLogged.

(** X1.  A TableIterator returns the rows of its table in the table's order
    and then no row, reclaiming nothing: so it does right after construction
    (without open), and so it does again after close() and open() from
    whatever cursor state; a partly consumed scan returns the rows from its
    cursor on. *)
Theorem TableIterator_scans_and_restarts {sorting : StdSort}
    (t : Table) (i e fuel : nat)
    (Hfuel : length (rows t) < fuel) :
  drain fuel (new_TableIterator t) =
    Done (rows t, TableIterator t (length (rows t)) (length (rows t))) [] /\
  (it <- open fuel (close (TableIterator t i e)) ;; drain fuel it) =
    Done (rows t, TableIterator t (length (rows t)) (length (rows t))) [] /\
  (i <= length (rows t) ->
   drain fuel (TableIterator t i (length (rows t))) =
     Done (skipn i (rows t), TableIterator t (length (rows t)) (length (rows t))) []).
Proof.
  destruct fuel as [|f]; [lia|].
  split; [|split].
  - unfold new_TableIterator.
    apply (@TableIterator_drain _ f t 0); lia.
  - cbn [close open]. cbn [bind ret].
    rewrite (@TableIterator_drain _ f t 0) by lia. reflexivity.
  - intros Hi. apply TableIterator_drain; lia.
Qed.

Lemma TableIterator_scans_and_restarts_witness :
  2 < 4 /\
  (it <- open (sorting := ties_kept_sort) 4
           (close (TableIterator (table_of 1 [["a"]; ["b"]]) 1 2)) ;;
   drain (sorting := ties_kept_sort) 4 it) =
  Done ([["a"]; ["b"]], TableIterator (table_of 1 [["a"]; ["b"]]) 2 2) [].
Proof.
  split; [lia|].
  exact (proj1 (proj2 (@TableIterator_scans_and_restarts ties_kept_sort
                         (table_of 1 [["a"]; ["b"]]) 1 2 4 ltac:(simpl; lia)))).
Defined.

(** ** close *)

(** X2.  close() ends the stream of every operator tree that holds no Sort
    on the way to its scans (a join ends with its right child; an IndexScan
    must have been opened or have an empty index): the next call to next()
    returns no row, reclaims nothing and leaves the closed object as it is. *)
Theorem close_ends_the_stream {sorting : StdSort} (it : Iterator) (fuel : nat)
    (Hends : ends_at_close it = true)
    (Hfuel : height it < fuel) :
  next fuel (close it) = Done (None, close it) [].
Proof.
  revert fuel Hfuel.
  induction it as [t i e | index lo hi i e | c IH p | c IH cs
                  | l IHl r IHr lcs rcs lrow | c IH cols s i | c IH last];
    intros fuel Hfuel; cbn [height] in Hfuel; cbn [ends_at_close] in Hends;
    (destruct fuel as [|f]; [lia|]); cbn [close].
  - cbn [next]. rewrite Nat.eqb_refl. reflexivity.
  - cbn [next]. destruct (Index_empty index) eqn:Hempty; [reflexivity|].
    simpl in Hends. destruct e as [n|]; [|discriminate].
    apply Nat.eqb_eq in Hends. subst n. cbn [negb].
    destruct f as [|f]; [lia|]. cbn [IndexScan_next_loop].
    rewrite Nat.eqb_refl. reflexivity.
  - cbn [next]. rewrite (IH Hends f) by lia.
    destruct f as [|f]; [lia|]. reflexivity.
  - cbn [next]. rewrite (IH Hends f) by lia. reflexivity.
  - cbn [next]. rewrite (IHr Hends f) by lia.
    destruct f as [|f]; [lia|]. cbn [bind ret NestedLoopsJoin_next_loop].
    destruct lrow; reflexivity.
  - discriminate.
  - cbn [next]. rewrite (IH Hends f) by lia.
    destruct f as [|f]; [lia|]. reflexivity.
Qed.

Lemma close_ends_the_stream_witness :
  next (sorting := ties_kept_sort) 4
    (close (Unique (Select (TableIterator (table_of 1 [["7"]; ["9"]]) 0 2)
                      column0_above_5) None)) =
  Done (None,
        close (Unique (Select (TableIterator (table_of 1 [["7"]; ["9"]]) 0 2)
                         column0_above_5) None)) [].
Proof.
  apply (@close_ends_the_stream ties_kept_sort); [reflexivity | simpl; lia].
Defined.

(** ** Sort: the state after close, and a second pass *)

Section SortLogged.

Context {sorting : StdSort}.

Lemma Sort_YieldsLog (fuel : nat) (input : Iterator) (cols : list nat) (s : list Row) :
  forall n i, n = length s - i -> i <= length s ->
  YieldsLog (next (S fuel)) (Sort input cols s (Some i)) (skipn i s)
    (Sort input cols s (Some (length s))) [].
Proof.
  induction n as [|n IH]; intros i Hn Hi.
  - assert (i = length s) by lia. subst i. rewrite skipn_all.
    eapply YieldsLog_end. simpl. rewrite Nat.eqb_refl. reflexivity.
  - destruct (nth_error s i) as [row|] eqn:Hrow.
    + rewrite (skipn_nth_error _ _ Hrow).
      change (@nil Row) with (@nil Row ++ @nil Row).
      eapply YieldsLog_row.
      * simpl. assert (Hne : (i =? length s) = false) by (apply Nat.eqb_neq; lia).
        rewrite Hne, Hrow. reflexivity.
      * apply IH; lia.
    + apply nth_error_None in Hrow. lia.
Qed.

Lemma Sort_drain (fuel : nat) (input : Iterator) (cols : list nat) (s : list Row)
    (i : nat) :
  i <= length s -> length s < S fuel ->
  drain (S fuel) (Sort input cols s (Some i)) =
  Done (skipn i s, Sort input cols s (Some (length s))) [].
Proof.
  intros Hi Hfuel. unfold drain. apply YieldsLog_drain_loop.
  - apply (@Sort_YieldsLog fuel input cols s (length s - i) i); lia.
  - rewrite length_skipn. lia.
Qed.

End SortLogged.

(** X3.  Sort::close closes the child only: the sorted rows and the cursor
    stay, so after close() a Sort goes on returning the sorted rows it had
    not yet returned, in order, and only then no row. *)
Theorem Sort_returns_its_rows_after_close {sorting : StdSort}
    (input : Iterator) (cols : list nat) (s : list Row) (i fuel : nat)
    (Hi : i <= length s)
    (Hfuel : length s < fuel) :
  drain fuel (close (Sort input cols s (Some i))) =
  Done (skipn i s, Sort (close input) cols s (Some (length s))) [].
Proof.
  destruct fuel as [|f]; [lia|]. cbn [close]. apply Sort_drain; lia.
Qed.

Lemma Sort_returns_its_rows_after_close_witness :
  1 <= 3 /\ 3 < 4 /\
  drain (sorting := ties_kept_sort) 4
    (close (Sort (TableIterator (table_of 1 [["2"]; ["1"]; ["3"]]) 3 3) [0]
              [["1"]; ["2"]; ["3"]] (Some 1))) =
  Done ([["2"]; ["3"]],
        Sort (TableIterator (table_of 1 [["2"]; ["1"]; ["3"]]) 3 3) [0]
          [["1"]; ["2"]; ["3"]] (Some 3)) [].
Proof.
  split; [lia|]. split; [lia|].
  exact (@Sort_returns_its_rows_after_close ties_kept_sort
           (TableIterator (table_of 1 [["2"]; ["1"]; ["3"]]) 3 3) [0]
           [["1"]; ["2"]; ["3"]] 1 4 ltac:(simpl; lia) ltac:(simpl; lia)).
Defined.

Lemma std_sort_length {sorting : StdSort} (cols : list nat) (l : list Row) :
  length (std_sort (RowCompare cols) l) = length l.
Proof.
  symmetry. apply Permutation_length. apply std_sort_permutation.
  apply RowCompare_strict_weak_order.
Qed.

(** X4.  Sort::open starts from an empty [_sorted]: a Sort that is closed and
    opened again after a complete pass returns the sorted rows of the child's
    second pass only, whatever it held before, and a first pass does not
    depend on the rows and cursor the object held. *)
Theorem Sort_reopened_sorts_the_new_pass {sorting : StdSort}
    (fuel : nat) (input c0 c1 c2 c3 : Iterator) (cols : list nat)
    (l l2 g0 g1 g2 g3 s : list Row) (i : option nat)
    (Hopen : open fuel input = Done c0 g0)
    (Hdrain : drain fuel c0 = Done (l, c1) g1)
    (Hreopen : open fuel (close c1) = Done c2 g2)
    (Hdrain2 : drain fuel c2 = Done (l2, c3) g3) :
  exists g',
    (it <- open (S fuel) (Sort input cols s i) ;;
     '(first_pass, it) <- drain (S fuel) it ;;
     it <- open (S fuel) (close it) ;;
     '(second_pass, _) <- drain (S fuel) it ;;
     ret (first_pass, second_pass)) =
    Done (std_sort (RowCompare cols) l, std_sort (RowCompare cols) l2) g'.
Proof.
  apply drain_loop_Yields in Hdrain. destruct Hdrain as [HY Hlen].
  apply drain_loop_Yields in Hdrain2. destruct Hdrain2 as [HY2 Hlen2].
  destruct (@Sort_open _ fuel input c0 c1 cols l g0 s i Hopen HY Hlen) as [ga Ha].
  rewrite (bind_step _ Ha).
  rewrite (@Sort_drain _ fuel c1 cols (std_sort (RowCompare cols) l) 0)
    by (rewrite ?std_sort_length; lia).
  cbn [bind skipn close].
  destruct (@Sort_open _ fuel (close c1) c2 c3 cols l2 g2
              (std_sort (RowCompare cols) l)
              (Some (length (std_sort (RowCompare cols) l))) Hreopen HY2 Hlen2)
    as [gb Hb].
  rewrite Hb. cbn [bind].
  rewrite (@Sort_drain _ fuel c3 cols (std_sort (RowCompare cols) l2) 0)
    by (rewrite ?std_sort_length; lia).
  cbn [bind ret skipn]. eexists. reflexivity.
Qed.

Lemma Sort_reopened_sorts_the_new_pass_witness :
  exists g',
    (it <- open (sorting := ties_kept_sort) 5
             (Sort (new_TableIterator (table_of 1 [["2"]; ["1"]])) [0] [["9"]] (Some 1)) ;;
     '(first_pass, it) <- drain (sorting := ties_kept_sort) 5 it ;;
     it <- open (sorting := ties_kept_sort) 5 (close it) ;;
     '(second_pass, _) <- drain (sorting := ties_kept_sort) 5 it ;;
     ret (first_pass, second_pass)) =
    Done (std_sort (StdSort := ties_kept_sort) (RowCompare [0]) [["2"]; ["1"]],
          std_sort (StdSort := ties_kept_sort) (RowCompare [0]) [["2"]; ["1"]]) g'.
Proof.
  exact (@Sort_reopened_sorts_the_new_pass ties_kept_sort 4
           (new_TableIterator (table_of 1 [["2"]; ["1"]]))
           (TableIterator (table_of 1 [["2"]; ["1"]]) 0 2)
           (TableIterator (table_of 1 [["2"]; ["1"]]) 2 2)
           (TableIterator (table_of 1 [["2"]; ["1"]]) 0 2)
           (TableIterator (table_of 1 [["2"]; ["1"]]) 2 2)
           [0] [["2"]; ["1"]] [["2"]; ["1"]] [] [] [] [] [["9"]] (Some 1)
           eq_refl eq_refl eq_refl eq_refl).
Defined.

(** ** Select: stacked predicates *)

(** X5.  Two Selects stacked return the rows that satisfy both predicates,
    in the child's order, so the order in which they are stacked does not
    change the rows returned. *)
Theorem Select_over_Select {sorting : StdSort}
    (fuel : nat) (input opened input' : Iterator) (p q : Row -> bool)
    (l g0 g : list Row)
    (Hopen : open fuel input = Done opened g0)
    (Hdrain : drain fuel opened = Done (l, input') g) :
  exists g1 g2,
    (it <- open (S (S fuel)) (Select (Select input q) p) ;; drain (S (S fuel)) it) =
      Done (filter (fun row => p row && q row) l, Select (Select input' q) p) g1 /\
    (it <- open (S (S fuel)) (Select (Select input p) q) ;; drain (S (S fuel)) it) =
      Done (filter (fun row => p row && q row) l, Select (Select input' p) q) g2.
Proof.
  apply drain_loop_Yields in Hdrain. destruct Hdrain as [HY Hlen].
  assert (Hboth : forall a b : Row -> bool,
            filter a (filter b l) = filter (fun row => a row && b row) l).
  { intros a b. clear. induction l as [|x l IH]; [reflexivity|].
    simpl. destruct (b x); simpl.
    - rewrite andb_true_r. destruct (a x); rewrite IH; reflexivity.
    - rewrite andb_false_r. exact IH. }
  assert (Hstack : forall a b : Row -> bool, exists g',
            (it <- open (S (S fuel)) (Select (Select input b) a) ;;
             drain (S (S fuel)) it) =
            Done (filter a (filter b l), Select (Select input' b) a) g').
  { intros a b.
    pose proof (Select_Yields b HY Hlen) as H1.
    assert (Hl1 : length (filter b l) < S fuel)
      by (pose proof (filter_length_le b l); lia).
    pose proof (Select_Yields a H1 Hl1) as H2.
    destruct (Yields_drain_loop H2 (k := S (S fuel))) as [g' Hd].
    { pose proof (filter_length_le a (filter b l)). lia. }
    cbn [open]. rewrite Hopen. cbn [bind ret].
    unfold drain. rewrite Hd. eexists. reflexivity. }
  destruct (Hstack p q) as [g1 H1]. destruct (Hstack q p) as [g2 H2].
  exists g1, g2. split.
  - rewrite <- Hboth. exact H1.
  - rewrite H2. rewrite Hboth.
    rewrite (filter_ext (fun row => q row && p row) (fun row => p row && q row))
      by (intros row; apply andb_comm).
    reflexivity.
Qed.

Lemma Select_over_Select_witness :
  exists g1 g2,
    (it <- open (sorting := ties_kept_sort) 6
             (Select (Select (new_TableIterator (table_of 1 [["7"]; ["2"]; ["9"]]))
                        (fun row => row_eqb row ["9"])) column0_above_5) ;;
     drain (sorting := ties_kept_sort) 6 it) =
      Done (filter (fun row => column0_above_5 row && row_eqb row ["9"])
              [["7"]; ["2"]; ["9"]],
            Select (Select (TableIterator (table_of 1 [["7"]; ["2"]; ["9"]]) 3 3)
                      (fun row => row_eqb row ["9"])) column0_above_5) g1 /\
    (it <- open (sorting := ties_kept_sort) 6
             (Select (Select (new_TableIterator (table_of 1 [["7"]; ["2"]; ["9"]]))
                        column0_above_5) (fun row => row_eqb row ["9"])) ;;
     drain (sorting := ties_kept_sort) 6 it) =
      Done (filter (fun row => column0_above_5 row && row_eqb row ["9"])
              [["7"]; ["2"]; ["9"]],
            Select (Select (TableIterator (table_of 1 [["7"]; ["2"]; ["9"]]) 3 3)
                      column0_above_5) (fun row => row_eqb row ["9"])) g2.
Proof.
  exact (@Select_over_Select ties_kept_sort 4
           (new_TableIterator (table_of 1 [["7"]; ["2"]; ["9"]]))
           (TableIterator (table_of 1 [["7"]; ["2"]; ["9"]]) 0 3)
           (TableIterator (table_of 1 [["7"]; ["2"]; ["9"]]) 3 3)
           column0_above_5 (fun row => row_eqb row ["9"])
           [["7"]; ["2"]; ["9"]] [] [] eq_refl eq_refl).
Defined.

(** ** Operators that reclaim nothing of their own *)

(** [consumer_Yields] with the reclaimed rows: the operator hands on what its
    child reclaims and adds nothing. *)
Section ConsumerLogged.

Variable S : Type.
Variables step T : Iterator -> outcome (option Row * Iterator).
Variable W : Iterator -> S -> Iterator.
Variable F : S -> list Row -> list Row.
Variable E : S -> list Row -> S.
Variable bound : nat.

Hypothesis call :
  forall l c c' g, YieldsLog step c l c' g -> length l < bound ->
  forall s, exists o c2 s2 g1,
    T (W c s) = Done (o, W c2 s2) g1 /\
    match o with
    | None => F s l = [] /\ c2 = c' /\ s2 = E s l /\ g1 = g
    | Some x =>
        exists l2 g2, F s l = x :: F s2 l2 /\ E s l = E s2 l2 /\
                      YieldsLog step c2 l2 c' g2 /\ g = g1 ++ g2 /\
                      length l2 < length l
    end.

Lemma consumer_YieldsLog :
  forall n l c c' g s,
    length l < n -> n <= bound -> YieldsLog step c l c' g ->
    YieldsLog T (W c s) (F s l) (W c' (E s l)) g.
Proof.
  induction n as [|n IH]; intros l c c' g s Hn Hb HY; [lia|].
  destruct (call HY ltac:(lia) s) as (o & c2 & s2 & g1 & HT & Ho).
  destruct o as [x|].
  - destruct Ho as (l2 & g2 & HF & HE & HY2 & -> & Hl2).
    rewrite HF, HE. eapply YieldsLog_row; [exact HT|].
    apply IH; [lia | lia | exact HY2].
  - destruct Ho as (HF & -> & -> & ->). rewrite HF.
    eapply YieldsLog_end. exact HT.
Qed.

End ConsumerLogged.

Section SelectLogged.

Context {sorting : StdSort}.
Variable p : Row -> bool.

Lemma Select_next_loop_log (step : Iterator -> outcome (option Row * Iterator)) :
  forall l c c' g, YieldsLog step c l c' g ->
  forall k r, S (length l) < k ->
  exists o c2 g1,
    Select_next_loop step p k (Some r) c = Done (o, c2) g1 /\
    match o with
    | None => filter p (r :: l) = [] /\ c2 = c' /\ g1 = g
    | Some x =>
        exists l2 g2, filter p (r :: l) = x :: filter p l2 /\
                      YieldsLog step c2 l2 c' g2 /\ g = g1 ++ g2 /\
                      length l2 <= length l
    end.
Proof.
  induction 1 as [c c' g H | c r' c1 ga l c' gb H HY IH]; intros k r Hk.
  - destruct k as [|[|k]]; try (simpl in Hk; lia).
    simpl. destruct (p r) eqn:Hp.
    + exists (Some r), c, []. split; [reflexivity|].
      exists [], g. simpl. repeat split; auto. eapply YieldsLog_end; eauto.
    + rewrite H. simpl. exists None, c', (g ++ []).
      rewrite app_nil_r. auto.
  - destruct k as [|k]; [lia|]. simpl in Hk.
    cbn [Select_next_loop]. destruct (p r) eqn:Hp.
    + exists (Some r), c, []. split; [reflexivity|].
      exists (r' :: l), (ga ++ gb). simpl. rewrite Hp. repeat split; auto.
      eapply YieldsLog_row; eauto.
    + rewrite (bind_step _ H).
      destruct (IH k r' ltac:(lia)) as (o & c2 & g2 & Hloop & Ho).
      rewrite Hloop. exists o, c2, (ga ++ g2). split; [reflexivity|].
      simpl. rewrite Hp. destruct o as [x|].
      * destruct Ho as (l2 & g3 & Hf & HY2 & Hg & Hl). exists l2, g3. simpl in Hf.
        repeat split; auto. rewrite Hg. apply app_assoc.
      * destruct Ho as (Hf & -> & ->). auto.
Qed.

Lemma Select_YieldsLog (fuel : nat) :
  forall l c c' g, YieldsLog (next fuel) c l c' g -> length l < fuel ->
  YieldsLog (next (S fuel)) (Select c p) (filter p l) (Select c' p) g.
Proof.
  intros l c c' g HY Hlen.
  apply (@consumer_YieldsLog unit (next fuel) (next (S fuel))
           (fun c _ => Select c p) (fun _ l => filter p l) (fun _ _ => tt) fuel)
    with (n := S (length l)) (s := tt); try lia; try assumption.
  clear. intros l c c' g HY Hlen [].
  cbn [next]. inversion HY as [c0 c0' g0 H | c0 r c1 ga l' c0' gb H HY']; subst.
  - rewrite (bind_step _ H). destruct fuel as [|fuel]; [simpl in Hlen; lia|].
    simpl. exists None, c', tt, (g ++ [] ++ []). rewrite !app_nil_r. auto.
  - rewrite (bind_step _ H).
    destruct (@Select_next_loop_log (next fuel) l' c1 c' gb HY' fuel r)
      as (o & c2 & g2 & Hloop & Ho); [simpl in Hlen; lia|].
    rewrite Hloop. simpl.
    exists o, c2, tt, (ga ++ g2 ++ []). split; [reflexivity|].
    rewrite app_nil_r.
    destruct o as [x|].
    + destruct Ho as (l2 & g3 & Hf & HY2 & Hg & Hl). exists l2, g3.
      repeat split; auto.
      * rewrite Hg. apply app_assoc.
      * simpl. lia.
    + destruct Ho as (Hf & -> & ->). auto.
Qed.

End SelectLogged.

(** X6.  Select hands no row to Row::reclaim: opened and drained, the rows
    reclaimed are exactly the rows its child reclaims when opened and drained,
    in the same order, so no row that the predicate rejects is reclaimed
    by Select. *)
Theorem Select_reclaims_nothing {sorting : StdSort}
    (fuel : nat) (input opened input' : Iterator) (predicate : Row -> bool)
    (l g0 g : list Row)
    (Hopen : open fuel input = Done opened g0)
    (Hdrain : drain fuel opened = Done (l, input') g) :
  (it <- open (S fuel) (Select input predicate) ;; drain (S fuel) it) =
  Done (filter predicate l, Select input' predicate) (g0 ++ g).
Proof.
  apply drain_loop_YieldsLog in Hdrain. destruct Hdrain as [HY Hlen].
  pose proof (Select_YieldsLog predicate HY Hlen) as HS.
  pose proof (YieldsLog_drain_loop HS (k := S fuel)) as Hd.
  cbn [open]. rewrite Hopen. cbn [bind ret].
  unfold drain. rewrite Hd.
  - rewrite app_nil_r. reflexivity.
  - pose proof (filter_length_le predicate l). lia.
Qed.

Lemma Select_reclaims_nothing_witness :
  (it <- open (sorting := ties_kept_sort) 5
           (Select (new_TableIterator (table_of 1 [["7"]; ["2"]; ["9"]]))
              column0_above_5) ;;
   drain (sorting := ties_kept_sort) 5 it) =
  Done (filter column0_above_5 [["7"]; ["2"]; ["9"]],
        Select (TableIterator (table_of 1 [["7"]; ["2"]; ["9"]]) 3 3) column0_above_5)
    ([] ++ []).
Proof.
  exact (@Select_reclaims_nothing ties_kept_sort 4
           (new_TableIterator (table_of 1 [["7"]; ["2"]; ["9"]]))
           (TableIterator (table_of 1 [["7"]; ["2"]; ["9"]]) 0 3)
           (TableIterator (table_of 1 [["7"]; ["2"]; ["9"]]) 3 3)
           column0_above_5 [["7"]; ["2"]; ["9"]] [] [] eq_refl eq_refl).
Defined.

Lemma Unique_rows_cons (last : option Row) (r : Row) (l : list Row) :
  Unique_rows last (r :: l) =
  match last with
  | None => r :: Unique_rows (Some r) l
  | Some p => if Unique_skips p r then Unique_rows last l
              else r :: Unique_rows (Some r) l
  end.
Proof. reflexivity. Qed.

Lemma Unique_last_cons (last : option Row) (r : Row) (l : list Row) :
  Unique_last last (r :: l) =
  match last with
  | None => Unique_last (Some r) l
  | Some p => if Unique_skips p r then Unique_last last l else Unique_last (Some r) l
  end.
Proof. reflexivity. Qed.

Section UniqueLogged.

Context {sorting : StdSort}.

Lemma Unique_next_loop_head (step : Iterator -> outcome (option Row * Iterator))
    (k : nat) (r : Row) (last : option Row) (c : Iterator) :
  Unique_next_loop step (S k) (Some r) last c =
  match last with
  | None => Done (Some r, Some r, c) []
  | Some p =>
      if Unique_skips p r
      then '(row', c1) <- step c ;; Unique_next_loop step k row' last c1
      else Done (Some r, Some r, c) []
  end.
Proof.
  destruct last as [p|]; [|reflexivity]. cbn [Unique_next_loop]. unfold Unique_skips.
  destruct (length r =? length p) eqn:Hl; [|reflexivity].
  apply Nat.eqb_eq in Hl. rewrite (Unique_compare_loop_spec _ _ true Hl).
  simpl. destruct (row_eqb r p); simpl.
  - destruct (step c) as [[row' c1] g| |]; simpl; try reflexivity.
    destruct (Unique_next_loop step k row' (Some p) c1); reflexivity.
  - reflexivity.
Qed.

Lemma Unique_next_loop_log (step : Iterator -> outcome (option Row * Iterator)) :
  forall l c c' g, YieldsLog step c l c' g ->
  forall k r last, S (length l) < k ->
  exists o c2 last2 g1,
    Unique_next_loop step k (Some r) last c = Done (o, last2, c2) g1 /\
    match o with
    | None =>
        Unique_rows last (r :: l) = [] /\ c2 = c' /\
        last2 = Unique_last last (r :: l) /\ g1 = g
    | Some x =>
        exists l2 g2, Unique_rows last (r :: l) = x :: Unique_rows last2 l2 /\
                      Unique_last last (r :: l) = Unique_last last2 l2 /\
                      YieldsLog step c2 l2 c' g2 /\ g = g1 ++ g2 /\
                      length l2 <= length l
    end.
Proof.
  assert (Hemit : forall (r : Row) l c c' g,
    YieldsLog step c l c' g ->
    exists (o : option Row) (c2 : Iterator) (last2 : option Row) (g1 : list Row),
      Done (Some r, Some r, c) [] = Done (o, last2, c2) g1 /\
      match o with
      | None =>
          r :: Unique_rows (Some r) l = [] /\ c2 = c' /\
          last2 = Unique_last (Some r) l /\ g1 = g
      | Some x =>
          exists l2 g2, r :: Unique_rows (Some r) l = x :: Unique_rows last2 l2 /\
            Unique_last (Some r) l = Unique_last last2 l2 /\
            YieldsLog step c2 l2 c' g2 /\ g = g1 ++ g2 /\ length l2 <= length l
      end).
  { intros r l c c' g HY. exists (Some r), c, (Some r), []. split; [reflexivity|].
    exists l, g. repeat split; auto. }
  induction 1 as [c c' g H | c r' c1 ga l c' gb H HY IH]; intros k r last Hk.
  - destruct k as [|[|k]]; try (simpl in Hk; lia).
    rewrite Unique_next_loop_head, Unique_rows_cons, Unique_last_cons.
    assert (HY : YieldsLog step c [] c' g) by (eapply YieldsLog_end; eauto).
    destruct last as [p|]; [destruct (Unique_skips p r)|].
    + rewrite H. simpl. exists None, c', (Some p), (g ++ []).
      rewrite app_nil_r. auto.
    + exact (Hemit r [] c c' g HY).
    + exact (Hemit r [] c c' g HY).
  - destruct k as [|k]; [lia|]. simpl in Hk.
    rewrite Unique_next_loop_head, Unique_rows_cons, Unique_last_cons.
    assert (HY0 : YieldsLog step c (r' :: l) c' (ga ++ gb))
      by (eapply YieldsLog_row; eauto).
    destruct last as [p|]; [destruct (Unique_skips p r)|].
    + rewrite (bind_step _ H).
      destruct (IH k r' (Some p) ltac:(lia)) as (o & c2 & last2 & g2 & Hloop & Ho).
      rewrite Hloop. exists o, c2, last2, (ga ++ g2). split; [reflexivity|].
      destruct o as [x|].
      * destruct Ho as (l2 & g3 & Hf & HE & HY2 & Hg & Hl). exists l2, g3.
        repeat split; auto.
        -- rewrite Hg. apply app_assoc.
        -- simpl. lia.
      * destruct Ho as (Hf & -> & -> & ->). auto.
    + exact (Hemit r (r' :: l) c c' (ga ++ gb) HY0).
    + exact (Hemit r (r' :: l) c c' (ga ++ gb) HY0).
Qed.

Lemma Unique_YieldsLog (fuel : nat) :
  forall l c c' g last, YieldsLog (next fuel) c l c' g -> length l < fuel ->
  YieldsLog (next (S fuel)) (Unique c last) (Unique_rows last l)
    (Unique c' (Unique_last last l)) g.
Proof.
  intros l c c' g last HY Hlen.
  apply (@consumer_YieldsLog (option Row) (next fuel) (next (S fuel))
           (fun c last => Unique c last) Unique_rows Unique_last fuel)
    with (n := S (length l)); try lia; try assumption.
  clear. intros l c c' g HY Hlen last.
  cbn [next]. inversion HY as [c0 c0' g0 H | c0 r c1 ga l' c0' gb H HY']; subst.
  - rewrite (bind_step _ H). destruct fuel as [|fuel]; [simpl in Hlen; lia|].
    simpl. exists None, c', last, (g ++ [] ++ []). rewrite !app_nil_r. auto.
  - rewrite (bind_step _ H).
    destruct (@Unique_next_loop_log (next fuel) l' c1 c' gb HY' fuel r last)
      as (o & c2 & last2 & g2 & Hloop & Ho); [simpl in Hlen; lia|].
    rewrite Hloop. simpl.
    exists o, c2, last2, (ga ++ g2 ++ []). split; [reflexivity|].
    rewrite app_nil_r.
    destruct o as [x|].
    + destruct Ho as (l2 & g3 & Hf & HE & HY2 & Hg & Hl). exists l2, g3.
      repeat split; auto.
      * rewrite Hg. apply app_assoc.
      * simpl. lia.
    + destruct Ho as (Hf & -> & -> & ->). auto.
Qed.

End UniqueLogged.

(** X7.  Unique hands no row to Row::reclaim either: opened and drained it
    returns [Unique_rows] of the child's rows, the rows reclaimed are exactly
    those its child reclaims, so the rows passed over are never reclaimed,
    and the object ends holding the last row it returned. *)
Theorem Unique_reclaims_nothing {sorting : StdSort}
    (fuel : nat) (input opened input' : Iterator) (last : option Row)
    (l g0 g : list Row)
    (Hopen : open fuel input = Done opened g0)
    (Hdrain : drain fuel opened = Done (l, input') g) :
  (it <- open (S fuel) (Unique input last) ;; drain (S fuel) it) =
  Done (Unique_rows last l, Unique input' (Unique_last last l)) (g0 ++ g).
Proof.
  apply drain_loop_YieldsLog in Hdrain. destruct Hdrain as [HY Hlen].
  pose proof (Unique_YieldsLog last HY Hlen) as HS.
  pose proof (YieldsLog_drain_loop HS (k := S fuel)) as Hd.
  cbn [open]. rewrite Hopen. cbn [bind ret].
  unfold drain. rewrite Hd.
  - rewrite app_nil_r. reflexivity.
  - pose proof (Unique_rows_length last l). lia.
Qed.

Lemma Unique_reclaims_nothing_witness :
  (it <- open (sorting := ties_kept_sort) 5
           (Unique (Project (new_TableIterator (table_of 2 [["1"; "a"]; ["1"; "b"]; ["2"; "c"]]))
                      {| cs_n_columns := 2; cs_columns := [0] |}) None) ;;
   drain (sorting := ties_kept_sort) 5 it) =
  Done (Unique_rows None [["1"]; ["1"]; ["2"]],
        Unique (Project (TableIterator (table_of 2 [["1"; "a"]; ["1"; "b"]; ["2"; "c"]]) 3 3)
                  {| cs_n_columns := 2; cs_columns := [0] |})
          (Unique_last None [["1"]; ["1"]; ["2"]]))
    ([] ++ [["1"; "a"]; ["1"; "b"]; ["2"; "c"]]).
Proof.
  exact (@Unique_reclaims_nothing ties_kept_sort 4
           (Project (new_TableIterator (table_of 2 [["1"; "a"]; ["1"; "b"]; ["2"; "c"]]))
              {| cs_n_columns := 2; cs_columns := [0] |})
           (Project (TableIterator (table_of 2 [["1"; "a"]; ["1"; "b"]; ["2"; "c"]]) 0 3)
              {| cs_n_columns := 2; cs_columns := [0] |})
           (Project (TableIterator (table_of 2 [["1"; "a"]; ["1"; "b"]; ["2"; "c"]]) 3 3)
              {| cs_n_columns := 2; cs_columns := [0] |})
           None [["1"]; ["1"]; ["2"]] [] [["1"; "a"]; ["1"; "b"]; ["2"; "c"]]
           eq_refl eq_refl).
Defined.

(** ** Unique: the rows returned, and a second pass *)

Lemma last_cons_default (A : Type) (a d : A) (l : list A) :
  last (a :: l) d = last l a.
Proof.
  revert a d. induction l as [|x l IH]; intros a d; [reflexivity|].
  change (last (a :: x :: l) d) with (last (x :: l) d).
  rewrite (IH x d), (IH x a). reflexivity.
Qed.

Lemma Unique_last_is_the_last_row (l : list Row) :
  forall last, Unique_last last l = List.last (map Some (Unique_rows last l)) last.
Proof.
  induction l as [|r l IH]; intros last; [reflexivity|].
  rewrite Unique_last_cons, Unique_rows_cons.
  destruct last as [p|]; [destruct (Unique_skips p r)|].
  - apply IH.
  - rewrite IH. cbn [map]. rewrite last_cons_default. reflexivity.
  - rewrite IH. cbn [map]. rewrite last_cons_default. reflexivity.
Qed.

Lemma Unique_rows_chain (l : list Row) :
  forall p, chain p (Unique_rows (Some p) l).
Proof.
  induction l as [|r l IH]; intros p; [exact I|].
  rewrite Unique_rows_cons. destruct (Unique_skips p r) eqn:Hs.
  - apply IH.
  - cbn [chain]. split; [|split; [|apply IH]].
    + destruct (Nat.eq_dec (length r) (length p)) as [E|E]; [exact E|].
      assert (Unique_skips p r = true) by (apply Unique_skips_iff; auto). congruence.
    + intros ->. assert (Unique_skips p p = true) by (apply Unique_skips_iff; auto).
      congruence.
Qed.

Lemma chain_Unique_rows (out : list Row) :
  forall p, chain p out -> Unique_rows (Some p) out = out.
Proof.
  induction out as [|x out IH]; intros p Hc; [reflexivity|].
  destruct Hc as (Hlen & Hne & Hc). rewrite Unique_rows_cons.
  destruct (Unique_skips p x) eqn:Hs.
  - apply Unique_skips_iff in Hs. destruct Hs; contradiction.
  - f_equal. apply IH. exact Hc.
Qed.

Lemma chain_width (out : list Row) :
  forall p x, chain p out -> In x out -> length x = length p.
Proof.
  induction out as [|y out IH]; intros p x Hc Hin; [contradiction|].
  destruct Hc as (Hlen & _ & Hc). destruct Hin as [<-|Hin]; [exact Hlen|].
  rewrite (IH y x Hc Hin). exact Hlen.
Qed.

Lemma chain_no_adjacent_equal (out : list Row) :
  forall p, chain p out -> no_adjacent_equal (p :: out).
Proof.
  induction out as [|y out IH]; intros p Hc i a b Ha Hb.
  - destruct i; simpl in Hb; [discriminate|]. destruct i; discriminate.
  - destruct Hc as (_ & Hne & Hc). destruct i as [|i].
    + simpl in Ha, Hb. injection Ha as <-. injection Hb as <-. auto.
    + simpl in Ha. change (nth_error (p :: y :: out) (S (S i)))
        with (nth_error (y :: out) (S i)) in Hb.
      exact (IH y Hc i a b Ha Hb).
Qed.

Lemma Unique_rows_incl (l : list Row) :
  forall last, incl (Unique_rows last l) l.
Proof.
  induction l as [|r l IH]; intros last x Hx; [contradiction|].
  rewrite Unique_rows_cons in Hx.
  destruct last as [p|]; [destruct (Unique_skips p r)|].
  - right. exact (IH _ x Hx).
  - destruct Hx as [<-|Hx]; [left; reflexivity | right; exact (IH _ x Hx)].
  - destruct Hx as [<-|Hx]; [left; reflexivity | right; exact (IH _ x Hx)].
Qed.

Lemma Unique_rows_shape (l : list Row) :
  same_width (Unique_rows None l) /\ no_adjacent_equal (Unique_rows None l) /\
  Unique_rows None (Unique_rows None l) = Unique_rows None l.
Proof.
  destruct l as [|r l].
  - repeat split.
    + intros a b [].
    + intros [|i] a b H; discriminate.
  - rewrite Unique_rows_cons. pose proof (Unique_rows_chain l r) as Hc.
    split; [|split].
    + assert (Hw : forall x, In x (r :: Unique_rows (Some r) l) -> length x = length r).
      { intros x [<-|Hx]; [reflexivity|]. exact (@chain_width _ _ _ Hc Hx). }
      intros a b Ha Hb. rewrite (Hw a Ha), (Hw b Hb). reflexivity.
    + apply chain_no_adjacent_equal. exact Hc.
    + rewrite Unique_rows_cons. f_equal. apply chain_Unique_rows. exact Hc.
Qed.

Section UniqueDrainLogged.

Context {sorting : StdSort}.

Lemma Unique_drain (fuel : nat) (c c' : Iterator) (l g : list Row) (last : option Row) :
  YieldsLog (next fuel) c l c' g -> length l < fuel ->
  drain (S fuel) (Unique c last) =
  Done (Unique_rows last l, Unique c' (Unique_last last l)) g.
Proof.
  intros HY Hlen.
  pose proof (Unique_YieldsLog last HY Hlen) as HS.
  unfold drain. apply YieldsLog_drain_loop; [exact HS|].
  pose proof (Unique_rows_length last l). lia.
Qed.

Lemma Unique_open_drain (fuel : nat) (input opened input' : Iterator)
    (last : option Row) (l g0 g : list Row) :
  open fuel input = Done opened g0 ->
  YieldsLog (next fuel) opened l input' g -> length l < fuel ->
  (it <- open (S fuel) (Unique input last) ;; drain (S fuel) it) =
  Done (Unique_rows last l, Unique input' (Unique_last last l)) (g0 ++ g).
Proof.
  intros Hopen HY Hlen.
  pose proof (Unique_YieldsLog last HY Hlen) as HS.
  pose proof (YieldsLog_drain_loop HS (k := S fuel)) as Hd.
  cbn [open]. rewrite Hopen. cbn [bind ret].
  unfold drain. rewrite Hd.
  - rewrite app_nil_r. reflexivity.
  - pose proof (Unique_rows_length last l). lia.
Qed.

End UniqueDrainLogged.

(** X8.  Whatever rows the child returns, the rows a newly built Unique
    returns are rows of the child, all of one size (the size of the first),
    and no returned row equals the row returned just before it. *)
Theorem Unique_returns_rows_of_one_size_unlike_their_predecessor {sorting : StdSort}
    (fuel : nat) (input opened input' : Iterator) (l g0 g : list Row)
    (Hopen : open fuel input = Done opened g0)
    (Hdrain : drain fuel opened = Done (l, input') g) :
  exists out it',
    (it <- open (S fuel) (new_Unique input) ;; drain (S fuel) it) =
      Done (out, it') (g0 ++ g) /\
    incl out l /\ same_width out /\ no_adjacent_equal out.
Proof.
  apply drain_loop_YieldsLog in Hdrain. destruct Hdrain as [HY Hlen].
  exists (Unique_rows None l), (Unique input' (Unique_last None l)).
  split; [|split; [|split]].
  - unfold new_Unique. eapply Unique_open_drain; eassumption.
  - apply Unique_rows_incl.
  - apply (Unique_rows_shape l).
  - apply (Unique_rows_shape l).
Qed.

Lemma Unique_returns_rows_of_one_size_unlike_their_predecessor_witness :
  exists out it',
    (it <- open (sorting := ties_kept_sort) 7
             (new_Unique (new_TableIterator
                            (table_of 1 [["1"]; ["1"]; ["2"; "x"]; ["2"]; ["1"]]))) ;;
     drain (sorting := ties_kept_sort) 7 it) = Done (out, it') ([] ++ []) /\
    incl out [["1"]; ["1"]; ["2"; "x"]; ["2"]; ["1"]] /\
    same_width out /\ no_adjacent_equal out.
Proof.
  exact (@Unique_returns_rows_of_one_size_unlike_their_predecessor ties_kept_sort 6
           (new_TableIterator (table_of 1 [["1"]; ["1"]; ["2"; "x"]; ["2"]; ["1"]]))
           (TableIterator (table_of 1 [["1"]; ["1"]; ["2"; "x"]; ["2"]; ["1"]]) 0 5)
           (TableIterator (table_of 1 [["1"]; ["1"]; ["2"; "x"]; ["2"]; ["1"]]) 5 5)
           [["1"]; ["1"]; ["2"; "x"]; ["2"]; ["1"]] [] [] eq_refl eq_refl).
Defined.

(** X9.  A Unique over a Unique returns the rows the inner Unique alone
    returns: what one Unique returns, a second one passes on unchanged. *)
Theorem Unique_over_Unique {sorting : StdSort}
    (fuel : nat) (input opened input' : Iterator) (l g0 g : list Row)
    (Hopen : open fuel input = Done opened g0)
    (Hdrain : drain fuel opened = Done (l, input') g) :
  exists out it1 it2,
    (it <- open (S fuel) (new_Unique input) ;; drain (S fuel) it) =
      Done (out, it1) (g0 ++ g) /\
    (it <- open (S (S fuel)) (new_Unique (new_Unique input)) ;; drain (S (S fuel)) it) =
      Done (out, it2) (g0 ++ g).
Proof.
  apply drain_loop_YieldsLog in Hdrain. destruct Hdrain as [HY Hlen].
  exists (Unique_rows None l), (Unique input' (Unique_last None l)).
  eexists. unfold new_Unique. split.
  - eapply Unique_open_drain; eassumption.
  - pose proof (Unique_YieldsLog None HY Hlen) as H1.
    assert (Hopen1 : open (S fuel) (Unique input None) = Done (Unique opened None) (g0 ++ [])).
    { cbn [open]. rewrite Hopen. reflexivity. }
    rewrite app_nil_r in Hopen1.
    rewrite (@Unique_open_drain _ _ _ _ _ None _ _ _ Hopen1 H1).
    + destruct (Unique_rows_shape l) as (_ & _ & ->). reflexivity.
    + pose proof (Unique_rows_length None l). lia.
Qed.

Lemma Unique_over_Unique_witness :
  exists out it1 it2,
    (it <- open (sorting := ties_kept_sort) 6
             (new_Unique (new_TableIterator (table_of 1 [["1"]; ["1"]; ["2"; "x"]; ["1"]]))) ;;
     drain (sorting := ties_kept_sort) 6 it) = Done (out, it1) ([] ++ []) /\
    (it <- open (sorting := ties_kept_sort) 7
             (new_Unique (new_Unique
                (new_TableIterator (table_of 1 [["1"]; ["1"]; ["2"; "x"]; ["1"]])))) ;;
     drain (sorting := ties_kept_sort) 7 it) = Done (out, it2) ([] ++ []).
Proof.
  exact (@Unique_over_Unique ties_kept_sort 5
           (new_TableIterator (table_of 1 [["1"]; ["1"]; ["2"; "x"]; ["1"]]))
           (TableIterator (table_of 1 [["1"]; ["1"]; ["2"; "x"]; ["1"]]) 0 4)
           (TableIterator (table_of 1 [["1"]; ["1"]; ["2"; "x"]; ["1"]]) 4 4)
           [["1"]; ["1"]; ["2"; "x"]; ["1"]] [] [] eq_refl eq_refl).
Defined.

(** X10.  Unique keeps [_last_unique] through close() and open(): on a
    second pass it compares the child's rows with the last row the first pass
    returned, so the second pass returns [Unique_rows] started from that row
    and not from an empty state. *)
Theorem Unique_reopened_compares_with_the_last_row_returned {sorting : StdSort}
    (fuel : nat) (input c0 c1 c2 c3 : Iterator) (l l2 g0 g1 g2 g3 : list Row)
    (Hopen : open fuel input = Done c0 g0)
    (Hdrain : drain fuel c0 = Done (l, c1) g1)
    (Hreopen : open fuel (close c1) = Done c2 g2)
    (Hdrain2 : drain fuel c2 = Done (l2, c3) g3) :
  (it <- open (S fuel) (new_Unique input) ;;
   '(first_pass, it) <- drain (S fuel) it ;;
   it <- open (S fuel) (close it) ;;
   '(second_pass, _) <- drain (S fuel) it ;;
   ret (first_pass, second_pass)) =
  Done (Unique_rows None l,
        Unique_rows (List.last (map Some (Unique_rows None l)) None) l2)
    (g0 ++ g1 ++ g2 ++ g3).
Proof.
  apply drain_loop_YieldsLog in Hdrain. destruct Hdrain as [HY Hlen].
  apply drain_loop_YieldsLog in Hdrain2. destruct Hdrain2 as [HY2 Hlen2].
  pose proof (@Unique_drain _ _ _ _ _ _ None HY Hlen) as H1.
  pose proof (@Unique_drain _ _ _ _ _ _ (Unique_last None l) HY2 Hlen2) as H2.
  unfold new_Unique.
  cbn [open]. rewrite Hopen. cbn [bind ret]. rewrite H1. cbn [bind close].
  cbn [open]. rewrite Hreopen. cbn [bind ret]. rewrite H2. cbn [bind ret].
  rewrite <- Unique_last_is_the_last_row, !app_nil_r. reflexivity.
Qed.

Lemma Unique_reopened_compares_with_the_last_row_returned_witness :
  (it <- open (sorting := ties_kept_sort) 4
           (new_Unique (new_TableIterator (table_of 1 [["1"]; ["2"]; ["1"]]))) ;;
   '(first_pass, it) <- drain (sorting := ties_kept_sort) 4 it ;;
   it <- open (sorting := ties_kept_sort) 4 (close it) ;;
   '(second_pass, _) <- drain (sorting := ties_kept_sort) 4 it ;;
   ret (first_pass, second_pass)) =
  Done (Unique_rows None [["1"]; ["2"]; ["1"]],
        Unique_rows (List.last (map Some (Unique_rows None [["1"]; ["2"]; ["1"]])) None)
          [["1"]; ["2"]; ["1"]])
    ([] ++ [] ++ [] ++ []).
Proof.
  exact (@Unique_reopened_compares_with_the_last_row_returned ties_kept_sort 4
           (new_TableIterator (table_of 1 [["1"]; ["2"]; ["1"]]))
           (TableIterator (table_of 1 [["1"]; ["2"]; ["1"]]) 0 3)
           (TableIterator (table_of 1 [["1"]; ["2"]; ["1"]]) 3 3)
           (TableIterator (table_of 1 [["1"]; ["2"]; ["1"]]) 0 3)
           (TableIterator (table_of 1 [["1"]; ["2"]; ["1"]]) 3 3)
           [["1"]; ["2"]; ["1"]] [["1"]; ["2"]; ["1"]] [] [] [] [] 
           eq_refl eq_refl eq_refl eq_refl).
Defined.

(** ** Project *)

Lemma Project_next_loop_spec (cs : ColumnSelector) (row : Row) :
  forall todo i acc,
    todo = length (cs_columns cs) - i -> i <= length (cs_columns cs) ->
    has_columns (skipn i (cs_columns cs)) row = true ->
    Project_next_loop cs todo i row acc =
    Done (acc ++ Project_row (skipn i (cs_columns cs)) row) [].
Proof.
  induction todo as [|todo IH]; intros i acc Htodo Hi Hcols.
  - assert (i = length (cs_columns cs)) by lia. subst i.
    rewrite skipn_all. simpl. rewrite app_nil_r. reflexivity.
  - destruct (nth_error (cs_columns cs) i) as [c|] eqn:Hc.
    + rewrite (skipn_nth_error _ _ Hc) in Hcols |- *.
      cbn [has_columns forallb] in Hcols. apply andb_true_iff in Hcols.
      destruct Hcols as [Hlt Hrest]. apply Nat.ltb_lt in Hlt.
      cbn [Project_next_loop]. unfold selected. rewrite Hc. cbn [bind ret].
      unfold Row_at. rewrite (nth_error_nth' row ""%string Hlt). cbn [bind ret].
      rewrite (IH (S i)) by (try exact Hrest; lia).
      cbn [Project_row map]. rewrite <- app_assoc. reflexivity.
    + apply nth_error_None in Hc. lia.
Qed.


Section ProjectLogged.

Context {sorting : StdSort}.
Variable cs : ColumnSelector.

Lemma Project_next_row (fuel : nat) (c c1 : Iterator) (r : Row) (g : list Row) :
  next fuel c = Done (Some r, c1) g ->
  has_columns (cs_columns cs) r = true ->
  next (S fuel) (Project c cs) =
  Done (Some (Project_row (cs_columns cs) r), Project c1 cs) (g ++ [r]).
Proof.
  intros H Hcols. cbn [next]. rewrite H. cbn [bind].
  rewrite (@Project_next_loop_spec cs r (length (cs_columns cs)) 0 [])
    by (try exact Hcols; lia).
  reflexivity.
Qed.

Lemma Project_YieldsLog (fuel : nat) :
  forall l c c' g, YieldsLog (next fuel) c l c' g ->
  forallb (has_columns (cs_columns cs)) l = true ->
  exists g',
    YieldsLog (next (S fuel)) (Project c cs) (map (Project_row (cs_columns cs)) l)
      (Project c' cs) g' /\
    Permutation g' (g ++ l) /\ (g = [] -> g' = l).
Proof.
  induction 1 as [c c' g H | c r c1 ga l c' gb H HY IH]; intros Hcols.
  - exists g. split; [|split].
    + eapply YieldsLog_end. cbn [next]. rewrite H. cbn [bind ret].
      rewrite app_nil_r. reflexivity.
    + rewrite app_nil_r. apply Permutation_refl.
    + auto.
  - cbn [forallb] in Hcols. apply andb_true_iff in Hcols. destruct Hcols as [Hr Hl].
    destruct (IH Hl) as (g2 & HY2 & Hperm & Hnil).
    exists ((ga ++ [r]) ++ g2). split; [|split].
    + cbn [map]. eapply YieldsLog_row; [|exact HY2].
      apply Project_next_row; assumption.
    + rewrite <- !app_assoc. apply Permutation_app_head. cbn [app].
      apply Permutation_trans with (r :: gb ++ l).
      * apply perm_skip. exact Hperm.
      * apply Permutation_middle.
    + intros Hg. apply app_eq_nil in Hg. destruct Hg as [-> ->].
      rewrite (Hnil eq_refl). reflexivity.
Qed.

End ProjectLogged.

(** X11.  When every row of the child holds every selected position,
    Project opened and drained returns one row for each row of the child, in
    the child's order, made of the values at the selected positions in the
    order of the selector; each row of the child is handed to Row::reclaim
    exactly once, beside what the child itself reclaims. *)
Theorem Project_returns_the_selected_columns {sorting : StdSort}
    (fuel : nat) (input opened input' : Iterator) (cs : ColumnSelector)
    (l g0 g : list Row)
    (Hopen : open fuel input = Done opened g0)
    (Hdrain : drain fuel opened = Done (l, input') g)
    (Hcols : forallb (has_columns (cs_columns cs)) l = true) :
  exists g',
    (it <- open (S fuel) (Project input cs) ;; drain (S fuel) it) =
      Done (map (Project_row (cs_columns cs)) l, Project input' cs) (g0 ++ g') /\
    Permutation g' (g ++ l) /\ (g = [] -> g' = l).
Proof.
  apply drain_loop_YieldsLog in Hdrain. destruct Hdrain as [HY Hlen].
  destruct (@Project_YieldsLog _ cs fuel _ _ _ _ HY Hcols) as (g' & HP & Hperm & Hnil).
  exists g'. split; [|split; assumption].
  cbn [open]. rewrite Hopen. cbn [bind ret].
  unfold drain. rewrite (YieldsLog_drain_loop HP (k := S fuel)).
  - rewrite app_nil_r. reflexivity.
  - rewrite length_map. lia.
Qed.

Lemma Project_returns_the_selected_columns_witness :
  exists g',
    (it <- open (sorting := ties_kept_sort) 4
             (Project (new_TableIterator (table_of 3 [["1"; "a"; "x"]; ["2"; "b"; "y"]]))
                {| cs_n_columns := 3; cs_columns := [2; 0; 2] |}) ;;
     drain (sorting := ties_kept_sort) 4 it) =
      Done (map (Project_row [2; 0; 2]) [["1"; "a"; "x"]; ["2"; "b"; "y"]],
            Project (TableIterator (table_of 3 [["1"; "a"; "x"]; ["2"; "b"; "y"]]) 2 2)
              {| cs_n_columns := 3; cs_columns := [2; 0; 2] |}) ([] ++ g') /\
    Permutation g' ([] ++ [["1"; "a"; "x"]; ["2"; "b"; "y"]]) /\
    (@nil Row = [] -> g' = [["1"; "a"; "x"]; ["2"; "b"; "y"]]).
Proof.
  exact (@Project_returns_the_selected_columns ties_kept_sort 3
           (new_TableIterator (table_of 3 [["1"; "a"; "x"]; ["2"; "b"; "y"]]))
           (TableIterator (table_of 3 [["1"; "a"; "x"]; ["2"; "b"; "y"]]) 0 2)
           (TableIterator (table_of 3 [["1"; "a"; "x"]; ["2"; "b"; "y"]]) 2 2)
           {| cs_n_columns := 3; cs_columns := [2; 0; 2] |}
           [["1"; "a"; "x"]; ["2"; "b"; "y"]] [] [] eq_refl eq_refl eq_refl).
Defined.



(** ** The end of a stream *)

Lemma IndexScan_next_loop_end (index : Index) (lo hi : Row) :
  forall k i e i' g,
    IndexScan_next_loop k index lo hi i e = Done (None, i') g -> i' = e.
Proof.
  induction k as [|k IH]; intros i e i' g H; [discriminate|].
  cbn [IndexScan_next_loop] in H.
  destruct (i =? e) eqn:Hie.
  - injection H as <- _. apply Nat.eqb_eq. exact Hie.
  - destruct (nth_error (entries index) i) as [[key data]|]; [|discriminate].
    apply bind_Done in H as (inside & g1 & g2 & _ & H & _).
    destruct inside; [discriminate|]. eapply IH; eauto.
Qed.

Section EndLoops.

Variable step : Iterator -> outcome (option Row * Iterator).

Lemma Select_next_loop_end (p : Row -> bool) :
  forall k row c c' g,
    Select_next_loop step p k row c = Done (None, c') g ->
    (row = None /\ c' = c) \/ (exists c0 g0, step c0 = Done (None, c') g0).
Proof.
  induction k as [|k IH]; intros row c c' g H; [discriminate|].
  cbn [Select_next_loop] in H. destruct row as [r|].
  - destruct (p r); [discriminate|].
    apply bind_Done in H as ([row1 c1] & g1 & g2 & Hstep & H & _).
    right. destruct (IH _ _ _ _ H) as [[-> ->]|Hlater].
    + eauto.
    + exact Hlater.
  - injection H as <- _. left. auto.
Qed.

Lemma Unique_next_loop_end :
  forall k row last c last' c' g,
    Unique_next_loop step k row last c = Done (None, last', c') g ->
    (row = None /\ c' = c) \/ (exists c0 g0, step c0 = Done (None, c') g0).
Proof.
  induction k as [|k IH]; intros row last c last' c' g H; [discriminate|].
  cbn [Unique_next_loop] in H. destruct row as [r|].
  - destruct last as [p|]; [|discriminate].
    assert (Hskip : forall g', 
      ('(row', c1) <- step c ;; Unique_next_loop step k row' (Some p) c1) =
        Done (None, last', c') g' ->
      exists c0 g0, step c0 = Done (None, c') g0).
    { intros g' H'.
      apply bind_Done in H' as ([row1 c1] & g1 & g2 & Hstep & H' & _).
      destruct (IH _ _ _ _ _ _ H') as [[-> ->]|Hlater]; eauto. }
    right. destruct (length r =? length p).
    + apply bind_Done in H as (equal & g1 & g2 & _ & H & _).
      destruct equal; [|discriminate]. cbn [negb] in H. eapply Hskip; eauto.
    + eapply Hskip; eauto.
  - injection H as _ <- _. left. auto.
Qed.

End EndLoops.

Lemma NestedLoopsJoin_next_loop_end
    (step_l step_r : Iterator -> outcome (option Row * Iterator))
    (op_l : Iterator -> outcome Iterator) (lcs rcs : ColumnSelector) :
  forall k lrow rrow l r lrow' rrow' l' r' g,
    NestedLoopsJoin_next_loop step_l op_l step_r lcs rcs k lrow rrow l r =
      Done (lrow', rrow', l', r') g ->
    lrow' = None \/
    (rrow' = None /\ rrow = None /\ r' = r /\ lrow' = lrow) \/
    (exists a b, lrow' = Some a /\ rrow' = Some b).
Proof.
  induction k as [|k IH]; intros lrow rrow l r lrow' rrow' l' r' g H; [discriminate|].
  cbn [NestedLoopsJoin_next_loop] in H.
  destruct lrow as [a0|]; [destruct rrow as [b0|]|].
  - apply bind_Done in H as (matched & g1 & g2 & _ & H & _).
    destruct matched.
    + injection H as <- <- _ _ _. right. right. eauto.
    + apply bind_Done in H as ([lrow1 l1] & g3 & g4 & _ & H & _).
      destruct lrow1 as [x|].
      * destruct (IH _ _ _ _ _ _ _ _ _ H) as [E|[(_ & E & _)|E]]; auto; discriminate.
      * apply bind_Done in H as ([rrow1 r1] & g5 & g6 & _ & H & _).
        destruct rrow1 as [y|].
        -- apply bind_Done in H as (l2 & g7 & g8 & _ & H & _).
           apply bind_Done in H as ([lrow2 l3] & g9 & g10 & _ & H & _).
           destruct (IH _ _ _ _ _ _ _ _ _ H) as [E|[(_ & E & _)|E]]; auto; discriminate.
        -- destruct (IH _ _ _ _ _ _ _ _ _ H) as [E|[(_ & _ & _ & E)|E]]; auto.
  - injection H as <- <- _ <- _. right. left. auto.
  - injection H as <- _ _ _ _. left. reflexivity.
Qed.

Section EndOfStream.

Context {sorting : StdSort}.

Lemma Select_next_loop_None (step : Iterator -> outcome (option Row * Iterator))
    (p : Row -> bool) (k : nat) (c : Iterator) (o : option Row) (c' : Iterator)
    (g : list Row) :
  Select_next_loop step p k None c = Done (o, c') g -> o = None.
Proof. destruct k; [discriminate|]. intros H. injection H as <- _ _. reflexivity. Qed.

Lemma Unique_next_loop_None (step : Iterator -> outcome (option Row * Iterator))
    (k : nat) (last : option Row) (c : Iterator) (o last' : option Row)
    (c' : Iterator) (g : list Row) :
  Unique_next_loop step k None last c = Done (o, last', c') g -> o = None.
Proof. destruct k; [discriminate|]. intros H. injection H as <- _ _ _. reflexivity. Qed.

Lemma next_after_the_end :
  forall fuel it it' g,
    next fuel it = Done (None, it') g ->
    forall fuel2 o it'' g', next fuel2 it' = Done (o, it'') g' -> o = None.
Proof.
  induction fuel as [|f IH]; intros it it' g H fuel2 o it'' g' H2; [discriminate|].
  destruct fuel2 as [|f2]; [discriminate|].
  destruct it as [t i e | index lo hi i e | c p | c cs
                 | l r lcs rcs lrow | c cols s i | c last]; cbn [next] in H.
  - destruct (negb (i =? e)) eqn:Hie.
    + destruct (nth_error (rows t) i); discriminate.
    + injection H as <- _. cbn [next] in H2. rewrite Hie in H2.
      injection H2 as <- _ _. reflexivity.
  - destruct (negb (Index_empty index)) eqn:Hempty.
    + destruct i as [i|]; [|discriminate]. destruct e as [e|]; [|discriminate].
      apply bind_Done in H as ([row i'] & g1 & g2 & Hloop & H & _).
      injection H as -> <-.
      apply IndexScan_next_loop_end in Hloop. subst i'.
      cbn [next] in H2. rewrite Hempty in H2.
      apply bind_Done in H2 as ([row2 i2] & g3 & g4 & Hloop2 & H2 & _).
      injection H2 as <- _. destruct f2 as [|f2]; [discriminate|].
      cbn [IndexScan_next_loop] in Hloop2. rewrite Nat.eqb_refl in Hloop2.
      injection Hloop2 as <- _ _. reflexivity.
    + injection H as <- _. cbn [next] in H2. rewrite Hempty in H2.
      injection H2 as <- _ _. reflexivity.
  - apply bind_Done in H as ([row c1] & g1 & g2 & Hchild & H & _).
    apply bind_Done in H as ([sel c2] & g3 & g4 & Hloop & H & _).
    injection H as -> <-.
    assert (Hended : exists c0 g0, next f c0 = Done (None, c2) g0).
    { destruct (Select_next_loop_end _ _ _ _ _ Hloop) as [[-> ->]|Hlater]; eauto. }
    destruct Hended as (c0 & g0 & Hend).
    cbn [next] in H2.
    apply bind_Done in H2 as ([row' c3] & g5 & g6 & Hchild2 & H2 & _).
    rewrite (IH _ _ _ Hend _ _ _ _ Hchild2) in H2.
    apply bind_Done in H2 as ([sel' c4] & g7 & g8 & Hloop2 & H2 & _).
    injection H2 as <- _ _. eapply Select_next_loop_None; eauto.
  - apply bind_Done in H as ([row c1] & g1 & g2 & Hchild & H & _).
    destruct row as [r|].
    + apply bind_Done in H as (projected & g3 & g4 & _ & H & _).
      apply bind_Done in H as ([] & g5 & g6 & _ & H & _). discriminate.
    + injection H as <- _. cbn [next] in H2.
      apply bind_Done in H2 as ([row' c3] & g5 & g6 & Hchild2 & H2 & _).
      rewrite (IH _ _ _ Hchild _ _ _ _ Hchild2) in H2.
      injection H2 as <- _ _. reflexivity.
  - apply bind_Done in H as ([rrow r1] & g1 & g2 & Hright & H & _).
    apply bind_Done in H as ([[[lrow' rrow'] l'] r'] & g3 & g4 & Hloop & H & _).
    cbn [next] in H2.
    apply NestedLoopsJoin_next_loop_end in Hloop.
    assert (Hstate : it' = NestedLoopsJoin l' r' lcs rcs lrow' /\
                     (lrow' = None \/ (rrow = None /\ r' = r1))).
    { destruct lrow' as [a|]; [destruct rrow' as [b|]|].
      - apply bind_Done in H as (nested & g5 & g6 & _ & H & _).
        apply bind_Done in H as ([] & g7 & g8 & _ & H & _). discriminate.
      - injection H as <-. split; [reflexivity|].
        destruct Hloop as [E|[(_ & E1 & E2 & _)|(a' & b' & _ & E)]];
          [discriminate | auto | discriminate].
      - injection H as <-. auto. }
    destruct Hstate as [-> Hwhy]. cbn [next] in H2.
    apply bind_Done in H2 as ([rrow2 r2] & g5 & g6 & Hright2 & H2 & _).
    apply bind_Done in H2 as ([[[lrow3 rrow3] l3] r3] & g7 & g8 & Hloop2 & H2 & _).
    destruct f2 as [|f2]; [discriminate|].
    destruct Hwhy as [-> | [-> ->]].
    + cbn [NestedLoopsJoin_next_loop] in Hloop2. injection Hloop2 as <- <- <- <-.
      injection H2 as <- _ _. reflexivity.
    + rewrite (IH _ _ _ Hright _ _ _ _ Hright2) in Hloop2.
      cbn [NestedLoopsJoin_next_loop] in Hloop2.
      destruct lrow' as [a|]; injection Hloop2 as <- <- <- <-;
        injection H2 as <- _ _; reflexivity.
  - destruct i as [i|]; [|discriminate].
    destruct (negb (i =? length s)) eqn:His.
    + destruct (nth_error s i); discriminate.
    + injection H as <- _. cbn [next] in H2. rewrite His in H2.
      injection H2 as <- _ _. reflexivity.
  - apply bind_Done in H as ([row c1] & g1 & g2 & Hchild & H & _).
    apply bind_Done in H as ([[u last2] c2] & g3 & g4 & Hloop & H & _).
    injection H as -> <-.
    assert (Hended : exists c0 g0, next f c0 = Done (None, c2) g0).
    { destruct (Unique_next_loop_end _ _ _ _ _ Hloop) as [[-> ->]|Hlater]; eauto. }
    destruct Hended as (c0 & g0 & Hend).
    cbn [next] in H2.
    apply bind_Done in H2 as ([row' c3] & g5 & g6 & Hchild2 & H2 & _).
    rewrite (IH _ _ _ Hend _ _ _ _ Hchild2) in H2.
    apply bind_Done in H2 as ([[u' last3] c4] & g7 & g8 & Hloop2 & H2 & _).
    injection H2 as <- _ _. eapply Unique_next_loop_None; eauto.
Qed.

End EndOfStream.

(** X13.  The end of a stream is final for every operator tree: once
    next() has returned no row, every later call to next() on the object
    that returns at all returns no row, and draining it returns no rows. *)
Theorem end_of_stream_is_final {sorting : StdSort}
    (fuel : nat) (it it' : Iterator) (g : list Row)
    (Hend : next fuel it = Done (None, it') g) :
  (forall fuel2 o it'' g', next fuel2 it' = Done (o, it'') g' -> o = None) /\
  (forall fuel2 l it'' g', drain fuel2 it' = Done (l, it'') g' -> l = []).
Proof.
  split.
  - exact (@next_after_the_end _ fuel it it' g Hend).
  - intros fuel2 l it'' g' Hdrain. unfold drain in Hdrain.
    destruct fuel2 as [|f2]; [discriminate|]. cbn [drain_loop] in Hdrain.
    apply bind_Done in Hdrain as ([o it1] & g1 & g2 & Hstep & H & _).
    rewrite (@next_after_the_end _ fuel it it' g Hend (S f2) o it1 g1 Hstep) in H.
    injection H as <- _ _. reflexivity.
Qed.

Lemma end_of_stream_is_final_witness :
  (forall fuel2 o it'' g',
     next (sorting := ties_kept_sort) fuel2
       (NestedLoopsJoin (TableIterator (table_of 1 [["1"]; ["2"]]) 2 2)
          (TableIterator (table_of 1 [["3"]]) 1 1)
          {| cs_n_columns := 1; cs_columns := [0] |}
          {| cs_n_columns := 1; cs_columns := [0] |} None) = Done (o, it'') g' ->
     o = None) /\
  (forall fuel2 l it'' g',
     drain (sorting := ties_kept_sort) fuel2
       (NestedLoopsJoin (TableIterator (table_of 1 [["1"]; ["2"]]) 2 2)
          (TableIterator (table_of 1 [["3"]]) 1 1)
          {| cs_n_columns := 1; cs_columns := [0] |}
          {| cs_n_columns := 1; cs_columns := [0] |} None) = Done (l, it'') g' ->
     l = []).
Proof.
  exact (@end_of_stream_is_final ties_kept_sort 8
           (NestedLoopsJoin (TableIterator (table_of 1 [["1"]; ["2"]]) 0 2)
              (TableIterator (table_of 1 [["3"]]) 0 1)
              {| cs_n_columns := 1; cs_columns := [0] |}
              {| cs_n_columns := 1; cs_columns := [0] |} (Some ["1"]))
           _ _ eq_refl).
Defined.

(** ** IndexScan: range scans *)

Section IndexScanLogged.

Context {sorting : StdSort}.
Variable index : Index.
Variables lo0 hi0 : string.
Variables lo hi : Row.
Hypothesis keys : keys_not_empty index = true.

Lemma IndexScan_YieldsLog (fuel : nat) :
  length (entries index) < fuel ->
  forall n i, n = length (entries index) - i -> i <= length (entries index) ->
  YieldsLog (next (S fuel))
    (IndexScan index (lo0 :: lo) (hi0 :: hi) (Some i) (Some (length (entries index))))
    (IndexScan_rows lo0 hi0 (skipn i (entries index)))
    (IndexScan index (lo0 :: lo) (hi0 :: hi)
       (Some (length (entries index))) (Some (length (entries index)))) [].
Proof.
  intros Hfuel.
  induction n as [n IH] using lt_wf_ind. intros i Hn Hi.
  destruct (entries index) as [|e es] eqn:Hes.
  - simpl in Hi. assert (i = 0) by lia. subst i. simpl.
    eapply YieldsLog_end. simpl. unfold Index_empty. rewrite Hes. reflexivity.
  - rewrite <- Hes in *.
    destruct (@IndexScan_next_loop_spec index lo0 hi0 lo hi keys
                (length (entries index) - i) i fuel
                eq_refl Hi ltac:(lia)) as (o & i' & Hloop & Hi' & Ho).
    assert (Hnext : next (S fuel)
              (IndexScan index (lo0 :: lo) (hi0 :: hi) (Some i)
                 (Some (length (entries index)))) =
            Done (o, IndexScan index (lo0 :: lo) (hi0 :: hi) (Some i')
                       (Some (length (entries index)))) []).
    { cbn [next]. unfold Index_empty. rewrite Hes. rewrite <- Hes. simpl negb. cbv iota.
      rewrite Hloop. reflexivity. }
    destruct o as [data|].
    + destruct Ho as [Hlt Hrows]. rewrite Hrows.
      change (@nil Row) with (@nil Row ++ @nil Row).
      eapply YieldsLog_row; [exact Hnext|].
      apply (IH (length (entries index) - i')); lia.
    + destruct Ho as [-> Hrows]. rewrite Hrows.
      eapply YieldsLog_end. exact Hnext.
Qed.

Lemma IndexScan_drain (fuel i : nat) :
  length (entries index) < fuel -> i <= length (entries index) ->
  drain (S fuel)
    (IndexScan index (lo0 :: lo) (hi0 :: hi) (Some i) (Some (length (entries index)))) =
  Done (IndexScan_rows lo0 hi0 (skipn i (entries index)),
        IndexScan index (lo0 :: lo) (hi0 :: hi)
          (Some (length (entries index))) (Some (length (entries index)))) [].
Proof.
  intros Hfuel Hi. unfold drain. apply YieldsLog_drain_loop.
  - apply (@IndexScan_YieldsLog fuel Hfuel (length (entries index) - i) i); lia.
  - unfold IndexScan_rows. rewrite length_map.
    pose proof (filter_length_le (leading_key_in_range lo0 hi0)
                  (skipn i (entries index))).
    rewrite length_skipn in H. lia.
Qed.

End IndexScanLogged.

Lemma inverted_range_is_empty (lo0 hi0 : string) (es : list (Row * Row)) :
  string_compare lo0 hi0 = Gt -> IndexScan_rows lo0 hi0 es = [].
Proof.
  intros Hgt. unfold IndexScan_rows.
  assert (Hnone : forall entry, leading_key_in_range lo0 hi0 entry = false).
  { intros [key data]. unfold leading_key_in_range. simpl.
    destruct key as [|k0 key]; [reflexivity|].
    unfold string_leb.
    destruct (string_compare lo0 k0) eqn:H1; [| |reflexivity].
    - apply string_compare_Eq in H1. subst k0. rewrite Hgt. reflexivity.
    - destruct (string_compare k0 hi0) eqn:H2; [| |reflexivity].
      + apply string_compare_Eq in H2. subst k0. congruence.
      + pose proof (string_compare_Lt_trans _ _ _ H1 H2). congruence. }
  induction es as [|e es IH]; [reflexivity|].
  simpl. rewrite Hnone. exact IH.
Qed.

(** X14.  For every index whose key rows have a leading column, an IndexScan
    opened from whatever cursor state (newly built, partly read, or closed)
    and drained returns the data rows of exactly the entries whose leading
    key column lies between [lo[0]] and [hi[0]], both included, in index
    order, reclaims nothing, and leaves both cursors at the end. *)
Theorem IndexScan_range_scan {sorting : StdSort}
    (index : Index) (lo0 hi0 : string) (lo hi : Row) (i e : option nat) (fuel : nat)
    (Hkeys : keys_not_empty index = true)
    (Hfuel : length (entries index) < fuel) :
  (it <- open (S fuel) (IndexScan index (lo0 :: lo) (hi0 :: hi) i e) ;;
   drain (S fuel) it) =
  Done (map snd (filter (leading_key_in_range lo0 hi0) (entries index)),
        IndexScan index (lo0 :: lo) (hi0 :: hi)
          (Some (length (entries index))) (Some (length (entries index)))) [].
Proof.
  cbn [open]. cbn [bind ret].
  rewrite (@IndexScan_drain _ index lo0 hi0 lo hi Hkeys fuel 0) by lia.
  reflexivity.
Qed.

Lemma IndexScan_range_scan_witness :
  (it <- open (sorting := ties_kept_sort) 6
           (IndexScan {| Index_n_columns := 2;
                         entries := [(["1"], ["1"; "a"]); (["2"; "z"], ["2"; "b"]);
                                     (["3"], ["3"; "c"]); (["4"], ["4"; "d"])] |}
              ["2"] ["3"; "q"] (Some 3) (Some 4)) ;;
   drain (sorting := ties_kept_sort) 6 it) =
  Done (map snd (filter (leading_key_in_range "2" "3")
                   [(["1"], ["1"; "a"]); (["2"; "z"], ["2"; "b"]);
                    (["3"], ["3"; "c"]); (["4"], ["4"; "d"])]),
        IndexScan {| Index_n_columns := 2;
                     entries := [(["1"], ["1"; "a"]); (["2"; "z"], ["2"; "b"]);
                                 (["3"], ["3"; "c"]); (["4"], ["4"; "d"])] |}
          ["2"] ["3"; "q"] (Some 4) (Some 4)) [].
Proof.
  exact (@IndexScan_range_scan ties_kept_sort
           {| Index_n_columns := 2;
              entries := [(["1"], ["1"; "a"]); (["2"; "z"], ["2"; "b"]);
                          (["3"], ["3"; "c"]); (["4"], ["4"; "d"])] |}
           "2" "3" [] ["q"] (Some 3) (Some 4) 5 eq_refl ltac:(simpl; lia)).
Defined.

(** X15.  An IndexScan whose lower bound is above its upper bound
    ([lo[0] > hi[0]]) returns no row; and over an empty index next() returns
    no row in every state of the object, also before open(). *)
Theorem IndexScan_returns_nothing {sorting : StdSort}
    (index : Index) (lo0 hi0 : string) (lo hi : Row) (i e : option nat) (fuel : nat)
    (Hkeys : keys_not_empty index = true)
    (Hfuel : length (entries index) < fuel)
    (Hinverted : string_compare lo0 hi0 = Gt) :
  (it <- open (S fuel) (IndexScan index (lo0 :: lo) (hi0 :: hi) i e) ;;
   drain (S fuel) it) =
    Done ([], IndexScan index (lo0 :: lo) (hi0 :: hi)
                (Some (length (entries index))) (Some (length (entries index)))) [] /\
  (forall n lo' hi' i' e' f,
     next (S f) (IndexScan {| Index_n_columns := n; entries := [] |} lo' hi' i' e') =
     Done (None, IndexScan {| Index_n_columns := n; entries := [] |} lo' hi' i' e') []).
Proof.
  split; [|reflexivity].
  cbn [open]. cbn [bind ret].
  rewrite (@IndexScan_drain _ index lo0 hi0 lo hi Hkeys fuel 0) by lia.
  cbn [skipn]. rewrite (@inverted_range_is_empty lo0 hi0 _ Hinverted). reflexivity.
Qed.

Lemma IndexScan_returns_nothing_witness :
  (it <- open (sorting := ties_kept_sort) 4
           (IndexScan {| Index_n_columns := 1;
                         entries := [(["1"], ["1"]); (["2"], ["2"])] |}
              ["2"] ["1"] None None) ;;
   drain (sorting := ties_kept_sort) 4 it) =
  Done ([], IndexScan {| Index_n_columns := 1;
                         entries := [(["1"], ["1"]); (["2"], ["2"])] |}
              ["2"] ["1"] (Some 2) (Some 2)) [].
Proof.
  exact (proj1 (@IndexScan_returns_nothing ties_kept_sort
                  {| Index_n_columns := 1; entries := [(["1"], ["1"]); (["2"], ["2"])] |}
                  "2" "1" [] [] None None 3 eq_refl ltac:(simpl; lia) eq_refl)).
Defined.

(** ** NestedLoopsJoin: empty children, soundness, one left row *)

(** X16.  A join one of whose children has no row returns no row: the first
    call to next() after open() pulls one row from the right child and
    returns nothing.  When it is the left child that is empty, the right row
    pulled is dropped without being handed to Row::reclaim. *)
Theorem NestedLoopsJoin_of_an_empty_child {sorting : StdSort}
    (fuel : nat) (left right l0 l1 r0 r1 : Iterator) (lcs rcs : ColumnSelector)
    (lrow0 lrow rrow : option Row) (ga gb gc gd : list Row)
    (Hleft_open : open fuel left = Done l0 ga)
    (Hright_open : open fuel right = Done r0 gc)
    (Hleft_next : next fuel l0 = Done (lrow, l1) gb)
    (Hright_next : next fuel r0 = Done (rrow, r1) gd)
    (Hempty : lrow = None \/ rrow = None) :
  (it <- open (S fuel) (NestedLoopsJoin left right lcs rcs lrow0) ;;
   next (S fuel) it) =
  Done (None, NestedLoopsJoin l1 r1 lcs rcs lrow) (ga ++ gc ++ gb ++ gd).
Proof.
  cbn [open]. rewrite Hleft_open. cbn [bind].
  rewrite Hright_open. cbn [bind]. rewrite Hleft_next. cbn [bind ret].
  cbn [next]. rewrite Hright_next. cbn [bind].
  clear Hleft_next Hright_next Hright_open.
  destruct fuel as [|f]; [discriminate|]. cbn [NestedLoopsJoin_next_loop].
  destruct Hempty as [-> | ->].
  - cbn [bind ret]. rewrite !app_nil_r, <- !app_assoc. reflexivity.
  - destruct lrow; cbn [bind ret]; rewrite !app_nil_r, <- !app_assoc; reflexivity.
Qed.

Lemma NestedLoopsJoin_of_an_empty_child_witness :
  (it <- open (sorting := ties_kept_sort) 3
           (NestedLoopsJoin (new_TableIterator (table_of 1 []))
              (new_TableIterator (table_of 1 [["1"]; ["2"]]))
              {| cs_n_columns := 1; cs_columns := [0] |}
              {| cs_n_columns := 1; cs_columns := [0] |} None) ;;
   next (sorting := ties_kept_sort) 3 it) =
  Done (None,
        NestedLoopsJoin (TableIterator (table_of 1 []) 0 0)
          (TableIterator (table_of 1 [["1"]; ["2"]]) 1 2)
          {| cs_n_columns := 1; cs_columns := [0] |}
          {| cs_n_columns := 1; cs_columns := [0] |} None)
    ([] ++ [] ++ [] ++ []).
Proof.
  exact (@NestedLoopsJoin_of_an_empty_child ties_kept_sort 2
           (new_TableIterator (table_of 1 []))
           (new_TableIterator (table_of 1 [["1"]; ["2"]]))
           (TableIterator (table_of 1 []) 0 0) (TableIterator (table_of 1 []) 0 0)
           (TableIterator (table_of 1 [["1"]; ["2"]]) 0 2)
           (TableIterator (table_of 1 [["1"]; ["2"]]) 1 2)
           {| cs_n_columns := 1; cs_columns := [0] |}
           {| cs_n_columns := 1; cs_columns := [0] |}
           None None (Some ["1"]) [] [] [] []
           eq_refl eq_refl eq_refl eq_refl (or_introl eq_refl)).
Defined.

Lemma find_from_Some (lc rc : nat) (r : Row) :
  forall cur l rest,
    find_from lc rc r cur = Some (l :: rest) ->
    rows_match lc rc l r = true /\ incl (l :: rest) cur.
Proof.
  induction cur as [|a cur IH]; intros l rest H; [discriminate|].
  cbn [find_from] in H. destruct (rows_match lc rc a r) eqn:Hm.
  - injection H as <- <-. split; [exact Hm | apply incl_refl].
  - destruct (IH _ _ H) as [Hmatch Hincl]. split; [exact Hmatch|].
    apply incl_tl. exact Hincl.
Qed.

Lemma NestedLoopsJoin_rows_sound (lc rc : nat) (L : list Row) :
  forall R cur, incl cur L ->
  exists pairs : list (Row * Row),
    NestedLoopsJoin_rows lc rc L cur R =
      map (fun ab => joined rc (fst ab) (snd ab)) pairs /\
    Forall (fun ab => In (fst ab) L /\ rows_match lc rc (fst ab) (snd ab) = true) pairs /\
    Subsequence (map snd pairs) R.
Proof.
  induction R as [|r R IH]; intros cur Hcur.
  - exists []. repeat split; constructor.
  - cbn [NestedLoopsJoin_rows].
    assert (Hnone : exists pairs : list (Row * Row),
              @nil Row = map (fun ab => joined rc (fst ab) (snd ab)) pairs /\
              Forall (fun ab => In (fst ab) L /\
                                rows_match lc rc (fst ab) (snd ab) = true) pairs /\
              Subsequence (map snd pairs) (r :: R)).
    { exists []. repeat split; [constructor|].
      clear. induction (r :: R); constructor; assumption. }
    assert (Hrestart : exists pairs : list (Row * Row),
              NestedLoopsJoin_rows lc rc L L R =
                map (fun ab => joined rc (fst ab) (snd ab)) pairs /\
              Forall (fun ab => In (fst ab) L /\
                                rows_match lc rc (fst ab) (snd ab) = true) pairs /\
              Subsequence (map snd pairs) (r :: R)).
    { destruct (IH L (incl_refl L)) as (pairs & Hrows & Hall & Hsub).
      exists pairs. repeat split; auto. constructor. exact Hsub. }
    destruct cur as [|a cur']; [exact Hnone|].
    destruct (find_from lc rc r (a :: cur')) as [[|l rest]|] eqn:Hfind;
      [exact Hrestart | | exact Hrestart].
    destruct (find_from_Some _ _ _ _ Hfind) as [Hm Hincl].
    destruct (IH (l :: rest)) as (pairs & Hrows & Hall & Hsub).
    { intros x Hx. apply Hcur. apply Hincl. exact Hx. }
    exists ((l, r) :: pairs). cbn [map fst snd]. split; [|split].
    + rewrite Hrows. reflexivity.
    + constructor; [|exact Hall]. cbn [fst snd]. split; [|exact Hm].
      apply Hcur. apply Hincl. left. reflexivity.
    + apply Subsequence_keep. exact Hsub.
Qed.

Lemma NestedLoopsJoin_rows_one_left_row (lc rc : nat) (a : Row) :
  forall R, NestedLoopsJoin_rows lc rc [a] [a] R =
            map (joined rc a) (filter (fun r => rows_match lc rc a r) R).
Proof.
  induction R as [|r R IH]; [reflexivity|].
  cbn [NestedLoopsJoin_rows find_from filter].
  destruct (rows_match lc rc a r); cbn [map]; rewrite IH; reflexivity.
Qed.

(** X17.  For every pair of tables scanned as the children of a join (every
    row holding its join column), every row the join returns is built from
    a row of the left table and a row of the right table that agree on the
    join columns, and the right rows used come in the order of the right
    table, each at most once. *)
Theorem NestedLoopsJoin_returns_only_joins_of_matching_rows {sorting : StdSort}
    (fuel : nat) (left_table right_table : Table)
    (lcs rcs : ColumnSelector) (lc rc : nat)
    (Hlc : nth_error (cs_columns lcs) 0 = Some lc)
    (Hrc : nth_error (cs_columns rcs) 0 = Some rc)
    (Hleft : all_have_column lc (rows left_table) = true)
    (Hright : all_have_column rc (rows right_table) = true)
    (Hfuel : S (length (rows left_table)) * S (length (rows right_table)) < fuel) :
  exists (pairs : list (Row * Row)) it' g,
    (it <- open (S fuel)
             (NestedLoopsJoin (new_TableIterator left_table)
                (new_TableIterator right_table) lcs rcs None) ;;
     drain (S fuel) it) =
      Done (map (fun ab => joined rc (fst ab) (snd ab)) pairs, it') g /\
    Forall (fun ab => In (fst ab) (rows left_table) /\
                      rows_match lc rc (fst ab) (snd ab) = true) pairs /\
    Subsequence (map snd pairs) (rows right_table).
Proof.
  destruct (@NestedLoopsJoin_over_tables _ fuel left_table right_table lcs rcs lc rc None
              Hlc Hrc Hleft Hright Hfuel) as (it' & g & Hd).
  destruct (@NestedLoopsJoin_rows_sound lc rc (rows left_table) (rows right_table)
              (rows left_table) (incl_refl _)) as (pairs & Hrows & Hall & Hsub).
  exists pairs, it', g. rewrite <- Hrows. auto.
Qed.

Lemma NestedLoopsJoin_returns_only_joins_of_matching_rows_witness :
  exists (pairs : list (Row * Row)) it' g,
    (it <- open (sorting := ties_kept_sort) 14
             (NestedLoopsJoin (new_TableIterator (table_of 2 [["1"; "a"]; ["2"; "b"]]))
                (new_TableIterator (table_of 2 [["2"; "p"]; ["1"; "q"]; ["2"; "r"]]))
                {| cs_n_columns := 2; cs_columns := [0] |}
                {| cs_n_columns := 2; cs_columns := [0] |} None) ;;
     drain (sorting := ties_kept_sort) 14 it) =
      Done (map (fun ab => joined 0 (fst ab) (snd ab)) pairs, it') g /\
    Forall (fun ab => In (fst ab) [["1"; "a"]; ["2"; "b"]] /\
                      rows_match 0 0 (fst ab) (snd ab) = true) pairs /\
    Subsequence (map snd pairs) [["2"; "p"]; ["1"; "q"]; ["2"; "r"]].
Proof.
  exact (@NestedLoopsJoin_returns_only_joins_of_matching_rows ties_kept_sort 13
           (table_of 2 [["1"; "a"]; ["2"; "b"]])
           (table_of 2 [["2"; "p"]; ["1"; "q"]; ["2"; "r"]])
           {| cs_n_columns := 2; cs_columns := [0] |}
           {| cs_n_columns := 2; cs_columns := [0] |} 0 0
           eq_refl eq_refl eq_refl eq_refl ltac:(simpl; lia)).
Defined.

(** X18.  When the left table has exactly one row, the join returns the
    whole join: that row joined with every row of the right table that
    agrees with it on the join columns, in the order of the right table. *)
Theorem NestedLoopsJoin_with_one_left_row {sorting : StdSort}
    (fuel : nat) (columns_left : list string) (a : Row) (right_table : Table)
    (lcs rcs : ColumnSelector) (lc rc : nat)
    (Hlc : nth_error (cs_columns lcs) 0 = Some lc)
    (Hrc : nth_error (cs_columns rcs) 0 = Some rc)
    (Hleft : lc < length a)
    (Hright : all_have_column rc (rows right_table) = true)
    (Hfuel : 2 * S (length (rows right_table)) < fuel) :
  exists it' g,
    (it <- open (S fuel)
             (NestedLoopsJoin
                (new_TableIterator {| columns := columns_left; rows := [a] |})
                (new_TableIterator right_table) lcs rcs None) ;;
     drain (S fuel) it) =
    Done (map (joined rc a)
            (filter (fun r => rows_match lc rc a r) (rows right_table)), it') g.
Proof.
  rewrite <- NestedLoopsJoin_rows_one_left_row.
  apply (@NestedLoopsJoin_over_tables _ fuel {| columns := columns_left; rows := [a] |}
           right_table lcs rcs lc rc None Hlc Hrc); try assumption.
  cbn [rows all_have_column forallb]. rewrite andb_true_r. apply Nat.ltb_lt. exact Hleft.
Qed.

Lemma NestedLoopsJoin_with_one_left_row_witness :
  exists it' g,
    (it <- open (sorting := ties_kept_sort) 10
             (NestedLoopsJoin
                (new_TableIterator {| columns := ["k"; "v"]; rows := [["2"; "b"]] |})
                (new_TableIterator (table_of 2 [["2"; "p"]; ["1"; "q"]; ["2"; "r"]]))
                {| cs_n_columns := 2; cs_columns := [0] |}
                {| cs_n_columns := 2; cs_columns := [0] |} None) ;;
     drain (sorting := ties_kept_sort) 10 it) =
    Done (map (joined 0 ["2"; "b"])
            (filter (fun r => rows_match 0 0 ["2"; "b"] r)
               [["2"; "p"]; ["1"; "q"]; ["2"; "r"]]), it') g.
Proof.
  exact (@NestedLoopsJoin_with_one_left_row ties_kept_sort 9 ["k"; "v"] ["2"; "b"]
           (table_of 2 [["2"; "p"]; ["1"; "q"]; ["2"; "r"]])
           {| cs_n_columns := 2; cs_columns := [0] |}
           {| cs_n_columns := 2; cs_columns := [0] |} 0 0
           eq_refl eq_refl ltac:(simpl; lia) eq_refl ltac:(simpl; lia)).
Defined.

(** ** Unique over Sort *)

Lemma RowCompare_tied_columns (cols : list nat) (a b : Row) :
  RowCompare cols a b = false -> RowCompare cols b a = false ->
  forall c, In c cols -> key_column a c = key_column b c.
Proof.
  induction cols as [|c0 cols IH]; intros Hab Hba c Hc; [contradiction|].
  cbn [RowCompare] in Hab, Hba.
  destruct (string_compare (key_column a c0) (key_column b c0)) eqn:H1;
    try discriminate.
  - apply string_compare_Eq in H1. rewrite H1, string_compare_refl in Hba.
    destruct Hc as [<-|Hc]; [exact H1|]. apply IH; assumption.
  - apply string_compare_Lt_Gt in H1. rewrite H1 in Hba. discriminate.
Qed.

Lemma RowCompare_all_columns_tied (w : nat) (a b : Row) :
  length a = w -> length b = w ->
  RowCompare (seq 0 w) a b = false -> RowCompare (seq 0 w) b a = false -> a = b.
Proof.
  intros Ha Hb Hab Hba.
  apply (nth_ext a b ""%string ""%string); [congruence|].
  intros n Hn. apply (RowCompare_tied_columns _ _ _ Hab Hba).
  apply in_seq. lia.
Qed.

Section Distinct.

Variable w : nat.

Lemma adjacent_distinct_sorted (s : list Row) :
  forall p,
    nondecreasing (RowCompare (seq 0 w)) s ->
    Forall (fun x => RowCompare (seq 0 w) x p = false) s ->
    length p = w -> Forall (fun x => length x = w) s ->
    NoDup (adjacent_distinct (Some p) s) /\
    (forall x, In x (adjacent_distinct (Some p) s) <-> In x s /\ x <> p) /\
    nondecreasing (RowCompare (seq 0 w)) (adjacent_distinct (Some p) s).
Proof.
  induction s as [|x s IH]; intros p Hsorted Habove Hp Hwidth.
  - cbn [adjacent_distinct]. split; [constructor|]. split; [|constructor].
    intros x. split; [contradiction | intros [[] _]].
  - apply StronglySorted_inv in Hsorted. destruct Hsorted as [Hsorted Hx].
    apply Forall_cons_iff in Habove. destruct Habove as [Hxp Hsp].
    apply Forall_cons_iff in Hwidth. destruct Hwidth as [Hxw Hsw].
    cbn [adjacent_distinct]. destruct (row_eqb x p) eqn:Heq.
    + apply row_eqb_eq in Heq. subst x.
      destruct (IH p Hsorted Hsp Hp Hsw) as (Hnd & Hin & Hnon).
      split; [exact Hnd|]. split; [|exact Hnon].
      intros y. rewrite Hin. split.
      * intros [Hy Hne]. split; [right; exact Hy | exact Hne].
      * intros [[<-|Hy] Hne]; [contradiction | auto].
    + assert (Hne : x <> p).
      { intros E. apply row_eqb_eq in E. congruence. }
      destruct (IH x Hsorted Hx Hxw Hsw) as (Hnd & Hin & Hnon).
      split; [|split].
      * constructor; [|exact Hnd]. intros Hxin. apply Hin in Hxin.
        destruct Hxin as [_ Hxx]. contradiction.
      * intros y. cbn [In]. rewrite Hin. split.
        -- intros [<-|[Hy Hyx]]; [auto|]. split; [right; exact Hy|].
           intros ->. apply Hne.
           apply (@RowCompare_all_columns_tied w x p Hxw Hp Hxp).
           rewrite Forall_forall in Hx. apply Hx. exact Hy.
        -- intros [[<-|Hy] Hyp]; [left; reflexivity|].
           destruct (list_eq_dec string_dec x y) as [E|E]; [left; exact E|].
           right. split; [exact Hy | congruence].
      * constructor; [exact Hnon|]. rewrite Forall_forall. intros y Hy.
        apply Hin in Hy. destruct Hy as [Hy _].
        rewrite Forall_forall in Hx. apply Hx. exact Hy.
Qed.

Lemma Unique_rows_of_sorted (s : list Row) :
  nondecreasing (RowCompare (seq 0 w)) s ->
  Forall (fun x => length x = w) s ->
  NoDup (Unique_rows None s) /\
  (forall x, In x (Unique_rows None s) <-> In x s) /\
  nondecreasing (RowCompare (seq 0 w)) (Unique_rows None s).
Proof.
  intros Hsorted Hwidth.
  assert (Hsame : same_width s).
  { rewrite Forall_forall in Hwidth. intros a b Ha Hb.
    rewrite (Hwidth a Ha), (Hwidth b Hb). reflexivity. }
  assert (E : Unique_rows None s = adjacent_distinct None s)
    by (apply Unique_rows_same_width; [discriminate | exact Hsame]).
  rewrite E. clear E.
  destruct s as [|x s]; cbn [adjacent_distinct].
  - split; [constructor|]. split; [reflexivity | constructor].
  - apply StronglySorted_inv in Hsorted. destruct Hsorted as [Hsorted Hx].
    apply Forall_cons_iff in Hwidth. destruct Hwidth as [Hxw Hsw].
    destruct (@adjacent_distinct_sorted s x Hsorted Hx Hxw Hsw) as (Hnd & Hin & Hnon).
    split; [|split].
    + constructor; [|exact Hnd]. intros Hxin. apply Hin in Hxin.
      destruct Hxin as [_ Hxx]. contradiction.
    + intros y. cbn [In]. rewrite Hin. split.
      * intros [<-|[Hy _]]; auto.
      * intros [<-|Hy]; [left; reflexivity|].
        destruct (list_eq_dec string_dec x y) as [E|E]; [left; exact E|].
        right. split; [exact Hy | congruence].
    + constructor; [exact Hnon|]. rewrite Forall_forall. intros y Hy.
      apply Hin in Hy. destruct Hy as [Hy _].
      rewrite Forall_forall in Hx. apply Hx. exact Hy.
Qed.

End Distinct.

(** X19.  Unique over a Sort on all columns returns every distinct row of
    the child exactly once: when the child's rows all have [w] columns and
    the Sort orders by the columns 0 .. w-1, the rows returned hold no row
    twice, are exactly the rows that occur among the child's rows, and come
    in nondecreasing order, for every conforming std::sort. *)
Theorem Unique_over_Sort_returns_each_row_once {sorting : StdSort}
    (fuel w : nat) (input opened input' : Iterator) (l g0 g : list Row)
    (Hopen : open fuel input = Done opened g0)
    (Hdrain : drain fuel opened = Done (l, input') g)
    (Hwidth : forallb (fun row => length row =? w) l = true) :
  exists out it' g',
    (it <- open (S (S fuel)) (new_Unique (new_Sort input (seq 0 w))) ;;
     drain (S (S fuel)) it) = Done (out, it') g' /\
    NoDup out /\
    (forall row, In row out <-> In row l) /\
    nondecreasing (RowCompare (seq 0 w)) out.
Proof.
  apply drain_loop_Yields in Hdrain. destruct Hdrain as [HY Hlen].
  destruct (@Sort_open _ fuel input opened input' (seq 0 w) l g0 [] None Hopen HY Hlen)
    as [gs Hsort].
  set (sorted := std_sort (RowCompare (seq 0 w)) l) in *.
  assert (Hperm : Permutation l sorted).
  { apply std_sort_permutation. apply RowCompare_strict_weak_order. }
  assert (Hnon : nondecreasing (RowCompare (seq 0 w)) sorted).
  { apply std_sort_nondecreasing. apply RowCompare_strict_weak_order. }
  assert (Hw : Forall (fun x => length x = w) sorted).
  { rewrite Forall_forall. intros x Hx.
    apply (Permutation_in _ (Permutation_sym Hperm)) in Hx.
    rewrite forallb_forall in Hwidth. apply Nat.eqb_eq. apply Hwidth. exact Hx. }
  destruct (@Unique_rows_of_sorted w sorted Hnon Hw) as (Hnd & Hin & Hout).
  pose proof (@Sort_YieldsLog _ fuel input' (seq 0 w) sorted (length sorted) 0
                ltac:(lia) ltac:(lia)) as HS.
  cbn [skipn] in HS.
  assert (Hls : length sorted < S fuel).
  { rewrite <- (Permutation_length Hperm). lia. }
  pose proof (@Unique_drain _ (S fuel) _ _ _ _ None HS Hls) as HU.
  exists (Unique_rows None sorted). eexists. eexists.
  split; [|split; [exact Hnd | split; [|exact Hout]]].
  - unfold new_Unique, new_Sort. cbn [open]. cbn [open] in Hsort.
    rewrite Hsort. cbn [bind ret]. rewrite HU. reflexivity.
  - intros row. rewrite Hin. split; intros Hr.
    + exact (Permutation_in _ (Permutation_sym Hperm) Hr).
    + exact (Permutation_in _ Hperm Hr).
Qed.

Lemma Unique_over_Sort_returns_each_row_once_witness :
  exists out it' g',
    (it <- open (sorting := ties_reversed_sort) 7
             (new_Unique (new_Sort
                (new_TableIterator
                   (table_of 2 [["2"; "b"]; ["1"; "a"]; ["2"; "b"]; ["1"; "c"]]))
                (seq 0 2))) ;;
     drain (sorting := ties_reversed_sort) 7 it) = Done (out, it') g' /\
    NoDup out /\
    (forall row, In row out <->
                 In row [["2"; "b"]; ["1"; "a"]; ["2"; "b"]; ["1"; "c"]]) /\
    nondecreasing (RowCompare (seq 0 2)) out.
Proof.
  exact (@Unique_over_Sort_returns_each_row_once ties_reversed_sort 5 2
           (new_TableIterator
              (table_of 2 [["2"; "b"]; ["1"; "a"]; ["2"; "b"]; ["1"; "c"]]))
           (TableIterator
              (table_of 2 [["2"; "b"]; ["1"; "a"]; ["2"; "b"]; ["1"; "c"]]) 0 4)
           (TableIterator
              (table_of 2 [["2"; "b"]; ["1"; "a"]; ["2"; "b"]; ["1"; "c"]]) 4 4)
           [["2"; "b"]; ["1"; "a"]; ["2"; "b"]; ["1"; "c"]] [] []
           eq_refl eq_refl eq_refl).
Defined.

(** ** NestedLoopsJoin: n_columns, and a second pass *)

(** X20.  NestedLoopsJoin::n_columns never takes its fallback [return 0]:
    the test [n_selected() >= 0] holds for every selector, and the answer is
    the sum of the two source widths minus one as an [unsigned], so a join
    of two children without columns answers 4294967295. *)
Theorem NestedLoopsJoin_n_columns_wraps :
  (forall l r lcs rcs lrow,
     n_columns (NestedLoopsJoin l r lcs rcs lrow) =
     ((cs_n_columns lcs + cs_n_columns rcs - 1) mod 2 ^ 32)%Z) /\
  (forall rows_l rows_r,
     exists it,
       new_NestedLoopsJoin
         (new_TableIterator {| columns := []; rows := rows_l |}) []
         (new_TableIterator {| columns := []; rows := rows_r |}) [] = Done it [] /\
       n_columns it = 4294967295%Z).
Proof.
  split.
  - intros l r lcs rcs lrow. rewrite NestedLoopsJoin_n_columns. reflexivity.
  - intros rows_l rows_r. eexists. split; reflexivity.
Qed.

(** X21.  close() on an object that is closed changes nothing, whatever the
    operator tree: closing twice is closing once. *)
Theorem close_twice_is_close (it : Iterator) : close (close it) = close it.
Proof.
  induction it as [t i e | index lo hi i e | c IH p | c IH cs
                  | l IHl r IHr lcs rcs lrow | c IH cols s i | c IH last];
    cbn [close]; congruence.
Qed.

(** X22.  A join over two scanned tables starts over when it is closed and
    opened again: from whatever cursors and left row the object holds it
    returns the rows a newly built join returns. *)
Theorem NestedLoopsJoin_reopened_starts_over {sorting : StdSort}
    (fuel : nat) (left_table right_table : Table)
    (lcs rcs : ColumnSelector) (lc rc i ie j je : nat) (lrow : option Row)
    (Hlc : nth_error (cs_columns lcs) 0 = Some lc)
    (Hrc : nth_error (cs_columns rcs) 0 = Some rc)
    (Hleft : all_have_column lc (rows left_table) = true)
    (Hright : all_have_column rc (rows right_table) = true)
    (Hfuel : S (length (rows left_table)) * S (length (rows right_table)) < fuel) :
  exists it' g,
    (it <- open (S fuel)
             (close (NestedLoopsJoin (TableIterator left_table i ie)
                       (TableIterator right_table j je) lcs rcs lrow)) ;;
     drain (S fuel) it) =
    Done (NestedLoopsJoin_rows lc rc (rows left_table) (rows left_table)
            (rows right_table), it') g.
Proof.
  destruct (@NestedLoopsJoin_over_tables _ fuel left_table right_table lcs rcs lc rc lrow
              Hlc Hrc Hleft Hright Hfuel) as (it' & g & Hd).
  exists it', g. rewrite <- Hd.
  destruct fuel as [|f]; [lia|]. reflexivity.
Qed.

Lemma NestedLoopsJoin_reopened_starts_over_witness :
  exists it' g,
    (it <- open (sorting := ties_kept_sort) 8
             (close (NestedLoopsJoin
                       (TableIterator (table_of 2 [["1"; "a"]; ["2"; "b"]]) 2 2)
                       (TableIterator (table_of 2 [["2"; "p"]]) 1 1)
                       {| cs_n_columns := 2; cs_columns := [0] |}
                       {| cs_n_columns := 2; cs_columns := [0] |} (Some ["2"; "b"]))) ;;
     drain (sorting := ties_kept_sort) 8 it) =
    Done (NestedLoopsJoin_rows 0 0 [["1"; "a"]; ["2"; "b"]] [["1"; "a"]; ["2"; "b"]]
            [["2"; "p"]], it') g.
Proof.
  exact (@NestedLoopsJoin_reopened_starts_over ties_kept_sort 7
           (table_of 2 [["1"; "a"]; ["2"; "b"]]) (table_of 2 [["2"; "p"]])
           {| cs_n_columns := 2; cs_columns := [0] |}
           {| cs_n_columns := 2; cs_columns := [0] |} 0 0 2 2 1 1 (Some ["2"; "b"])
           eq_refl eq_refl eq_refl eq_refl ltac:(simpl; lia)).
Defined.

(** ** Project: stacked projections, and projections built by the constructor *)

Lemma Project_row_length (cols : list nat) (row : Row) :
  length (Project_row cols row) = length cols.
Proof. unfold Project_row. apply length_map. Qed.

Lemma Project_row_twice (cols1 cols2 : list nat) (row : Row) :
  forallb (fun c => c <? length cols1) cols2 = true ->
  Project_row cols2 (Project_row cols1 row) =
  Project_row (map (fun c => nth c cols1 0) cols2) row.
Proof.
  intros Hin. unfold Project_row. rewrite map_map. apply map_ext_in.
  intros c Hc. rewrite forallb_forall in Hin. specialize (Hin c Hc).
  apply Nat.ltb_lt in Hin.
  rewrite (nth_indep (map (fun c0 => nth c0 row ""%string) cols1) ""%string
             (nth 0 row ""%string)) by (rewrite length_map; exact Hin).
  apply (map_nth (fun c0 => nth c0 row ""%string)).
Qed.

(** X23.  A Project over a Project returns what one Project with the
    composed selector returns: position [c] of the outer selector picks the
    column that the inner selector has at its position [c]. *)
Theorem Project_over_Project {sorting : StdSort}
    (fuel : nat) (input opened input' : Iterator) (inner outer : ColumnSelector)
    (l g0 g : list Row)
    (Hopen : open fuel input = Done opened g0)
    (Hdrain : drain fuel opened = Done (l, input') g)
    (Hinner : forallb (has_columns (cs_columns inner)) l = true)
    (Houter : forallb (fun c => c <? length (cs_columns inner)) (cs_columns outer) = true) :
  exists g',
    (it <- open (S (S fuel)) (Project (Project input inner) outer) ;;
     drain (S (S fuel)) it) =
    Done (map (Project_row (map (fun c => nth c (cs_columns inner) 0) (cs_columns outer))) l,
          Project (Project input' inner) outer) g'.
Proof.
  apply drain_loop_YieldsLog in Hdrain. destruct Hdrain as [HY Hlen].
  destruct (@Project_YieldsLog _ inner fuel _ _ _ _ HY Hinner) as (g1 & H1 & _ & _).
  assert (Hcols : forallb (has_columns (cs_columns outer))
                    (map (Project_row (cs_columns inner)) l) = true).
  { apply forallb_forall. intros row Hrow. apply in_map_iff in Hrow.
    destruct Hrow as (r & <- & _). unfold has_columns.
    rewrite Project_row_length. exact Houter. }
  destruct (@Project_YieldsLog _ outer (S fuel) _ _ _ _ H1 Hcols) as (g2 & H2 & _ & _).
  rewrite map_map in H2.
  rewrite (map_ext _ _ (fun row => @Project_row_twice (cs_columns inner)
                                     (cs_columns outer) row Houter)) in H2.
  cbn [open]. rewrite Hopen. cbn [bind ret].
  unfold drain. rewrite (YieldsLog_drain_loop H2 (k := S (S fuel))).
  - eexists. reflexivity.
  - rewrite length_map. lia.
Qed.

Lemma Project_over_Project_witness :
  exists g',
    (it <- open (sorting := ties_kept_sort) 5
             (Project (Project (new_TableIterator
                                  (table_of 3 [["1"; "a"; "x"]; ["2"; "b"; "y"]]))
                         {| cs_n_columns := 3; cs_columns := [2; 0] |})
                {| cs_n_columns := 2; cs_columns := [1; 1; 0] |}) ;;
     drain (sorting := ties_kept_sort) 5 it) =
    Done (map (Project_row (map (fun c => nth c [2; 0] 0) [1; 1; 0]))
            [["1"; "a"; "x"]; ["2"; "b"; "y"]],
          Project (Project (TableIterator
                              (table_of 3 [["1"; "a"; "x"]; ["2"; "b"; "y"]]) 2 2)
                     {| cs_n_columns := 3; cs_columns := [2; 0] |})
            {| cs_n_columns := 2; cs_columns := [1; 1; 0] |}) g'.
Proof.
  exact (@Project_over_Project ties_kept_sort 3
           (new_TableIterator (table_of 3 [["1"; "a"; "x"]; ["2"; "b"; "y"]]))
           (TableIterator (table_of 3 [["1"; "a"; "x"]; ["2"; "b"; "y"]]) 0 2)
           (TableIterator (table_of 3 [["1"; "a"; "x"]; ["2"; "b"; "y"]]) 2 2)
           {| cs_n_columns := 3; cs_columns := [2; 0] |}
           {| cs_n_columns := 2; cs_columns := [1; 1; 0] |}
           [["1"; "a"; "x"]; ["2"; "b"; "y"]] [] [] eq_refl eq_refl eq_refl eq_refl).
Defined.

Section YieldedWidths.

Context {sorting : StdSort}.

Lemma Yields_widths (fuel : nat) :
  forall it l it', Yields (next fuel) it l it' -> well_formed it = true ->
  Forall (fun r => Z.of_nat (length r) = n_columns it) l.
Proof.
  induction 1 as [it it' g H | it r it1 g l it' H HY IH]; intros Hwf; [constructor|].
  destruct (methods_ok fuel) as [Hnext _].
  destruct (Hnext it (Some r) it1 g Hwf H) as [[Hwf1 Hn1] Hfits].
  constructor.
  - apply row_width_is_eq. apply Hfits. reflexivity.
  - rewrite <- Hn1. apply IH. exact Hwf1.
Qed.

End YieldedWidths.

(** C3.  For every well-formed child (its rows all have the width the child
    announces) with the row sequence [l], a newly built Unique returns the
    first row pulled, and afterwards passes over a row exactly when it equals
    the last row returned; every row that differs from the last row returned
    is returned and becomes the new last.  Unique over
    (1),(1),(2),(2),(2),(3) returns (1),(2),(3), and over (1),(2),(1), where
    the duplicates are not adjacent, it returns all three rows. *)
Theorem Unique_returns_the_rows_unlike_the_last {sorting : StdSort}
    (fuel : nat) (input opened input' : Iterator) (l g0 g : list Row)
    (Hwf : well_formed input = true)
    (Hopen : open fuel input = Done opened g0)
    (Hdrain : drain fuel opened = Done (l, input') g) :
  (exists g',
     (it <- open (S fuel) (new_Unique input) ;; drain (S fuel) it) =
     Done (adjacent_distinct None l, Unique input' (Unique_last None l)) g') /\
  (forall first more, adjacent_distinct None (first :: more) =
                      first :: adjacent_distinct (Some first) more) /\
  (forall last row more,
     (row = last ->
      adjacent_distinct (Some last) (row :: more) = adjacent_distinct (Some last) more) /\
     (row <> last ->
      adjacent_distinct (Some last) (row :: more) =
      row :: adjacent_distinct (Some row) more)) /\
  (it <- open 8 (new_Unique (new_TableIterator
                   (table_of 1 [["1"]; ["1"]; ["2"]; ["2"]; ["2"]; ["3"]]))) ;;
   '(returned, _) <- drain 8 it ;; ret returned) = Done [["1"]; ["2"]; ["3"]] [] /\
  (it <- open 8 (new_Unique (new_TableIterator (table_of 1 [["1"]; ["2"]; ["1"]]))) ;;
   '(returned, _) <- drain 8 it ;; ret returned) = Done [["1"]; ["2"]; ["1"]] [].
Proof.
  split; [|split; [|split; [|split]]]; try reflexivity.
  - apply drain_loop_Yields in Hdrain. destruct Hdrain as [HY Hlen].
    destruct (methods_ok fuel) as [_ Hop].
    destruct (Hop input opened g0 Hwf Hopen) as [Hwf0 _].
    pose proof (@Yields_widths _ fuel _ _ _ HY Hwf0) as Hw.
    assert (Hsame : same_width l).
    { rewrite Forall_forall in Hw. intros a b Ha Hb.
      apply Nat2Z.inj. rewrite (Hw a Ha), (Hw b Hb). reflexivity. }
    assert (E : Unique_rows None l = adjacent_distinct None l)
      by (apply Unique_rows_same_width; [discriminate | exact Hsame]).
    rewrite <- E.
    pose proof (Unique_Yields None HY Hlen) as HU.
    destruct (Yields_drain_loop HU (k := S fuel)) as [g' Hd].
    { pose proof (Unique_rows_length None l). lia. }
    unfold new_Unique. cbn [open]. rewrite Hopen. simpl.
    unfold drain. rewrite Hd. eexists. reflexivity.
  - intros last row more. split.
    + intros ->. cbn [adjacent_distinct].
      assert (H : row_eqb last last = true) by (apply row_eqb_eq; reflexivity).
      rewrite H. reflexivity.
    + intros Hne. cbn [adjacent_distinct].
      destruct (row_eqb row last) eqn:H; [|reflexivity].
      apply row_eqb_eq in H. contradiction.
Qed.

Lemma Unique_returns_the_rows_unlike_the_last_witness :
  well_formed (new_TableIterator (table_of 1 [["4"]; ["4"]; ["5"]])) = true /\
  open (sorting := ties_kept_sort) 4 (new_TableIterator (table_of 1 [["4"]; ["4"]; ["5"]])) =
    Done (TableIterator (table_of 1 [["4"]; ["4"]; ["5"]]) 0 3) [] /\
  drain (sorting := ties_kept_sort) 4 (TableIterator (table_of 1 [["4"]; ["4"]; ["5"]]) 0 3) =
    Done ([["4"]; ["4"]; ["5"]], TableIterator (table_of 1 [["4"]; ["4"]; ["5"]]) 3 3) [] /\
  exists g',
    (it <- open (sorting := ties_kept_sort) 5
             (new_Unique (new_TableIterator (table_of 1 [["4"]; ["4"]; ["5"]]))) ;;
     drain (sorting := ties_kept_sort) 5 it) =
    Done ([["4"]; ["5"]],
          Unique (TableIterator (table_of 1 [["4"]; ["4"]; ["5"]]) 3 3) (Some ["5"])) g'.
Proof.
  split; [reflexivity|]. split; [reflexivity|]. split; [reflexivity|].
  exact (proj1 (@Unique_returns_the_rows_unlike_the_last ties_kept_sort 4
                  (new_TableIterator (table_of 1 [["4"]; ["4"]; ["5"]]))
                  _ _ _ _ _ eq_refl eq_refl eq_refl)).
Defined.

(** X24.  A Project built by its constructor over a well-formed child finds
    every selected column in every row: the selector is built with the
    child's n_columns(), so each selected position lies inside each row of
    the child, next() does not throw, and the rows returned are the child's
    rows cut to the requested columns. *)
Theorem Project_built_by_its_constructor_finds_every_column {sorting : StdSort}
    (fuel : nat) (input opened input' it : Iterator) (cols : list nat)
    (l g0 g gn : list Row)
    (Hwf : well_formed input = true)
    (Hnew : new_Project input cols = Done it gn)
    (Hopen : open fuel input = Done opened g0)
    (Hdrain : drain fuel opened = Done (l, input') g) :
  exists cs g',
    it = Project input cs /\ cs_columns cs = cols /\
    (it1 <- open (S fuel) it ;; drain (S fuel) it1) =
    Done (map (Project_row cols) l, Project input' cs) g'.
Proof.
  unfold new_Project, new_ColumnSelector in Hnew.
  destruct (forallb (fun c => (Z.of_nat c <? n_columns input)%Z) cols) eqn:Hcheck;
    [|discriminate].
  cbn [bind ret] in Hnew. injection Hnew as <- _.
  apply drain_loop_YieldsLog in Hdrain. destruct Hdrain as [HY Hlen].
  destruct (methods_ok fuel) as [_ Hop].
  destruct (Hop input opened g0 Hwf Hopen) as [Hwf0 Hn0].
  pose proof (@Yields_widths _ fuel _ _ _ (YieldsLog_Yields HY) Hwf0) as Hw.
  rewrite Hn0 in Hw.
  assert (Hcols : forallb (has_columns cols) l = true).
  { apply forallb_forall. intros r Hr. rewrite Forall_forall in Hw.
    specialize (Hw r Hr). unfold has_columns. apply forallb_forall. intros c Hc.
    rewrite forallb_forall in Hcheck. specialize (Hcheck c Hc).
    apply Z.ltb_lt in Hcheck. apply Nat.ltb_lt. lia. }
  destruct (@Project_YieldsLog _ {| cs_n_columns := n_columns input; cs_columns := cols |}
              fuel _ _ _ _ HY Hcols) as (g' & HP & _ & _).
  cbn [cs_columns] in HP.
  exists {| cs_n_columns := n_columns input; cs_columns := cols |}, ((g0 ++ []) ++ g').
  split; [reflexivity|]. split; [reflexivity|].
  cbn [open]. rewrite Hopen. cbn [bind ret].
  unfold drain. rewrite (YieldsLog_drain_loop HP (k := S fuel)).
  - reflexivity.
  - rewrite length_map. lia.
Qed.

Lemma Project_built_by_its_constructor_finds_every_column_witness :
  exists cs g',
    Project (new_TableIterator (table_of 3 [["1"; "a"; "x"]; ["2"; "b"; "y"]]))
      {| cs_n_columns := 3; cs_columns := [2; 0] |} =
    Project (new_TableIterator (table_of 3 [["1"; "a"; "x"]; ["2"; "b"; "y"]])) cs /\
    cs_columns cs = [2; 0] /\
    (it1 <- open (sorting := ties_kept_sort) 4
              (Project (new_TableIterator (table_of 3 [["1"; "a"; "x"]; ["2"; "b"; "y"]]))
                 {| cs_n_columns := 3; cs_columns := [2; 0] |}) ;;
     drain (sorting := ties_kept_sort) 4 it1) =
    Done (map (Project_row [2; 0]) [["1"; "a"; "x"]; ["2"; "b"; "y"]],
          Project (TableIterator (table_of 3 [["1"; "a"; "x"]; ["2"; "b"; "y"]]) 2 2) cs) g'.
Proof.
  exact (@Project_built_by_its_constructor_finds_every_column ties_kept_sort 3
           (new_TableIterator (table_of 3 [["1"; "a"; "x"]; ["2"; "b"; "y"]]))
           (TableIterator (table_of 3 [["1"; "a"; "x"]; ["2"; "b"; "y"]]) 0 2)
           (TableIterator (table_of 3 [["1"; "a"; "x"]; ["2"; "b"; "y"]]) 2 2)
           (Project (new_TableIterator (table_of 3 [["1"; "a"; "x"]; ["2"; "b"; "y"]]))
              {| cs_n_columns := 3; cs_columns := [2; 0] |})
           [2; 0] [["1"; "a"; "x"]; ["2"; "b"; "y"]] [] [] []
           eq_refl eq_refl eq_refl eq_refl).
Defined.

(** ** NestedLoopsJoin: the rows reclaimed *)

Lemma NestedLoopsJoin_rows_pairs (lc rc : nat) (L : list Row) :
  forall R cur,
    NestedLoopsJoin_rows lc rc L cur R =
    map (fun ab => joined rc (fst ab) (snd ab)) (NestedLoopsJoin_pairs lc rc L cur R).
Proof.
  induction R as [|r R IH]; intros cur; [reflexivity|].
  cbn [NestedLoopsJoin_rows NestedLoopsJoin_pairs].
  destruct cur as [|a cur']; [reflexivity|].
  destruct (find_from lc rc r (a :: cur')) as [[|l rest]|]; try apply IH.
  cbn [map fst snd]. rewrite IH. reflexivity.
Qed.

Lemma NestedLoopsJoin_pairs_sound (lc rc : nat) (L : list Row) :
  forall R cur, incl cur L ->
    Forall (fun ab => In (fst ab) L /\ rows_match lc rc (fst ab) (snd ab) = true)
      (NestedLoopsJoin_pairs lc rc L cur R) /\
    Subsequence (map snd (NestedLoopsJoin_pairs lc rc L cur R)) R.
Proof.
  induction R as [|r R IH]; intros cur Hcur.
  - split; constructor.
  - cbn [NestedLoopsJoin_pairs].
    assert (Hrestart :
              Forall (fun ab => In (fst ab) L /\
                                rows_match lc rc (fst ab) (snd ab) = true)
                (NestedLoopsJoin_pairs lc rc L L R) /\
              Subsequence (map snd (NestedLoopsJoin_pairs lc rc L L R)) (r :: R)).
    { destruct (IH L (incl_refl L)) as [Hall Hsub].
      split; [exact Hall | apply Subsequence_skip; exact Hsub]. }
    destruct cur as [|a cur'].
    { split; [constructor|]. cbn [map].
      clear. induction (r :: R); constructor; assumption. }
    destruct (find_from lc rc r (a :: cur')) as [[|l rest]|] eqn:Hfind;
      [exact Hrestart | | exact Hrestart].
    destruct (find_from_Some _ _ _ _ Hfind) as [Hm Hincl].
    destruct (IH (l :: rest)) as [Hall Hsub].
    { intros x Hx. apply Hcur. apply Hincl. exact Hx. }
    split.
    + constructor; [|exact Hall]. cbn [fst snd]. split; [|exact Hm].
      apply Hcur. apply Hincl. left. reflexivity.
    + cbn [map snd]. apply Subsequence_keep. exact Hsub.
Qed.

Lemma YieldsLog_quiet_inv (step : Iterator -> outcome (option Row * Iterator))
    (it it' : Iterator) (l g : list Row) :
  YieldsLog step it l it' g -> g = [] ->
  match l with
  | [] => step it = Done (None, it') []
  | r :: l' => exists it1, step it = Done (Some r, it1) [] /\ YieldsLog step it1 l' it' []
  end.
Proof.
  intros HY Hg. destruct HY as [it it' g H | it r it1 g1 l it' g2 H HY].
  - subst g. exact H.
  - apply app_eq_nil in Hg. destruct Hg as [-> ->]. eauto.
Qed.

(** Children that reclaim nothing: [Rep lit rest] says that the left child
    [lit] still yields [rest], [L] being all its rows; its calls and the
    calls of the right child reclaim no row. *)
Section JoinPairsLoop.

Variables step_l step_r : Iterator -> outcome (option Row * Iterator).
Variable op_l : Iterator -> outcome Iterator.
Variables lcs rcs : ColumnSelector.
Variables lc rc : nat.
Variable L : list Row.
Variable Rep : Iterator -> list Row -> Prop.
Variable r_end : Iterator.

Hypothesis Hlc : nth_error (cs_columns lcs) 0 = Some lc.
Hypothesis Hrc : nth_error (cs_columns rcs) 0 = Some rc.
Hypothesis L_wide : all_have_column lc L = true.
Hypothesis left_next :
  forall lit rest, Rep lit rest ->
  exists lit', step_l lit = Done (hd_error rest, lit') [] /\ Rep lit' (tl rest).
Hypothesis left_reopen :
  forall lit rest, Rep lit rest ->
  exists lit0, op_l (close lit) = Done lit0 [] /\ Rep lit0 L.

Lemma NestedLoopsJoin_pairs_skip (a a' b : Row) (rest R : list Row) :
  rows_match lc rc a b = false ->
  NestedLoopsJoin_pairs lc rc L (a :: a' :: rest) (b :: R) =
  NestedLoopsJoin_pairs lc rc L (a' :: rest) (b :: R).
Proof. intros H. simpl. rewrite H. reflexivity. Qed.

Lemma NestedLoopsJoin_pairs_restart (a b : Row) (R : list Row) :
  rows_match lc rc a b = false ->
  NestedLoopsJoin_pairs lc rc L [a] (b :: R) = NestedLoopsJoin_pairs lc rc L L R.
Proof. intros H. simpl. rewrite H. reflexivity. Qed.

Lemma NestedLoopsJoin_pairs_match (a b : Row) (rest R : list Row) :
  rows_match lc rc a b = true ->
  NestedLoopsJoin_pairs lc rc L (a :: rest) (b :: R) =
  (a, b) :: NestedLoopsJoin_pairs lc rc L (a :: rest) R.
Proof. intros H. simpl. rewrite H. reflexivity. Qed.

Lemma NestedLoopsJoin_pairs_no_left (cur R : list Row) :
  hd_error cur = None -> NestedLoopsJoin_pairs lc rc L cur R = [].
Proof. destruct cur; [|discriminate]. intros _. destruct R; reflexivity. Qed.

Lemma NestedLoopsJoin_next_loop_pairs :
  forall R r, YieldsLog step_r r R r_end [] -> all_have_column rc R = true ->
  forall rest lit (a b : Row) k,
    Rep lit rest -> all_have_column lc (a :: rest) = true -> rc < length b ->
    length rest < length L ->
    need L rest R <= k ->
    exists lrow2 rrow2 lit2 r2,
      NestedLoopsJoin_next_loop step_l op_l step_r lcs rcs k (Some a) (Some b) lit r =
        Done (lrow2, rrow2, lit2, r2) [] /\
      match lrow2, rrow2 with
      | Some a2, Some b2 =>
          exists rest2 R2,
            Rep lit2 rest2 /\ YieldsLog step_r r2 R2 r_end [] /\ length R2 <= length R /\
            length rest2 < length L /\
            all_have_column lc (a2 :: rest2) = true /\ all_have_column rc R2 = true /\
            NestedLoopsJoin_pairs lc rc L (a :: rest) (b :: R) =
            (a2, b2) :: NestedLoopsJoin_pairs lc rc L (a2 :: rest2) R2
      | _, _ => NestedLoopsJoin_pairs lc rc L (a :: rest) (b :: R) = []
      end.
Proof.
  induction R as [|b' R IHR]; intros r HY Rwide;
    pose proof (YieldsLog_quiet_inv HY eq_refl) as Hr; cbv beta iota in Hr;
    induction rest as [|a' rest' IHrest]; intros lit a b k HRep Hwide Hb Hrest Hk;
    (destruct k as [|k]; [unfold need in Hk; lia|]);
    cbn [NestedLoopsJoin_next_loop];
    (assert (Ha : lc < length a)
       by (simpl in Hwide; apply andb_prop in Hwide; apply Nat.ltb_lt; tauto));
    rewrite (@NestedLoopsJoin_match_spec lcs rcs lc rc a b Hlc Hrc Ha Hb); simpl bind;
    destruct (rows_match lc rc a b) eqn:Hm;
    try (exists (Some a), (Some b), lit, r; split; [reflexivity|];
         eexists; eexists; repeat split;
         [ exact HRep | exact HY | lia | exact Hrest | exact Hwide
         | exact Rwide
         | apply NestedLoopsJoin_pairs_match; exact Hm ]; fail);
    destruct (left_next HRep) as (lit' & Hs & HRep'); simpl in Hs, HRep';
    rewrite (bind_step _ Hs); cbv beta iota.
  - (* left exhausted, right exhausted *)
    rewrite (bind_step _ Hr). cbv beta iota.
    destruct k as [|k]; [unfold need in Hk; simpl in Hk; lia|].
    rewrite NestedLoopsJoin_pairs_restart by exact Hm. simpl.
    exists None, None, lit', r_end. split; reflexivity.
  - (* more left rows, right exhausted *)
    assert (Hwide' : all_have_column lc (a' :: rest') = true)
      by (simpl in Hwide; apply andb_prop in Hwide; tauto).
    destruct (IHrest lit' a' b k HRep' Hwide' Hb ltac:(simpl in Hrest; lia)
                ltac:(unfold need in *; simpl in *; lia))
      as (lrow2 & rrow2 & lit2 & r2 & Hloop & Hres).
    rewrite Hloop. exists lrow2, rrow2, lit2, r2. split; [reflexivity|].
    rewrite NestedLoopsJoin_pairs_skip by exact Hm. exact Hres.
  - (* left exhausted, another right row *)
    destruct Hr as (r1 & Hr & HY1).
    rewrite (bind_step _ Hr). cbv beta iota.
    destruct (left_reopen HRep') as (lit0 & Ho & HRep0).
    rewrite (bind_step _ Ho).
    destruct (left_next HRep0) as (lit1 & Hs1 & HRep1).
    rewrite (bind_step _ Hs1). cbv beta iota.
    assert (Rwide' : all_have_column rc R = true)
      by (simpl in Rwide; apply andb_prop in Rwide; tauto).
    assert (Hb' : rc < length b')
      by (simpl in Rwide; apply andb_prop in Rwide; apply Nat.ltb_lt; tauto).
    rewrite NestedLoopsJoin_pairs_restart by exact Hm.
    destruct (hd_error L) as [a0|] eqn:Ehd.
    + assert (EL : a0 :: tl L = L) by (destruct L; simpl in *; congruence).
      assert (Hlen : length L = S (length (tl L))) by (rewrite <- EL at 1; reflexivity).
      assert (Hwide0 : all_have_column lc (a0 :: tl L) = true)
        by (rewrite EL; exact L_wide).
      destruct (IHR r1 HY1 Rwide' (tl L) lit1 a0 b' k HRep1 Hwide0 Hb' ltac:(lia)
                  ltac:(unfold need in *; simpl in *; lia))
        as (lrow2 & rrow2 & lit2 & r2 & Hloop & Hres).
      rewrite Hloop. exists lrow2, rrow2, lit2, r2. split; [reflexivity|].
      rewrite EL in Hres.
      destruct lrow2 as [a2|]; [destruct rrow2 as [b2|]|]; try exact Hres.
      destruct Hres as (rest2 & R2 & H1 & H2 & H3 & H4 & H5 & H6 & H7).
      exists rest2, R2. repeat split; auto. simpl. lia.
    + destruct k as [|k]; [unfold need in Hk; simpl in Hk; lia|].
      cbn [NestedLoopsJoin_next_loop].
      exists None, (Some b'), lit1, r1. split; [reflexivity|].
      apply NestedLoopsJoin_pairs_no_left. exact Ehd.
  - (* more left rows, another right row to come *)
    assert (Hwide' : all_have_column lc (a' :: rest') = true)
      by (simpl in Hwide; apply andb_prop in Hwide; tauto).
    destruct (IHrest lit' a' b k HRep' Hwide' Hb ltac:(simpl in Hrest; lia)
                ltac:(unfold need in *; simpl in *; lia))
      as (lrow2 & rrow2 & lit2 & r2 & Hloop & Hres).
    rewrite Hloop. exists lrow2, rrow2, lit2, r2. split; [reflexivity|].
    rewrite NestedLoopsJoin_pairs_skip by exact Hm. exact Hres.
Qed.

End JoinPairsLoop.

Lemma Subsequence_incl (A : Type) (s l : list A) :
  Subsequence s l -> incl s l.
Proof.
  induction 1 as [| x s l H IH | x s l H IH]; intros y Hy.
  - exact Hy.
  - right. exact (IH y Hy).
  - destruct Hy as [<-|Hy]; [left; reflexivity | right; exact (IH y Hy)].
Qed.

Section JoinPairsDrain.

Context {sorting : StdSort}.
Variable fuel : nat.
Variables lcs rcs : ColumnSelector.
Variables lc rc : nat.
Variable L : list Row.
Variable Rep : Iterator -> list Row -> Prop.
Variable r_end : Iterator.

Hypothesis Hlc : nth_error (cs_columns lcs) 0 = Some lc.
Hypothesis Hrc : nth_error (cs_columns rcs) 0 = Some rc.
Hypothesis L_wide : all_have_column lc L = true.
Hypothesis left_next :
  forall lit rest, Rep lit rest ->
  exists lit', next fuel lit = Done (hd_error rest, lit') [] /\ Rep lit' (tl rest).
Hypothesis left_reopen :
  forall lit rest, Rep lit rest ->
  exists lit0, open fuel (close lit) = Done lit0 [] /\ Rep lit0 L.

Lemma NestedLoopsJoin_next_pairs :
  forall R r, YieldsLog (next fuel) r R r_end [] -> all_have_column rc R = true ->
  forall lit lrow rest,
    Rep lit rest -> all_have_column lc (current lrow rest) = true ->
    length (current lrow rest) <= length L ->
    S (length L) + length R * S (length L) < fuel ->
    exists o it' g,
      next (S fuel) (NestedLoopsJoin lit r lcs rcs lrow) = Done (o, it') g /\
      match o with
      | Some x =>
          exists lit2 r2 a2 b2 rest2 R2,
            x = joined rc a2 b2 /\ g = [b2] /\
            it' = NestedLoopsJoin lit2 r2 lcs rcs (Some a2) /\
            Rep lit2 rest2 /\ YieldsLog (next fuel) r2 R2 r_end [] /\
            length R2 < length R /\ length (a2 :: rest2) <= length L /\
            all_have_column lc (a2 :: rest2) = true /\ all_have_column rc R2 = true /\
            NestedLoopsJoin_pairs lc rc L (current lrow rest) R =
            (a2, b2) :: NestedLoopsJoin_pairs lc rc L (a2 :: rest2) R2
      | None => g = [] /\ NestedLoopsJoin_pairs lc rc L (current lrow rest) R = []
      end.
Proof.
  intros R r HY Rwide lit lrow rest HRep Hwide Hcur Hfuel.
  cbn [next].
  pose proof (YieldsLog_quiet_inv HY eq_refl) as Hr.
  destruct R as [|b R'].
  - rewrite (bind_step _ Hr). cbv beta iota.
    destruct fuel as [|k]; [lia|]. cbn [NestedLoopsJoin_next_loop].
    destruct lrow as [a|]; simpl; eexists None, _, _; split; try reflexivity;
      split; reflexivity.
  - destruct Hr as (r1 & Hr & HY').
    rewrite (bind_step _ Hr). cbv beta iota.
    destruct lrow as [a|].
    + assert (Rwide' : all_have_column rc R' = true)
        by (simpl in Rwide; apply andb_prop in Rwide; tauto).
      assert (Hb : rc < length b)
        by (simpl in Rwide; apply andb_prop in Rwide; apply Nat.ltb_lt; tauto).
      simpl in Hcur.
      destruct (@NestedLoopsJoin_next_loop_pairs (next fuel) (next fuel) (open fuel)
                  lcs rcs lc rc L Rep r_end Hlc Hrc L_wide left_next left_reopen
                  R' r1 HY' Rwide' rest lit a b fuel HRep Hwide Hb ltac:(lia)
                  ltac:(unfold need; simpl in Hfuel; lia))
        as (lrow2 & rrow2 & lit2 & r2 & Hloop & Hres).
      rewrite Hloop. cbn [bind].
      destruct lrow2 as [a2|]; [destruct rrow2 as [b2|]|].
      * destruct Hres as (rest2 & R2 & H1 & H2 & H3 & H4 & H5 & H6 & H7).
        rewrite (@join_rows_if_match_spec rcs rc a2 b2 Hrc). simpl.
        eexists (Some (joined rc a2 b2)), _, _. split; [reflexivity|].
        exists lit2, r2, a2, b2, rest2, R2. repeat split; auto; simpl; lia.
      * simpl. eexists None, _, _. split; [reflexivity|]. split; [reflexivity | exact Hres].
      * simpl. eexists None, _, _. split; [reflexivity|]. split; [reflexivity | exact Hres].
    + destruct fuel as [|k]; [lia|]. simpl.
      eexists None, _, _. split; [reflexivity|]. split; reflexivity.
Qed.

Lemma NestedLoopsJoin_YieldsLog :
  forall n R, length R <= n ->
  forall r lit lrow rest,
    YieldsLog (next fuel) r R r_end [] -> all_have_column rc R = true ->
    Rep lit rest -> all_have_column lc (current lrow rest) = true ->
    length (current lrow rest) <= length L ->
    S (length L) + length R * S (length L) < fuel ->
    exists it',
      YieldsLog (next (S fuel)) (NestedLoopsJoin lit r lcs rcs lrow)
        (map (fun ab => joined rc (fst ab) (snd ab))
           (NestedLoopsJoin_pairs lc rc L (current lrow rest) R))
        it'
        (map snd (NestedLoopsJoin_pairs lc rc L (current lrow rest) R)).
Proof.
  induction n as [|n IH]; intros R Hn r lit lrow rest HY Rwide HRep Hwide Hcur Hfuel;
    destruct (NestedLoopsJoin_next_pairs HY Rwide lrow HRep Hwide Hcur Hfuel)
      as (o & it' & g & Hnext & Ho);
    destruct o as [x|];
    try (destruct Ho as [-> Ho]; rewrite Ho; exists it'; eapply YieldsLog_end; exact Hnext).
  - destruct Ho as (lit2 & r2 & a2 & b2 & rest2 & R2 & _ & _ & _ & _ & _ & Hlt & _). lia.
  - destruct Ho as (lit2 & r2 & a2 & b2 & rest2 & R2 & -> & -> & -> &
                    H1 & H2 & H3 & H4 & H5 & H6 & H7).
    destruct (IH R2 ltac:(lia) r2 lit2 (Some a2) rest2 H2 H6 H1 H5 H4) as [it'' HY''].
    { assert (length R2 * S (length L) <= length R * S (length L))
        by (apply Nat.mul_le_mono_r; lia).
      lia. }
    exists it''. rewrite H7. cbn [map fst snd].
    change (b2 :: map snd (NestedLoopsJoin_pairs lc rc L (a2 :: rest2) R2))
      with ([b2] ++ map snd (NestedLoopsJoin_pairs lc rc L (a2 :: rest2) R2)).
    eapply YieldsLog_row; [exact Hnext | exact HY''].
Qed.

End JoinPairsDrain.

Section JoinPairsTables.

Context {sorting : StdSort}.

Lemma scans_next_quiet (fuel : nat) (t : Table) :
  forall lit rest, scans t lit rest ->
  exists lit', next (S fuel) lit = Done (hd_error rest, lit') [] /\ scans t lit' (tl rest).
Proof.
  intros lit rest (i & Hi & -> & ->).
  rewrite TableIterator_next by exact Hi.
  destruct (nth_error (rows t) i) as [row|] eqn:Hrow.
  - rewrite (skipn_nth_error _ _ Hrow). simpl.
    eexists. split; [reflexivity|].
    exists (S i). repeat split; auto.
    apply Nat.le_succ_l. apply nth_error_Some. congruence.
  - apply nth_error_None in Hrow. assert (i = length (rows t)) by lia. subst i.
    rewrite skipn_all. simpl.
    eexists. split; [reflexivity|].
    exists (length (rows t)). rewrite skipn_all. auto.
Qed.

Lemma scans_reopen_quiet (fuel : nat) (t : Table) :
  forall lit rest, scans t lit rest ->
  exists lit0, open (S fuel) (close lit) = Done lit0 [] /\ scans t lit0 (rows t).
Proof.
  intros lit rest (i & Hi & -> & ->). simpl.
  eexists. split; [reflexivity|].
  exists 0. repeat split; auto. lia.
Qed.

Lemma NestedLoopsJoin_over_tables_reclaims (fuel : nat) (lt rt : Table)
    (lcs rcs : ColumnSelector) (lc rc : nat) (lrow0 : option Row) :
  nth_error (cs_columns lcs) 0 = Some lc ->
  nth_error (cs_columns rcs) 0 = Some rc ->
  all_have_column lc (rows lt) = true ->
  all_have_column rc (rows rt) = true ->
  S (length (rows lt)) * S (length (rows rt)) < fuel ->
  exists it',
    (it <- open (S fuel)
             (NestedLoopsJoin (new_TableIterator lt) (new_TableIterator rt) lcs rcs lrow0) ;;
     drain (S fuel) it) =
    Done (map (fun ab => joined rc (fst ab) (snd ab))
            (NestedLoopsJoin_pairs lc rc (rows lt) (rows lt) (rows rt)), it')
      (map snd (NestedLoopsJoin_pairs lc rc (rows lt) (rows lt) (rows rt))).
Proof.
  intros Hlc Hrc Hlw Hrw Hfuel.
  destruct fuel as [|f]; [lia|].
  unfold new_TableIterator. cbn -[next drain].
  assert (H0 : scans lt (TableIterator lt 0 (length (rows lt))) (rows lt)).
  { exists 0. repeat split; auto. lia. }
  destruct (scans_next_quiet f H0) as (lit & Hnext & Hscan).
  rewrite Hnext. cbn [bind ret].
  pose proof (@TableIterator_YieldsLog _ f rt (length (rows rt)) 0
                ltac:(lia) ltac:(lia)) as HYr.
  cbn [skipn] in HYr.
  destruct (@NestedLoopsJoin_YieldsLog _ (S f) lcs rcs lc rc (rows lt) (scans lt)
              (TableIterator rt (length (rows rt)) (length (rows rt)))
              Hlc Hrc Hlw (scans_next_quiet f (t := lt)) (scans_reopen_quiet f (t := lt))
              (length (rows rt)) (rows rt) (le_n _)
              (TableIterator rt 0 (length (rows rt))) lit (hd_error (rows lt))
              (tl (rows lt)) HYr Hrw Hscan)
    as [it' HY].
  - rewrite current_hd_tl. exact Hlw.
  - rewrite current_hd_tl. lia.
  - lia.
  - rewrite current_hd_tl in HY.
    unfold drain. rewrite (YieldsLog_drain_loop HY (k := S (S f))).
    + exists it'. reflexivity.
    + rewrite length_map, <- (length_map (fun ab => joined rc (fst ab) (snd ab))).
      rewrite <- NestedLoopsJoin_rows_pairs.
      pose proof (NestedLoopsJoin_rows_length lc rc (rows lt) (rows rt) (rows lt)). lia.
Qed.

End JoinPairsTables.

(** X25.  A join over two scanned tables hands to Row::reclaim exactly the
    right rows it joined and nothing else.  With [pairs] the (left row, right
    row) pairs of [NestedLoopsJoin_pairs], the rows returned are the joins of
    these pairs and the rows reclaimed are their right rows, in the same
    order; each pair is a row of the left table and a row of the right table
    that agree on the join columns, and the right rows come in the order of
    the right table.  So a right row that is dropped for want of a matching
    left row is never reclaimed. *)
Theorem NestedLoopsJoin_reclaims_the_joined_right_rows {sorting : StdSort}
    (fuel : nat) (left_table right_table : Table)
    (lcs rcs : ColumnSelector) (lc rc : nat) (pairs : list (Row * Row))
    (Hlc : nth_error (cs_columns lcs) 0 = Some lc)
    (Hrc : nth_error (cs_columns rcs) 0 = Some rc)
    (Hleft : all_have_column lc (rows left_table) = true)
    (Hright : all_have_column rc (rows right_table) = true)
    (Hfuel : S (length (rows left_table)) * S (length (rows right_table)) < fuel)
    (Hpairs : pairs = NestedLoopsJoin_pairs lc rc (rows left_table) (rows left_table)
                        (rows right_table)) :
  (exists it',
     (it <- open (S fuel)
              (NestedLoopsJoin (new_TableIterator left_table)
                 (new_TableIterator right_table) lcs rcs None) ;;
      drain (S fuel) it) =
     Done (map (fun ab => joined rc (fst ab) (snd ab)) pairs, it') (map snd pairs)) /\
  Forall (fun ab => In (fst ab) (rows left_table) /\
                    In (snd ab) (rows right_table) /\
                    rows_match lc rc (fst ab) (snd ab) = true) pairs /\
  Subsequence (map snd pairs) (rows right_table).
Proof.
  subst pairs.
  destruct (@NestedLoopsJoin_over_tables_reclaims _ fuel left_table right_table
              lcs rcs lc rc None Hlc Hrc Hleft Hright Hfuel) as (it' & Hd).
  destruct (@NestedLoopsJoin_pairs_sound lc rc (rows left_table) (rows right_table)
              (rows left_table) (incl_refl _)) as [Hall Hsub].
  split; [exists it'; exact Hd|]. split; [|exact Hsub].
  rewrite Forall_forall in Hall. rewrite Forall_forall. intros ab Hab.
  destruct (Hall ab Hab) as [Hl Hm]. split; [exact Hl|]. split; [|exact Hm].
  apply (Subsequence_incl Hsub). apply in_map. exact Hab.
Qed.

Lemma NestedLoopsJoin_reclaims_the_joined_right_rows_witness :
  (exists it',
     (it <- open (sorting := ties_kept_sort) 14
              (NestedLoopsJoin (new_TableIterator (table_of 2 [["1"; "a"]; ["2"; "b"]]))
                 (new_TableIterator (table_of 2 [["3"; "p"]; ["1"; "q"]; ["2"; "r"]]))
                 {| cs_n_columns := 2; cs_columns := [0] |}
                 {| cs_n_columns := 2; cs_columns := [0] |} None) ;;
      drain (sorting := ties_kept_sort) 14 it) =
     Done (map (fun ab => joined 0 (fst ab) (snd ab))
             [(["1"; "a"], ["1"; "q"]); (["2"; "b"], ["2"; "r"])], it')
       (map snd [(["1"; "a"], ["1"; "q"]); (["2"; "b"], ["2"; "r"])])) /\
  Forall (fun ab => In (fst ab) [["1"; "a"]; ["2"; "b"]] /\
                    In (snd ab) [["3"; "p"]; ["1"; "q"]; ["2"; "r"]] /\
                    rows_match 0 0 (fst ab) (snd ab) = true)
    [(["1"; "a"], ["1"; "q"]); (["2"; "b"], ["2"; "r"])] /\
  Subsequence (map snd [(["1"; "a"], ["1"; "q"]); (["2"; "b"], ["2"; "r"])])
    [["3"; "p"]; ["1"; "q"]; ["2"; "r"]].
Proof.
  exact (@NestedLoopsJoin_reclaims_the_joined_right_rows ties_kept_sort 13
           (table_of 2 [["1"; "a"]; ["2"; "b"]])
           (table_of 2 [["3"; "p"]; ["1"; "q"]; ["2"; "r"]])
           {| cs_n_columns := 2; cs_columns := [0] |}
           {| cs_n_columns := 2; cs_columns := [0] |} 0 0
           [(["1"; "a"], ["1"; "q"]); (["2"; "b"], ["2"; "r"])]
           eq_refl eq_refl eq_refl eq_refl ltac:(simpl; lia) eq_refl).
Defined.

(** ** Sort: the rows reclaimed *)

Section SortReclaim.

Context {sorting : StdSort}.

Lemma Sort_open_loop_log (step : Iterator -> outcome (option Row * Iterator)) :
  forall l c c' g, YieldsLog step c l c' g ->
  forall k r acc, S (length l) < k ->
  Sort_open_loop step k (Some r) acc c = Done (None, acc ++ r :: l, c') g.
Proof.
  induction 1 as [c c' g H | c r' c1 ga l c' gb H HY IH]; intros k r acc Hk.
  - destruct k as [|[|k]]; try (simpl in Hk; lia).
    simpl. rewrite H. simpl. rewrite app_nil_r. reflexivity.
  - destruct k as [|k]; [lia|]. simpl in Hk.
    cbn [Sort_open_loop]. rewrite (bind_step _ H).
    rewrite (IH k r' (acc ++ [r])) by lia.
    rewrite <- app_assoc. reflexivity.
Qed.

Lemma Sort_open_log (fuel : nat) (input opened input' : Iterator) (cols : list nat)
    (l g0 g s : list Row) (i : option nat) :
  open fuel input = Done opened g0 ->
  YieldsLog (next fuel) opened l input' g -> length l < fuel ->
  open (S fuel) (Sort input cols s i) =
  Done (Sort input' cols (std_sort (RowCompare cols) l) (Some 0)) (g0 ++ g).
Proof.
  intros Hopen HY Hlen. cbn [open]. rewrite (bind_step _ Hopen).
  inversion HY as [c0 c0' ge H | c0 r c1 ga l' c0' gb H HY']; subst.
  - rewrite (bind_step _ H). destruct fuel as [|fuel]; [simpl in Hlen; lia|].
    simpl. rewrite !app_nil_r. reflexivity.
  - rewrite (bind_step _ H).
    rewrite (@Sort_open_loop_log (next fuel) l' c1 input' gb HY' fuel r [])
      by (simpl in Hlen; lia).
    simpl. rewrite !app_nil_r. reflexivity.
Qed.

End SortReclaim.

(** X26.  Sort hands no row to Row::reclaim: the call [Row::reclaim(row)]
    at the end of Sort::open always gets NULL, so opening and draining a
    Sort reclaims exactly what its child reclaims while it is opened and
    drained, and the Sort ends with its cursor behind the last sorted row. *)
Theorem Sort_reclaims_nothing {sorting : StdSort}
    (fuel : nat) (input opened input' : Iterator) (cols : list nat)
    (l g0 g s : list Row) (i : option nat)
    (Hopen : open fuel input = Done opened g0)
    (Hdrain : drain fuel opened = Done (l, input') g) :
  (it <- open (S fuel) (Sort input cols s i) ;; drain (S fuel) it) =
  Done (std_sort (RowCompare cols) l,
        Sort input' cols (std_sort (RowCompare cols) l) (Some (length l)))
    (g0 ++ g).
Proof.
  apply drain_loop_YieldsLog in Hdrain. destruct Hdrain as [HY Hlen].
  rewrite (bind_step _ (@Sort_open_log _ fuel input opened input' cols l g0 g s i
                          Hopen HY Hlen)).
  rewrite (@Sort_drain _ fuel input' cols (std_sort (RowCompare cols) l) 0)
    by (rewrite ?std_sort_length; lia).
  cbn [skipn]. rewrite std_sort_length, app_nil_r. reflexivity.
Qed.

Lemma Sort_reclaims_nothing_witness :
  (it <- open (sorting := ties_kept_sort) 5
           (Sort (Project (new_TableIterator (table_of 2 [["2"; "b"]; ["1"; "a"]]))
                    {| cs_n_columns := 2; cs_columns := [0] |}) [0] [] None) ;;
   drain (sorting := ties_kept_sort) 5 it) =
  Done (std_sort (StdSort := ties_kept_sort) (RowCompare [0]) [["2"]; ["1"]],
        Sort (Project (TableIterator (table_of 2 [["2"; "b"]; ["1"; "a"]]) 2 2)
                {| cs_n_columns := 2; cs_columns := [0] |}) [0]
          (std_sort (StdSort := ties_kept_sort) (RowCompare [0]) [["2"]; ["1"]])
          (Some (length [["2"]; ["1"]])))
    ([] ++ [["2"; "b"]; ["1"; "a"]]).
Proof.
  exact (@Sort_reclaims_nothing ties_kept_sort 4
           (Project (new_TableIterator (table_of 2 [["2"; "b"]; ["1"; "a"]]))
              {| cs_n_columns := 2; cs_columns := [0] |})
           (Project (TableIterator (table_of 2 [["2"; "b"]; ["1"; "a"]]) 0 2)
              {| cs_n_columns := 2; cs_columns := [0] |})
           (Project (TableIterator (table_of 2 [["2"; "b"]; ["1"; "a"]]) 2 2)
              {| cs_n_columns := 2; cs_columns := [0] |})
           [0] [["2"]; ["1"]] [] [["2"; "b"]; ["1"; "a"]] [] None eq_refl eq_refl).
Defined.
